(** * tiddlylisp: tokenizer, reader, environments and evaluator

    A shallow embedding of [devons-tiddlylisp.py] (a Python 2 program) and
    the properties of its design that can be established on it.

    Python values are modelled by inductive types, the mutable [Env]
    dictionaries by an explicit store of frames addressed by handles, and
    Python exceptions by an outcome type that records the exception raised
    and the state in which it was raised. *)

From Stdlib Require Import ZArith List String Ascii Bool Lia Arith.
From Stdlib Require Import DecimalString DecimalZ DecimalFacts.
From Stdlib Require Import SpecFloat.
Import ListNotations.

#[local] Set Warnings "-register-all".
Local Open Scope string_scope.
Local Open Scope Z_scope.

(** ** Exceptions and outcomes *)

(** The Python exceptions the program can raise.  [SyntaxError] carries the
    message given at the [raise] statement; the others are raised by the
    host language. *)
Inductive exn : Type :=
| SyntaxError (msg : string)
| IndexError
| ValueError
| TypeError
| AttributeError
| KeyError
| ZeroDivisionError
| OverflowError
| UnboundLocalError.

(** Result of a computation that cannot touch any state. *)
Inductive pure (A : Type) : Type :=
| Return (a : A)
| Throw (e : exn).
Arguments Return {A} a.
Arguments Throw {A} e.

(** Result of a computation over a mutable state [S]: a value and the
    final state, an exception and the state at the time it was raised, or
    exhaustion of the recursion budget. *)
Inductive outcome (S A : Type) : Type :=
| Ok (a : A) (s : S)
| Raise (e : exn) (s : S)
| Diverge.
Arguments Ok {S A} a s.
Arguments Raise {S A} e s.
Arguments Diverge {S A}.

(** ** Strings *)

Module Str.

Definition first (s : string) : option ascii :=
  match s with
  | EmptyString => None
  | String c _ => Some c
  end.

Fixpoint last (s : string) : option ascii :=
  match s with
  | EmptyString => None
  | String c EmptyString => Some c
  | String _ s' => last s'
  end.

Definition is_empty (s : string) : bool :=
  match s with EmptyString => true | _ => false end.

(** [str.isspace] on one byte: space, \t, \n, \v, \f, \r. *)
Definition is_space (c : ascii) : bool :=
  let n := nat_of_ascii c in
  (Nat.eqb n 32 || (Nat.leb 9 n && Nat.leb n 13))%bool.

(** [s.replace(orig, replcmt)] for a one-character [orig]. *)
Fixpoint replace (orig : ascii) (replcmt : string) (s : string) : string :=
  match s with
  | EmptyString => EmptyString
  | String c s' =>
      (if Ascii.eqb c orig then replcmt else String c EmptyString)
        ++ replace orig replcmt s'
  end.

Definition emit (cur : string) : list string :=
  if is_empty cur then [] else [cur].

(** [s.split()]: maximal runs of non-whitespace characters, in order.
    [cur] is the word being read. *)
Fixpoint split_from (cur : string) (s : string) : list string :=
  match s with
  | EmptyString => emit cur
  | String c s' =>
      if is_space c then emit cur ++ split_from EmptyString s'
      else split_from (cur ++ String c EmptyString) s'
  end.

Definition split (s : string) : list string := split_from EmptyString s.

Fixpoint forallb (p : ascii -> bool) (s : string) : bool :=
  match s with
  | EmptyString => true
  | String c s' => (p c && forallb p s')%bool
  end.

Fixpoint repeat (s : string) (n : nat) : string :=
  match n with
  | O => EmptyString
  | S n' => s ++ repeat s n'
  end.

Definition lower (c : ascii) : ascii :=
  let n := nat_of_ascii c in
  if (Nat.leb 65 n && Nat.leb n 90)%bool then ascii_of_nat (n + 32) else c.

Fixpoint map (f : ascii -> ascii) (s : string) : string :=
  match s with
  | EmptyString => EmptyString
  | String c s' => String (f c) (map f s')
  end.

Definition is_digit (c : ascii) : bool :=
  let n := nat_of_ascii c in (Nat.leb 48 n && Nat.leb n 57)%bool.

(** Longest prefix of decimal digits, and the rest. *)
Fixpoint span_digits (s : string) : string * string :=
  match s with
  | EmptyString => (EmptyString, EmptyString)
  | String c s' =>
      if is_digit c then
        let (d, r) := span_digits s' in (String c d, r)
      else (EmptyString, s)
  end.

(** Characters of a string as one-character strings (iterating a [str]). *)
Fixpoint chars (s : string) : list string :=
  match s with
  | EmptyString => []
  | String c s' => String c EmptyString :: chars s'
  end.

End Str.

(** ** Integers: [str(n)] and [int(token)] *)

Definition str_int (n : Z) : string := NilZero.string_of_int (Z.to_int n).

Definition digits_value (s : string) : option Z :=
  match NilZero.uint_of_string s with
  | Some d => Some (Z.of_uint d)
  | None => None
  end.

(** [int(token)] on a token without whitespace: an optional sign followed
    by one or more decimal digits; [None] stands for [ValueError]. *)
Definition py_int (token : string) : option Z :=
  match token with
  | String "-" s => option_map Z.opp (digits_value s)
  | String "+" s => digits_value s
  | _ => digits_value token
  end.

(** ** Floats: IEEE 754 binary64, [float(token)] and [str(x)] *)

Module PyFloat.

Definition prec : Z := 53.
Definition emax : Z := 1024.

Definition float := spec_float.

Definition add : float -> float -> float := SFadd prec emax.
Definition sub : float -> float -> float := SFsub prec emax.
Definition mul : float -> float -> float := SFmul prec emax.
Definition div : float -> float -> float := SFdiv prec emax.

Definition is_zero (x : float) : bool :=
  match x with S754_zero _ => true | _ => false end.

Definition is_nan (x : float) : bool :=
  match x with S754_nan => true | _ => false end.

Definition is_inf (x : float) : bool :=
  match x with S754_infinity _ => true | _ => false end.

(** Nearest float to an integer (ties to even). *)
Definition of_Z (n : Z) : float := binary_normalize prec emax n 0 false.

(** Exact comparison of an integer with a float, as [float_richcompare]
    does; [None] when the float is a NaN. *)
Definition compare_Z (n : Z) (x : float) : option comparison :=
  match x with
  | S754_nan => None
  | S754_zero _ => Some (n ?= 0)
  | S754_infinity s => Some (if s then Gt else Lt)
  | S754_finite s m e =>
      let v := if s then Z.neg m else Z.pos m in
      Some (match e with
            | Zneg k => (n * 2 ^ Z.pos k ?= v)
            | _ => (n ?= v * 2 ^ e)
            end)
  end.

(** Nearest float to [m * 10^e10] for a natural [m]. Magnitudes that are
    certainly beyond the range of binary64 are answered at once. *)
Definition of_decimal (neg : bool) (m : Z) (ndigits : Z) (e10 : Z) : float :=
  if m =? 0 then S754_zero neg
  else if 400 <? e10 then S754_infinity neg
  else if ndigits + e10 <? -400 then S754_zero neg
  else if 0 <=? e10 then
    binary_normalize prec emax (if neg then - (m * 10 ^ e10) else m * 10 ^ e10) 0 neg
  else
    let den := 10 ^ (- e10) in
    let sh := Z.log2 den + 70 in
    let q := (m * 2 ^ sh) / den in
    let r := (m * 2 ^ sh) mod den in
    let mant := 2 * q + (if r =? 0 then 0 else 1) in
    binary_normalize prec emax (if neg then - mant else mant) (- (sh + 1)) neg.

Definition strip_sign (s : string) : bool * string :=
  match s with
  | String "-" s' => (true, s')
  | String "+" s' => (false, s')
  | _ => (false, s)
  end.

Definition nat_digits (s : string) : Z :=
  match NilEmpty.uint_of_string s with
  | Some d => Z.of_uint d
  | None => 0
  end.

(** The exponent part: empty, or [e]/[E], an optional sign and digits. *)
Definition parse_exponent (s : string) : option Z :=
  match s with
  | EmptyString => Some 0
  | String c s' =>
      if (Ascii.eqb c "e" || Ascii.eqb c "E")%bool then
        let (neg, ds) := strip_sign s' in
        match digits_value ds with
        | Some k => Some (if neg then - k else k)
        | None => None
        end
      else None
  end.

(** [float(token)] on a token without whitespace; [None] stands for
    [ValueError]. *)
Definition parse (token : string) : option float :=
  let (neg, body) := strip_sign token in
  let low := Str.map Str.lower body in
  if ((low =? "inf") || (low =? "infinity"))%string then Some (S754_infinity neg)
  else if (low =? "nan")%string then Some S754_nan
  else
    let (ip, r1) := Str.span_digits body in
    let (fp, r2) :=
      match r1 with
      | String "." r => Str.span_digits r
      | _ => (EmptyString, r1)
      end in
    if (Str.is_empty ip && Str.is_empty fp)%bool then None
    else
      match parse_exponent r2 with
      | None => None
      | Some ex =>
          let ds := (ip ++ fp)%string in
          Some (of_decimal neg (nat_digits ds) (Z.of_nat (String.length ds))
                  (ex - Z.of_nat (String.length fp)))
      end.

(** *** [str(x)]: the [%.12g] rendering with [.0] added to integers *)

Definition ndigits10 (n : Z) : Z := Z.of_nat (String.length (str_int n)).

(** [num / den >= 10^k] *)
Definition ge_pow10 (num den k : Z) : bool :=
  if 0 <=? k then den * 10 ^ k <=? num else den <=? num * 10 ^ (- k).

(** Decimal exponent [X] with [10^X <= num/den < 10^(X+1)]. *)
Definition exponent10 (num den : Z) : Z :=
  let g := ndigits10 num - ndigits10 den in
  if ge_pow10 num den (g + 1) then g + 1
  else if ge_pow10 num den g then g
  else g - 1.

(** [num / den * 10^k] rounded to the nearest integer, ties to even. *)
Definition round_scaled (num den k : Z) : Z :=
  let n := if 0 <=? k then num * 10 ^ k else num in
  let d := if 0 <=? k then den else den * 10 ^ (- k) in
  let q := n / d in
  let r := n mod d in
  match 2 * r ?= d with
  | Lt => q
  | Gt => q + 1
  | Eq => if Z.even q then q else q + 1
  end.

Fixpoint strip_zeros_rev (s : list ascii) : list ascii :=
  match s with
  | c :: s' => if Ascii.eqb c "0" then strip_zeros_rev s' else s
  | [] => []
  end.

Definition strip_trailing_zeros (s : string) : string :=
  string_of_list_ascii (rev (strip_zeros_rev (rev (list_ascii_of_string s)))).

Definition two_digits (n : Z) : string :=
  if n <? 10 then "0" ++ str_int n else str_int n.

(** Rendering of the positive rational [num / den]. *)
Definition str_pos (num den : Z) : string :=
  let x0 := exponent10 num den in
  let q0 := round_scaled num den (11 - x0) in
  let '(q, x) := if q0 =? 10 ^ 12 then (10 ^ 11, x0 + 1) else (q0, x0) in
  let ds := strip_trailing_zeros (str_int q) in
  if ((x <? -4) || (12 <=? x))%bool then
    let mant :=
      match ds with
      | String c EmptyString => ds
      | String c rest => String c ("." ++ rest)
      | EmptyString => ds
      end in
    mant ++ "e" ++ (if x <? 0 then "-" else "+") ++ two_digits (Z.abs x)
  else if 0 <=? x then
    let n := Z.to_nat (x + 1) in
    let padded := ds ++ Str.repeat "0" (n - String.length ds) in
    let ip := substring 0 n padded in
    let fp := substring n (String.length padded - n) padded in
    ip ++ "." ++ (if Str.is_empty fp then "0" else fp)
  else
    "0." ++ Str.repeat "0" (Z.to_nat (- x - 1)) ++ ds.

Definition str (x : float) : string :=
  match x with
  | S754_nan => "nan"
  | S754_infinity s => if s then "-inf" else "inf"
  | S754_zero s => if s then "-0.0" else "0.0"
  | S754_finite s m e =>
      (if s then "-" else EmptyString) ++
      match e with
      | Zneg k => str_pos (Z.pos m) (2 ^ Z.pos k)
      | _ => str_pos (Z.pos m * 2 ^ e) 1
      end
  end.

End PyFloat.

(** ** Expressions *)

(** What the reader produces: numbers, symbols (Python [str], [Symbol = str])
    and lists of expressions. *)
Inductive expr : Type :=
| Int (n : Z)
| Float (x : PyFloat.float)
| Sym (s : string)
| List (xs : list expr).

(** [atom(token)]: numbers become numbers; every other token is a symbol. *)
Definition atom (token : string) : expr :=
  match py_int token with
  | Some n => Int n
  | None =>
      match PyFloat.parse token with
      | Some x => Float x
      | None => Sym token
      end
  end.

(** [to_string(exp)] on expressions: [str] of a non-list, otherwise the
    renderings of the elements joined by one space, in parentheses. *)
Fixpoint to_string (exp : expr) : string :=
  match exp with
  | Int n => str_int n
  | Float x => PyFloat.str x
  | Sym s => s
  | List xs => "(" ++ String.concat " " (map to_string xs) ++ ")"
  end.

(** ** Tokenizer *)

(** The double quote, character 34. *)
Definition quote_char : ascii :=
  Ascii false true false false false true false false.

(** The loop of [tokenize] over the words of the input, with its three
    variables.  Indexing an empty word would raise [IndexError]. *)
Fixpoint scan (tokens : list string) (result : list string)
    (str_so_far : string) (open_parens : bool) : pure (list string) :=
  match tokens with
  | [] => Return result
  | token :: rest =>
      if open_parens then
        let str_so_far := str_so_far ++ " " ++ token in
        match Str.last token with
        | None => Throw IndexError
        | Some c =>
            if Ascii.eqb c quote_char
            then scan rest (result ++ [str_so_far]) EmptyString false
            else scan rest result str_so_far true
        end
      else
        match Str.first token with
        | None => Throw IndexError
        | Some c =>
            if Ascii.eqb c quote_char
            then scan rest result token true
            else scan rest (result ++ [token]) str_so_far false
        end
  end.

(** Both parentheses padded with spaces.  The source iterates over a
    dictionary of the two replacements; [pad_commute] below shows that the
    order of iteration does not matter. *)
Definition pad (s : string) : string :=
  Str.replace ")" " ) " (Str.replace "(" " ( " s).

Definition tokenize (s : string) : pure (list string) :=
  scan (Str.split (pad s)) [] EmptyString false.

(** ** Reader *)

Definition msg_eof : string := "Unexpected EOF while reading.".
Definition msg_close : string := "Unexpected )".

(** [read_from(tokens)].  The token list is the state: the source pops
    tokens off the front of one shared list.  [read_rest] is the [while]
    loop that collects the elements of a list into [L]. *)
Fixpoint read_from_fuel (fuel : nat) (tokens : list string)
    : outcome (list string) expr :=
  match fuel with
  | O => Diverge
  | S n =>
      match tokens with
      | [] => Raise (SyntaxError msg_eof) []
      | token :: tokens =>
          if (token =? "(")%string then read_rest n [] tokens
          else if (token =? ")")%string then Raise (SyntaxError msg_close) tokens
          else Ok (atom token) tokens
      end
  end
with read_rest (fuel : nat) (L : list expr) (tokens : list string)
    : outcome (list string) expr :=
  match fuel with
  | O => Diverge
  | S n =>
      match tokens with
      | [] => Raise IndexError []
      | t :: tokens' =>
          if negb (t =? ")")%string then
            match read_from_fuel n tokens with
            | Ok e tokens1 => read_rest n (L ++ [e]) tokens1
            | Raise e s => Raise e s
            | Diverge => Diverge
            end
          else Ok (List L) tokens'
      end
  end.

(** Every call consumes a token or ends the loop, so twice the number of
    tokens (plus two) is a sufficient budget; see [read_from_total]. *)
Definition read_from (tokens : list string) : outcome (list string) expr :=
  read_from_fuel (2 * List.length tokens + 2) tokens.

(** [parse(s) = read_from(tokenize(s))] *)
Definition parse (s : string) : outcome (list string) expr :=
  match tokenize s with
  | Return tokens => read_from tokens
  | Throw e => Raise e []
  end.

(** ** Values *)

(** The built-in procedures of [add_globals], functions of the [operator]
    module. *)
Inductive builtin : Type :=
| OpAdd | OpSub | OpMul | OpDiv | OpGt | OpLt | OpGe | OpLe | OpEq.

(** An [Env] object is named by its position in the store. *)
Definition handle : Type := nat.

(** Results of evaluation.  A closure is the Python function made by the
    [lambda] branch of [eval]: it holds the three variables it closes over
    ([vars], [exp], [env]); [fid] is its identity as an object. *)
Inductive value : Type :=
| VInt (n : Z)
| VFloat (x : PyFloat.float)
| VStr (s : string)
| VBool (b : bool)
| VNone
| VList (vs : list value)
| VBuiltin (op : builtin)
| VClosure (fid : nat) (vars : expr) (exp : expr) (env : handle).

(** An expression seen as a value (the same Python object). *)
Fixpoint datum (x : expr) : value :=
  match x with
  | Int n => VInt n
  | Float f => VFloat f
  | Sym s => VStr s
  | List xs => VList (map datum xs)
  end.

Definition is_list (v : value) : bool :=
  match v with VList _ => true | _ => false end.

(** Truth value of an object in a condition. *)
Definition truthy (v : value) : bool :=
  match v with
  | VInt n => negb (n =? 0)
  | VFloat x => negb (PyFloat.is_zero x)
  | VStr s => negb (Str.is_empty s)
  | VBool b => b
  | VNone => false
  | VList vs => match vs with [] => false | _ => true end
  | VBuiltin _ | VClosure _ _ _ _ => true
  end.

(** *** Comparison of objects (Python 2) *)

Inductive num : Type :=
| NInt (n : Z)
| NFloat (x : PyFloat.float).

Definition as_num (v : value) : option num :=
  match v with
  | VInt n => Some (NInt n)
  | VBool b => Some (NInt (if b then 1 else 0))
  | VFloat x => Some (NFloat x)
  | _ => None
  end.

(** Numbers compare by value, exactly; [None] when a NaN is involved. *)
Definition num_compare (a b : num) : option comparison :=
  match a, b with
  | NInt m, NInt n => Some (m ?= n)
  | NFloat x, NFloat y => SFcompare x y
  | NInt m, NFloat y => PyFloat.compare_Z m y
  | NFloat x, NInt n => option_map CompOpp (PyFloat.compare_Z n x)
  end.

Definition builtin_index (op : builtin) : nat :=
  match op with
  | OpAdd => 0 | OpSub => 1 | OpMul => 2 | OpDiv => 3 | OpGt => 4
  | OpLt => 5 | OpGe => 6 | OpLe => 7 | OpEq => 8
  end%nat.

(** Objects of different kinds are ordered by kind: [None], then numbers,
    then the others by the name of their type
    ([builtin_function_or_method], [function], [list], [str]). *)
Definition kind_rank (v : value) : nat :=
  match v with
  | VNone => 0
  | VInt _ | VFloat _ | VBool _ => 1
  | VBuiltin _ => 2
  | VClosure _ _ _ _ => 3
  | VList _ => 4
  | VStr _ => 5
  end%nat.

(** Three-way comparison; [None] means unordered (a NaN decides).  Lists
    compare by their first differing elements, then by length.  Two
    distinct procedures are never equal; CPython orders them by address,
    which is rendered here by [fid] and [builtin_index].  Values carry no
    object identity: CPython takes an element of a list that is the same
    object on both sides as equal without comparing it, which differs from
    this comparison for a list that holds a NaN and is compared with
    itself. *)
Fixpoint py_compare (v w : value) {struct v} : option comparison :=
  match v, w with
  | VList vs, VList ws =>
      (fix lex (vs ws : list value) {struct vs} : option comparison :=
         match vs, ws with
         | [], [] => Some Eq
         | [], _ :: _ => Some Lt
         | _ :: _, [] => Some Gt
         | a :: vs', b :: ws' =>
             match py_compare a b with
             | Some Eq => lex vs' ws'
             | r => r
             end
         end) vs ws
  | VStr s, VStr t => Some (String.compare s t)
  | VNone, VNone => Some Eq
  | VBuiltin p, VBuiltin q => Some (Nat.compare (builtin_index p) (builtin_index q))
  | VClosure f _ _ _, VClosure g _ _ _ => Some (Nat.compare f g)
  | _, _ =>
      match as_num v, as_num w with
      | Some a, Some b => num_compare a b
      | _, _ => Some (Nat.compare (kind_rank v) (kind_rank w))
      end
  end.

(** [v == w] *)
Definition py_eq (v w : value) : bool :=
  match py_compare v w with Some Eq => true | _ => false end.

Definition py_lt (v w : value) : bool :=
  match py_compare v w with Some Lt => true | _ => false end.

Definition py_gt (v w : value) : bool :=
  match py_compare v w with Some Gt => true | _ => false end.

Definition py_le (v w : value) : bool :=
  match py_compare v w with Some Lt | Some Eq => true | _ => false end.

Definition py_ge (v w : value) : bool :=
  match py_compare v w with Some Gt | Some Eq => true | _ => false end.

(** *** Arithmetic *)

(** Conversion of an integer operand to float; a [long] too large for a
    float raises [OverflowError]. *)
Definition to_float (a : num) : pure PyFloat.float :=
  match a with
  | NFloat x => Return x
  | NInt n =>
      let x := PyFloat.of_Z n in
      if PyFloat.is_inf x then Throw OverflowError else Return x
  end.

Definition float_op (f : PyFloat.float -> PyFloat.float -> PyFloat.float)
    (a b : num) : pure value :=
  match to_float a, to_float b with
  | Return x, Return y => Return (VFloat (f x y))
  | Throw e, _ => Throw e
  | _, Throw e => Throw e
  end.

Definition num_op (fz : Z -> Z -> Z)
    (ff : PyFloat.float -> PyFloat.float -> PyFloat.float) (a b : num) : pure value :=
  match a, b with
  | NInt m, NInt n => Return (VInt (fz m n))
  | _, _ => float_op ff a b
  end.

Definition num_div (a b : num) : pure value :=
  match a, b with
  | NInt m, NInt n => if n =? 0 then Throw ZeroDivisionError else Return (VInt (m / n))
  | _, _ =>
      match to_float a, to_float b with
      | Return x, Return y =>
          if PyFloat.is_zero y then Throw ZeroDivisionError
          else Return (VFloat (PyFloat.div x y))
      | Throw e, _ => Throw e
      | _, Throw e => Throw e
      end
  end.

Definition index_of (v : value) : option Z :=
  match v with
  | VInt n => Some n
  | VBool b => Some (if b then 1 else 0)
  | _ => None
  end.

Definition repeat_list {A : Type} (l : list A) (n : Z) : list A :=
  List.concat (List.repeat l (Z.to_nat n)).

(** [operator.add], [operator.sub], ... on two objects.  Memory is taken
    as unbounded: a repetition of a sequence is always built, where CPython
    raises [OverflowError] for a count beyond an index-sized integer and
    [MemoryError] for a result that does not fit. *)
Definition apply_builtin (op : builtin) (v w : value) : pure value :=
  match op with
  | OpAdd =>
      match v, w with
      | VStr s, VStr t => Return (VStr (s ++ t))
      | VList l, VList m => Return (VList (l ++ m))
      | _, _ =>
          match as_num v, as_num w with
          | Some a, Some b => num_op Z.add PyFloat.add a b
          | _, _ => Throw TypeError
          end
      end
  | OpSub =>
      match as_num v, as_num w with
      | Some a, Some b => num_op Z.sub PyFloat.sub a b
      | _, _ => Throw TypeError
      end
  | OpMul =>
      match v, w with
      | VStr s, _ =>
          match index_of w with
          | Some n => Return (VStr (Str.repeat s (Z.to_nat n)))
          | None => Throw TypeError
          end
      | VList l, _ =>
          match index_of w with
          | Some n => Return (VList (repeat_list l n))
          | None => Throw TypeError
          end
      | _, VStr s =>
          match index_of v with
          | Some n => Return (VStr (Str.repeat s (Z.to_nat n)))
          | None => Throw TypeError
          end
      | _, VList l =>
          match index_of v with
          | Some n => Return (VList (repeat_list l n))
          | None => Throw TypeError
          end
      | _, _ =>
          match as_num v, as_num w with
          | Some a, Some b => num_op Z.mul PyFloat.mul a b
          | _, _ => Throw TypeError
          end
      end
  | OpDiv =>
      match as_num v, as_num w with
      | Some a, Some b => num_div a b
      | _, _ => Throw TypeError
      end
  | OpGt => Return (VBool (py_gt v w))
  | OpLt => Return (VBool (py_lt v w))
  | OpGe => Return (VBool (py_ge v w))
  | OpLe => Return (VBool (py_le v w))
  | OpEq => Return (VBool (py_eq v w))
  end.

(** ** Environments *)

(** Dictionary keys.  Lists cannot be hashed.  Equal numbers are the same
    key; symbols are equal to symbols only. *)
Definition hashable (k : expr) : bool :=
  match k with List _ => false | _ => true end.

Definition key_eqb (k1 k2 : expr) : bool :=
  match k1, k2 with
  | Sym s, Sym t => (s =? t)%string
  | List _, _ | _, List _ => false
  | _, _ => py_eq (datum k1) (datum k2)
  end.

Module Dict.

Definition t : Type := list (expr * value).

Fixpoint mem (k : expr) (d : t) : bool :=
  match d with
  | [] => false
  | (k', _) :: d' => (key_eqb k' k || mem k d')%bool
  end.

Fixpoint get (k : expr) (d : t) : option value :=
  match d with
  | [] => None
  | (k', v) :: d' => if key_eqb k' k then Some v else get k d'
  end.

(** [d[k] = v]: the value of an existing key is replaced, a new key is
    added. *)
Fixpoint set (k : expr) (v : value) (d : t) : t :=
  match d with
  | [] => [(k, v)]
  | (k', v') :: d' =>
      if key_eqb k' k then (k', v) :: d' else (k', v') :: set k v d'
  end.

(** [d.update(pairs)]; fails on the first key that cannot be hashed. *)
Fixpoint update (pairs : list (expr * value)) (d : t) : pure t :=
  match pairs with
  | [] => Return d
  | (k, v) :: rest =>
      if hashable k then update rest (set k v d) else Throw TypeError
  end.

End Dict.

(** [class Env(dict)]: a dictionary and the [outer] attribute. *)
Record frame : Type := Frame {
  bindings : Dict.t;
  outer : option handle
}.

(** The heap: all [Env] objects created so far, and the number of function
    objects created so far. *)
Record store : Type := Store {
  frames : list frame;
  next_fid : nat
}.

(** Computations of the evaluator. *)
Definition M (A : Type) : Type := store -> outcome store A.

Definition ret {A} (a : A) : M A := fun st => Ok a st.
Definition raise {A} (e : exn) : M A := fun st => Raise e st.
Definition diverge {A} : M A := fun _ => Diverge.

Definition bind {A B} (c : M A) (k : A -> M B) : M B :=
  fun st =>
    match c st with
    | Ok a st' => k a st'
    | Raise e st' => Raise e st'
    | Diverge => Diverge
    end.

Definition lift {A} (p : pure A) : M A :=
  match p with
  | Return a => ret a
  | Throw e => raise e
  end.

Declare Scope monad_scope.
Delimit Scope monad_scope with monad.
Notation "x <- c ;; k" := (bind c (fun x => k))
  (at level 61, c at next level, right associativity) : monad_scope.
Notation "c ;;; k" := (bind c (fun _ => k))
  (at level 61, right associativity) : monad_scope.
Local Open Scope monad_scope.

Definition frame_at (st : store) (env : handle) : option frame :=
  nth_error (frames st) env.

(** Replace the frame at [env]. *)
Fixpoint put_frame (fs : list frame) (env : handle) (f : frame) : list frame :=
  match fs, env with
  | [], _ => []
  | _ :: fs', O => f :: fs'
  | g :: fs', S n => g :: put_frame fs' n f
  end.

(** [Env.find(var)]: the innermost [Env] where [var] appears.  When the
    chain is exhausted the source calls [find] on [None], which raises
    [AttributeError].  In a store built by the evaluator every [outer] is
    older than the frame that holds it, so that a chain starting at [env]
    has at most [env + 1] frames. *)
Fixpoint find_fuel (fuel : nat) (env : handle) (var : expr) : M handle :=
  fun st =>
    match fuel with
    | O => Diverge
    | S n =>
        match frame_at st env with
        | None => Diverge
        | Some f =>
            if negb (hashable var) then Raise TypeError st
            else if Dict.mem var (bindings f) then Ok env st
            else
              match outer f with
              | None => Raise AttributeError st
              | Some o => find_fuel n o var st
              end
        end
    end.

Definition find (env : handle) (var : expr) : M handle :=
  find_fuel (S env) env var.

(** [env[var]] *)
Definition getitem (env : handle) (var : expr) : M value :=
  fun st =>
    match frame_at st env with
    | None => Diverge
    | Some f =>
        if negb (hashable var) then Raise TypeError st
        else
          match Dict.get var (bindings f) with
          | Some v => Ok v st
          | None => Raise KeyError st
          end
    end.

(** [env[var] = v] *)
Definition setitem (env : handle) (var : expr) (v : value) : M unit :=
  fun st =>
    match frame_at st env with
    | None => Diverge
    | Some f =>
        if negb (hashable var) then Raise TypeError st
        else
          Ok tt (Store (put_frame (frames st) env
                          (Frame (Dict.set var v (bindings f)) (outer f)))
                       (next_fid st))
    end.

(** Iterating over the parameter object of a [lambda]: the elements of a
    list, the characters of a symbol; a number cannot be iterated. *)
Definition iterate (x : expr) : pure (list expr) :=
  match x with
  | List xs => Return xs
  | Sym s => Return (map Sym (Str.chars s))
  | Int _ | Float _ => Throw TypeError
  end.

(** [Env(params, args, outer)]: [zip] pairs parameters with arguments up
    to the shorter of the two, [update] stores the pairs, and the new
    object is added to the heap. *)
Definition new_env (params : expr) (args : list value) (outer : handle) : M handle :=
  fun st =>
    match iterate params with
    | Throw e => Raise e st
    | Return ps =>
        match Dict.update (combine ps args) [] with
        | Throw e => Raise e st
        | Return d =>
            Ok (List.length (frames st))
               (Store (frames st ++ [Frame d (Some outer)]) (next_fid st))
        end
    end.

(** A new function object. *)
Definition new_closure (vars exp : expr) (env : handle) : M value :=
  fun st =>
    Ok (VClosure (next_fid st) vars exp env)
       (Store (frames st) (S (next_fid st))).

(** [add_globals(Env())] *)
Definition global_bindings : Dict.t :=
  [ (Sym "+", VBuiltin OpAdd); (Sym "-", VBuiltin OpSub);
    (Sym "*", VBuiltin OpMul); (Sym "/", VBuiltin OpDiv);
    (Sym ">", VBuiltin OpGt); (Sym "<", VBuiltin OpLt);
    (Sym ">=", VBuiltin OpGe); (Sym "<=", VBuiltin OpLe);
    (Sym "=", VBuiltin OpEq);
    (Sym "True", VBool true); (Sym "False", VBool false) ].

Definition global_env : handle := 0%nat.

Definition initial_store : store :=
  Store [Frame global_bindings None] 0.

(** ** Evaluator *)

(** [x == 'keyword'] for an element of an expression. *)
Definition is_sym (x : expr) (kw : string) : bool :=
  match x with
  | Sym s => (s =? kw)%string
  | _ => false
  end.

(** Unpacking of a [cond] clause into [(p, e)]: a list of two elements, or
    a symbol of two characters. *)
Definition unpack2 (c : expr) : pure (expr * expr) :=
  match iterate c with
  | Throw e => Throw e
  | Return [p; e] => Return (p, e)
  | Return _ => Throw ValueError
  end.

(** [v[0]] *)
Definition getitem0 (v : value) : pure value :=
  match v with
  | VList (a :: _) => Return a
  | VList [] => Throw IndexError
  | VStr (String c _) => Return (VStr (String c EmptyString))
  | VStr EmptyString => Throw IndexError
  | _ => Throw TypeError
  end.

(** [v[1:]] *)
Definition slice1 (v : value) : pure value :=
  match v with
  | VList vs => Return (VList (tl vs))
  | VStr (String _ s) => Return (VStr s)
  | VStr EmptyString => Return (VStr EmptyString)
  | _ => Throw TypeError
  end.

(** [[v] + w] *)
Definition cons_list (v w : value) : pure value :=
  match w with
  | VList ws => Return (VList (v :: ws))
  | _ => Throw TypeError
  end.

Section EvalBody.

(** The recursive call [eval(exp, env)]. *)
Variable ev : expr -> handle -> M value.

(** [proc( *args )] *)
Definition call (proc : value) (args : list value) : M value :=
  match proc with
  | VBuiltin op =>
      match args with
      | [a; b] => lift (apply_builtin op a b)
      | _ => raise TypeError
      end
  | VClosure _ vars exp env =>
      env' <- new_env vars args env ;;
      ev exp env'
  | _ => raise TypeError
  end.

(** The [while len(exps) > 2] loop followed by [return proc( *exps )],
    entered with at least two values: [val1], [val2] and [rest]. *)
Fixpoint reduce (proc val1 val2 : value) (rest : list value) : M value :=
  match rest with
  | [] => call proc [val1; val2]
  | val3 :: rest' =>
      new_first_val <- call proc [val1; val2] ;;
      reduce proc new_first_val val3 rest'
  end.

(** The application branch after the operator and operands have been
    evaluated. *)
Definition apply (proc : value) (exps : list value) : M value :=
  let exps :=
    match exps with
    | [_] =>
        if (py_eq proc (VBuiltin OpAdd) || py_eq proc (VBuiltin OpSub))%bool
        then VInt 0 :: exps else exps
    | _ => exps
    end in
  match exps with
  | val1 :: val2 :: rest => reduce proc val1 val2 rest
  | _ => call proc exps
  end.

(** [[eval(exp, env) for exp in x]] *)
Fixpoint eval_list (xs : list expr) (env : handle) : M (list value) :=
  match xs with
  | [] => ret []
  | x :: xs' =>
      v <- ev x env ;;
      vs <- eval_list xs' env ;;
      ret (v :: vs)
  end.

(** The [for (p, e) in x[1:]] loop of [cond]. *)
Fixpoint cond_loop (clauses : list expr) (env : handle) : M value :=
  match clauses with
  | [] => ret (VList [])
  | c :: rest =>
      pe <- lift (unpack2 c) ;;
      t <- ev (fst pe) env ;;
      if truthy t then ev (snd pe) env else cond_loop rest env
  end.

(** The [for exp in x[1:]] loop of [begin]; [val] is unbound until the
    first iteration. *)
Fixpoint begin_loop (exps : list expr) (val : option value) (env : handle)
    : M value :=
  match exps with
  | [] =>
      match val with
      | Some v => ret v
      | None => raise UnboundLocalError
      end
  | exp :: rest =>
      v <- ev exp env ;;
      begin_loop rest (Some v) env
  end.

(** The body of [eval(x, env)]. *)
Definition eval_body (x : expr) (env : handle) : M value :=
  match x with
  | Sym _ =>
      f <- find env x ;;
      getitem f x
  | Int _ | Float _ => ret (datum x)
  | List [] => raise IndexError
  | List (x0 :: args) =>
      if (is_sym x0 "quote" || is_sym x0 "q")%bool then
        match args with
        | [exp] => ret (datum exp)
        | _ => raise ValueError
        end
      else if is_sym x0 "atom?" then
        match args with
        | [exp] =>
            v <- ev exp env ;;
            ret (VBool (negb (is_list v)))
        | _ => raise ValueError
        end
      else if is_sym x0 "eq?" then
        match args with
        | [exp1; exp2] =>
            v1 <- ev exp1 env ;;
            v2 <- ev exp2 env ;;
            ret (VBool (negb (is_list v1) && py_eq v1 v2))
        | _ => raise ValueError
        end
      else if is_sym x0 "car" then
        match args with
        | [exp] =>
            v <- ev exp env ;;
            lift (getitem0 v)
        | _ => raise ValueError
        end
      else if is_sym x0 "cdr" then
        match args with
        | [exp] =>
            v <- ev exp env ;;
            lift (slice1 v)
        | _ => raise ValueError
        end
      else if is_sym x0 "cons" then
        match args with
        | [exp1; exp2] =>
            v1 <- ev exp1 env ;;
            v2 <- ev exp2 env ;;
            lift (cons_list v1 v2)
        | _ => raise ValueError
        end
      else if is_sym x0 "cond" then
        cond_loop args env
      else if is_sym x0 "null?" then
        match args with
        | [exp] =>
            v <- ev exp env ;;
            ret (VBool (py_eq v (VList [])))
        | _ => raise ValueError
        end
      else if is_sym x0 "if" then
        match args with
        | [test; conseq; alt] =>
            t <- ev test env ;;
            ev (if truthy t then conseq else alt) env
        | _ => raise ValueError
        end
      else if is_sym x0 "set!" then
        match args with
        | [var; exp] =>
            v <- ev exp env ;;
            f <- find env var ;;
            setitem f var v ;;;
            ret VNone
        | _ => raise ValueError
        end
      else if is_sym x0 "define" then
        match args with
        | [var; exp] =>
            v <- ev exp env ;;
            setitem env var v ;;;
            ret VNone
        | _ => raise ValueError
        end
      else if is_sym x0 "lambda" then
        match args with
        | [vars; exp] => new_closure vars exp env
        | _ => raise ValueError
        end
      else if is_sym x0 "begin" then
        begin_loop args None env
      else
        exps <- eval_list (x0 :: args) env ;;
        match exps with
        | proc :: exps => apply proc exps
        | [] => raise IndexError
        end
  end.

End EvalBody.

(** [eval(x, env)].  [fuel] bounds the depth of nested calls of [eval];
    the source is bounded by the interpreter's recursion limit only. *)
Fixpoint eval (fuel : nat) (x : expr) (env : handle) : M value :=
  match fuel with
  | O => diverge
  | S n => eval_body (eval n) x env
  end.

(** Reading and evaluating one line in the global environment, as the
    read-eval-print loop does. *)
Definition run (fuel : nat) (line : string) (st : store) : outcome store value :=
  match parse line with
  | Ok x _ => eval fuel x global_env st
  | Raise e _ => Raise e st
  | Diverge => Diverge
  end.

(** ** Loading a program *)

Module Text.

(** [s.lstrip()] *)
Fixpoint lstrip (s : string) : string :=
  match s with
  | EmptyString => EmptyString
  | String c s' => if Str.is_space c then lstrip s' else s
  end.

(** [s.rstrip()] *)
Fixpoint rstrip (s : string) : string :=
  match s with
  | EmptyString => EmptyString
  | String c s' =>
      let r := rstrip s' in
      if (Str.is_empty r && Str.is_space c)%bool then EmptyString
      else String c r
  end.

(** [s.strip()]: whitespace removed at both ends. *)
Definition strip (s : string) : string := rstrip (lstrip s).

(** [s.count(c)] for a one-character [c]. *)
Fixpoint count (c : ascii) (s : string) : Z :=
  match s with
  | EmptyString => 0
  | String x s' => (if Ascii.eqb x c then 1 else 0) + count c s'
  end.

End Text.

(** [count_open_parens], the [lambda] of [running_paren_sums]. *)
Definition count_open_parens (line : string) : Z :=
  Text.count "(" line - Text.count ")" line.

(** The loop of [running_paren_sums] over [paren_counts], with its two
    variables. *)
Fixpoint paren_sums_loop (paren_counts : list Z) (rps : list Z) (total : Z)
    : list Z :=
  match paren_counts with
  | [] => rps
  | paren_count :: rest =>
      let total := total + paren_count in
      paren_sums_loop rest (rps ++ [total])%list total
  end.

(** [running_paren_sums(program)] *)
Definition running_paren_sums (program : list string) : list Z :=
  paren_sums_loop (map count_open_parens program) [] 0.

(** What [load] writes while it runs a program: the value handed to
    [print to_string(val)], or the report of [handle_error] for the
    exception caught.  (The text printed for a procedure holds a memory
    address; the value stands for it.) *)
Inductive event : Type :=
| Printed (val : value)
| Failed (e : exn).

(** The [for] loop of [load] over [zip(rps, program)], from the current
    [full_line] and store; [out] is what was written so far.  A form is
    evaluated in the global environment; the first exception ends the loop
    ([break]).  [None] when the recursion budget of an evaluation is
    exhausted. *)
Fixpoint load_loop (fuel : nat) (pairs : list (Z * string)) (full_line : string)
    (st : store) (out : list event) : option (list event * store) :=
  match pairs with
  | [] => Some (out, st)
  | (paren_sum, program_line) :: rest =>
      let program_line := Text.strip program_line in
      let full_line := full_line ++ (program_line ++ " ") in
      if ((paren_sum =? 0) && negb (Str.is_empty (Text.strip full_line)))%bool then
        match parse full_line with
        | Raise e _ => Some ((out ++ [Failed e])%list, st)
        | Diverge => None
        | Ok x _ =>
            match eval fuel x global_env st with
            | Raise e st' => Some ((out ++ [Failed e])%list, st')
            | Diverge => None
            | Ok val st' =>
                let out :=
                  match val with
                  | VNone => out
                  | _ => (out ++ [Printed val])%list
                  end in
                load_loop fuel rest EmptyString st' out
            end
        end
      else load_loop fuel rest full_line st out
  end.

(** The part of [load(filename)] between reading the lines of the file
    and entering the prompt. *)
Definition load_program (fuel : nat) (program : list string) (st : store)
    : option (list event * store) :=
  load_loop fuel (combine (running_paren_sums program) program) EmptyString st [].

(** ** Auxiliary notions used in the statements *)

Definition is_paren (t : string) : bool := ((t =? "(") || (t =? ")"))%string.

(** Words joined by single spaces. *)
Definition join (ws : list string) : string := String.concat " " ws.

Definition starts_quote (w : string) : bool :=
  match Str.first w with
  | Some c => Ascii.eqb c quote_char
  | None => false
  end.

Definition ends_quote (w : string) : bool :=
  match Str.last w with
  | Some c => Ascii.eqb c quote_char
  | None => false
  end.

(** The words of a string that was opened and not closed: a first word
    that begins with a double quote, followed by words none of which ends
    with one. *)
Definition unterminated (ws : list string) : Prop :=
  match ws with
  | [] => True
  | w :: rest =>
      starts_quote w = true /\ forallb (fun m => negb (ends_quote m)) rest = true
  end.

(** The words that make one token: a single word that does not begin
    with a double quote, or the words of a closed string, from a word that
    begins with a double quote to the first later word that ends with
    one. *)
Definition token_group (g : list string) : Prop :=
  (exists w, g = [w] /\ starts_quote w = false)
  \/ (exists w mid c,
        g = (w :: mid ++ [c])%list
        /\ starts_quote w = true
        /\ forallb (fun m => negb (ends_quote m)) mid = true
        /\ ends_quote c = true).

(** A character that can stand inside a token: neither whitespace nor a
    parenthesis. *)
Definition plain_char (c : ascii) : bool :=
  (negb (Str.is_space c) && negb (Ascii.eqb c "(") && negb (Ascii.eqb c ")"))%bool.

(** A text that the tokenizer returns as one token, unchanged. *)
Definition plain_token (s : string) : bool :=
  (negb (Str.is_empty s) && Str.forallb plain_char s && negb (starts_quote s))%bool.

(** An atom whose rendering is one token that [atom] reads back as the
    same atom, equal to itself under [==] (which excludes NaN). *)
Definition readable_atom (a : expr) : Prop :=
  plain_token (to_string a) = true
  /\ atom (to_string a) = a
  /\ py_eq (datum a) (datum a) = true.

(** An expression all of whose atoms are readable. *)
Fixpoint readable (e : expr) : Prop :=
  match e with
  | List xs => fold_right and True (map readable xs)
  | _ => readable_atom e
  end.

(** The tokens of the rendering of an expression. *)
Fixpoint tokens_of (e : expr) : list string :=
  match e with
  | List xs => "(" :: List.concat (map tokens_of xs) ++ [")"]
  | _ => [to_string e]
  end.

(** Induction on expressions, with the hypothesis for every element of a
    list. *)
Fixpoint expr_rect' (P : expr -> Prop)
    (HInt : forall n, P (Int n)) (HFloat : forall x, P (Float x))
    (HSym : forall s, P (Sym s))
    (HList : forall xs, Forall P xs -> P (List xs)) (e : expr) : P e :=
  match e with
  | Int n => HInt n
  | Float x => HFloat x
  | Sym s => HSym s
  | List xs =>
      HList xs
        ((fix all (l : list expr) : Forall P l :=
            match l with
            | [] => Forall_nil P
            | x :: l' =>
                Forall_cons x (expr_rect' P HInt HFloat HSym HList x) (all l')
            end) xs)
  end.

(** The keywords on which [eval] dispatches. *)
Definition special_forms : list string :=
  ["quote"; "q"; "atom?"; "eq?"; "car"; "cdr"; "cons"; "cond"; "null?";
   "if"; "set!"; "define"; "lambda"; "begin"].

Definition is_special (x0 : expr) : bool :=
  existsb (is_sym x0) special_forms.

(** A left fold in the evaluator's monad:
    [left_fold f a [b; c; d] = f (f (f a b) c) d]. *)
Fixpoint left_fold (f : value -> value -> M value) (acc : value)
    (xs : list value) : M value :=
  match xs with
  | [] => ret acc
  | x :: xs' => bind (f acc x) (fun acc' => left_fold f acc' xs')
  end.

(** The store after a new [Env] with dictionary [d] and outer link [o]
    has been created. *)
Definition with_frame (st : store) (d : Dict.t) (o : handle) : store :=
  Store (frames st ++ [Frame d (Some o)]) (next_fid st).

(** The store after the dictionary of frame [env] has received [var]. *)
Definition with_binding (st : store) (env : handle) (var : expr) (v : value)
    : store :=
  match frame_at st env with
  | Some f =>
      Store (put_frame (frames st) env
               (Frame (Dict.set var v (bindings f)) (outer f)))
            (next_fid st)
  | None => st
  end.

(** Walking the outer links from [env], each leading to an older frame:
    [nearest st var env b] when [b] is the first frame on the way that
    binds [var]; [unbound st var env] when the chain ends at a frame
    without outer link and no frame on the way binds [var]. *)
Inductive nearest (st : store) (var : expr) : handle -> handle -> Prop :=
| nearest_here env f :
    frame_at st env = Some f ->
    Dict.mem var (bindings f) = true ->
    nearest st var env env
| nearest_outer env f o b :
    frame_at st env = Some f ->
    Dict.mem var (bindings f) = false ->
    outer f = Some o ->
    (o < env)%nat ->
    nearest st var o b ->
    nearest st var env b.

Inductive unbound (st : store) (var : expr) : handle -> Prop :=
| unbound_root env f :
    frame_at st env = Some f ->
    Dict.mem var (bindings f) = false ->
    outer f = None ->
    unbound st var env
| unbound_outer env f o :
    frame_at st env = Some f ->
    Dict.mem var (bindings f) = false ->
    outer f = Some o ->
    (o < env)%nat ->
    unbound st var o ->
    unbound st var env.

(** The rule of each special form as the design describes it, over an
    evaluator [ev] for the sub-expressions.  No rule looks up the keyword
    itself. *)
Definition special_form (ev : expr -> handle -> M value) (kw : string)
    (args : list expr) (env : handle) : M value :=
  let arity1 (k : expr -> M value) : M value :=
    match args with [exp] => k exp | _ => raise ValueError end in
  let arity2 (k : expr -> expr -> M value) : M value :=
    match args with [e1; e2] => k e1 e2 | _ => raise ValueError end in
  if (kw =? "quote")%string then arity1 (fun exp => ret (datum exp))
  else if (kw =? "q")%string then arity1 (fun exp => ret (datum exp))
  else if (kw =? "atom?")%string then
    arity1 (fun exp => bind (ev exp env) (fun v => ret (VBool (negb (is_list v)))))
  else if (kw =? "eq?")%string then
    arity2 (fun e1 e2 =>
      bind (ev e1 env) (fun v1 =>
      bind (ev e2 env) (fun v2 =>
      ret (VBool (negb (is_list v1) && py_eq v1 v2)))))
  else if (kw =? "car")%string then
    arity1 (fun exp => bind (ev exp env) (fun v => lift (getitem0 v)))
  else if (kw =? "cdr")%string then
    arity1 (fun exp => bind (ev exp env) (fun v => lift (slice1 v)))
  else if (kw =? "cons")%string then
    arity2 (fun e1 e2 =>
      bind (ev e1 env) (fun v1 =>
      bind (ev e2 env) (fun v2 => lift (cons_list v1 v2))))
  else if (kw =? "cond")%string then cond_loop ev args env
  else if (kw =? "null?")%string then
    arity1 (fun exp => bind (ev exp env) (fun v => ret (VBool (py_eq v (VList [])))))
  else if (kw =? "if")%string then
    match args with
    | [test; conseq; alt] =>
        bind (ev test env) (fun t => ev (if truthy t then conseq else alt) env)
    | _ => raise ValueError
    end
  else if (kw =? "set!")%string then
    arity2 (fun var exp =>
      bind (ev exp env) (fun v =>
      bind (find env var) (fun f =>
      bind (setitem f var v) (fun _ => ret VNone))))
  else if (kw =? "define")%string then
    arity2 (fun var exp =>
      bind (ev exp env) (fun v =>
      bind (setitem env var v) (fun _ => ret VNone)))
  else if (kw =? "lambda")%string then
    arity2 (fun vars exp => new_closure vars exp env)
  else begin_loop ev args None env.

(** *** Well-formed stores *)

(** The handles held by a value (the environments of its closures) are
    below [bound]. *)
Fixpoint value_ok (bound : nat) (v : value) : Prop :=
  match v with
  | VClosure _ _ _ env => (env < bound)%nat
  | VList vs => fold_right and True (map (value_ok bound) vs)
  | _ => True
  end.

(** Every outer link leads to an older frame. *)
Definition linked (st : store) : Prop :=
  forall i f o, frame_at st i = Some f -> outer f = Some o -> (o < i)%nat.

(** A store as the evaluator builds it: linked, and every value bound in
    a frame holds handles of existing frames only. *)
Definition store_ok (st : store) : Prop :=
  linked st
  /\ forall i f k v,
       frame_at st i = Some f -> In (k, v) (bindings f) ->
       value_ok (List.length (frames st)) v.

(** [c] keeps the store well formed, from stores of at least [b] frames
    on, and returns values described by [P]. *)
Definition keeps {A : Type} (b : nat) (P : nat -> A -> Prop) (c : M A) : Prop :=
  forall st,
    store_ok st -> (b <= List.length (frames st))%nat ->
    match c st with
    | Ok a st' =>
        store_ok st'
        /\ (List.length (frames st) <= List.length (frames st'))%nat
        /\ P (List.length (frames st')) a
    | Raise _ st' =>
        store_ok st'
        /\ (List.length (frames st) <= List.length (frames st'))%nat
    | Diverge => True
    end.

(** The one-character string made of a double quote. *)
Definition dq : string := String quote_char EmptyString.

(** The float read from [0.30000000000000004]. *)
Definition float_0_30000000000000004 : PyFloat.float :=
  S754_finite false 5404319552844596 (-54).

(** The store after [(define x 10)] at top level and a call frame for a
    procedure of one parameter [y]. *)
Definition example_store : store :=
  with_frame (with_binding initial_store global_env (Sym "x") (VInt 10))
    [(Sym "y", VInt 1)] global_env.

(** The values of the fourteen keywords as ordinary variables, and a list
    headed by each keyword. *)
Definition keyword_samples : list (string * string) :=
  [ ("quote", "(quote a)"); ("q", "(q a)"); ("atom?", "(atom? 1)");
    ("eq?", "(eq? 1 1)"); ("car", "(car (quote (1 2)))");
    ("cdr", "(cdr (quote (1 2)))"); ("cons", "(cons 1 (quote (2)))");
    ("cond", "(cond ((< 2 1) 1) ((< 1 2) 2))"); ("null?", "(null? (quote ()))");
    ("if", "(if (< 1 2) 10 20)"); ("set!", "(set! + 1)");
    ("define", "(define z 1)"); ("lambda", "((lambda (x) x) 7)");
    ("begin", "(begin 1 2)") ].

Definition outcome_value (o : outcome store value) : option value :=
  match o with
  | Ok v _ => Some v
  | _ => None
  end.

Definition outcome_store (st : store) (o : outcome store value) : store :=
  match o with
  | Ok _ s | Raise _ s => s
  | Diverge => st
  end.

(** The global store after [(define kw 5)]. *)
Definition rebound (kw : string) : store :=
  outcome_store initial_store
    (eval 5 (List [Sym "define"; Sym kw; Int 5]) global_env initial_store).

(** Induction on values, with the hypothesis for every element of a
    list. *)
Fixpoint value_rect' (P : value -> Prop)
    (HInt : forall n, P (VInt n)) (HFloat : forall x, P (VFloat x))
    (HStr : forall s, P (VStr s)) (HBool : forall b, P (VBool b))
    (HNone : P VNone)
    (HList : forall vs, Forall P vs -> P (VList vs))
    (HBuiltin : forall op, P (VBuiltin op))
    (HClosure : forall f vars exp env, P (VClosure f vars exp env))
    (v : value) : P v :=
  match v with
  | VInt n => HInt n
  | VFloat x => HFloat x
  | VStr s => HStr s
  | VBool b => HBool b
  | VNone => HNone
  | VList vs =>
      HList vs
        ((fix all (l : list value) : Forall P l :=
            match l with
            | [] => Forall_nil P
            | x :: l' =>
                Forall_cons x
                  (value_rect' P HInt HFloat HStr HBool HNone HList HBuiltin
                     HClosure x) (all l')
            end) vs)
  | VBuiltin op => HBuiltin op
  | VClosure f vars exp env => HClosure f vars exp env
  end.

(** Lines run one after the other at the prompt, on the same store. *)
Fixpoint run_lines (fuel : nat) (lines : list string) (st : store)
    : list (option value) * store :=
  match lines with
  | [] => ([], st)
  | line :: rest =>
      let o := run fuel line st in
      let (vs, st') := run_lines fuel rest (outcome_store st o) in
      (outcome_value o :: vs, st')
  end.

(** *** Notions used for the reader and the tokenizer *)

(** Opening minus closing parentheses among tokens. *)
Fixpoint depth (tokens : list string) : Z :=
  match tokens with
  | [] => 0
  | t :: ts =>
      (if (t =? "(")%string then 1 else if (t =? ")")%string then -1 else 0)
      + depth ts
  end.

(** A run of tokens that holds one expression: not empty, as many closing
    as opening parentheses, and more opening than closing ones in every
    proper prefix that is not empty. *)
Definition one_form (pre : list string) : Prop :=
  pre <> []
  /\ depth pre = 0
  /\ forall p q : list string,
       pre = (p ++ q)%list -> p <> [] -> q <> [] -> 0 < depth p.

Definition no_quote (c : ascii) : bool := negb (Ascii.eqb c quote_char).

(** A token of input without double quotes: a parenthesis, or a word. *)
Definition paren_or_word (t : string) : Prop :=
  t = "(" \/ t = ")"
  \/ (t <> EmptyString /\ Str.forallb plain_char t = true).

(** Every prefix that is not empty has more opening than closing
    parentheses, [acc] being the excess before the tokens. *)
Fixpoint prefixes_open (acc : Z) (tokens : list string) : bool :=
  match tokens with
  | [] => true
  | t :: ts =>
      let d := acc + depth [t] in
      ((0 <? d) && prefixes_open d ts)%bool
  end.

(** *** Notions used for the evaluator *)

(** The special forms that unpack a fixed number of operands. *)
Definition fixed_arity : list (string * nat) :=
  [ ("quote", 1); ("q", 1); ("atom?", 1); ("eq?", 2); ("car", 1);
    ("cdr", 1); ("cons", 2); ("null?", 1); ("if", 3); ("set!", 2);
    ("define", 2); ("lambda", 2) ]%nat.

Definition is_procedure (v : value) : bool :=
  match v with
  | VBuiltin _ | VClosure _ _ _ _ => true
  | _ => false
  end.

(** The built-in procedures for which one argument [x] means [0 op x]. *)
Definition is_sign (op : builtin) : bool :=
  match op with
  | OpAdd | OpSub => true
  | _ => false
  end.

(** The integer operations of [+], [-] and [*]. *)
Definition integer_ops : list (builtin * (Z -> Z -> Z)) :=
  [ (OpAdd, Z.add); (OpSub, Z.sub); (OpMul, Z.mul) ].

(** The clauses [cs] of a [cond] all have predicates that evaluate to
    false values, each in the store left by the one before: from [st] they
    lead to [st']. *)
Fixpoint falsy_clauses (n : nat) (env : handle) (st : store) (cs : list expr)
    (st' : store) : Prop :=
  match cs with
  | [] => st' = st
  | c :: rest =>
      exists p e t st1,
        unpack2 c = Return (p, e)
        /\ eval n p env st = Ok t st1
        /\ truthy t = false
        /\ falsy_clauses n env st1 rest st'
  end.

(** [st'] has every frame of [st], with the same outer link and at least
    the same symbols bound, and has made at least as many closures. *)
Definition grows (st st' : store) : Prop :=
  (next_fid st <= next_fid st')%nat
  /\ forall i f,
       frame_at st i = Some f ->
       exists f',
         frame_at st' i = Some f'
         /\ outer f' = outer f
         /\ forall k, Dict.mem k (bindings f) = true ->
                      Dict.mem k (bindings f') = true.

(** Whatever [c] does, the store only grows. *)
Definition steady {A : Type} (c : M A) : Prop :=
  forall st,
    match c st with
    | Ok _ st' | Raise _ st' => grows st st'
    | Diverge => True
    end.

(** *** Notions used for [load] *)

(** The text accumulated by [load] from a run of lines: each line
    stripped and followed by one space. *)
Definition joined (lines : list string) : string :=
  String.concat EmptyString (map (fun l => Text.strip l ++ " ") lines).

(** What [load] writes for a value: nothing for [None]. *)
Definition printed (val : value) : list event :=
  match val with
  | VNone => []
  | _ => [Printed val]
  end.

(** [out] written before what a run of [load] writes. *)
Definition after (out : list event) (r : option (list event * store))
    : option (list event * store) :=
  match r with
  | Some (o, st) => Some ((out ++ o)%list, st)
  | None => None
  end.

(** [c'] gives the outcome of [c] wherever [c] has one. *)
Definition refines {A : Type} (c c' : M A) : Prop :=
  forall st, c st <> Diverge -> c' st = c st.

(** The comparisons of [>], [<], [>=], [<=] and [=] on integers. *)
Definition comparison_ops : list (builtin * (Z -> Z -> bool)) :=
  [ (OpGt, Z.gtb); (OpLt, Z.ltb); (OpGe, Z.geb); (OpLe, Z.leb); (OpEq, Z.eqb) ].

(** A boolean as the integer it is in arithmetic and comparisons. *)
Definition truth_number (b : bool) : Z := if b then 1 else 0.

(** * Properties *)

Local Open Scope list_scope.

(** ** Reader: termination and independence of the budget *)

(** The outcome does not change once the budget suffices. *)
Lemma read_fuel_mono :
  forall n,
    (forall m tokens, (n <= m)%nat ->
       read_from_fuel n tokens <> Diverge ->
       read_from_fuel m tokens = read_from_fuel n tokens) /\
    (forall m L tokens, (n <= m)%nat ->
       read_rest n L tokens <> Diverge ->
       read_rest m L tokens = read_rest n L tokens).
Proof.
  induction n as [|n [IHf IHr]]; split; intros; simpl in *;
    try congruence.
  - destruct m as [|m]; [lia|]. simpl.
    destruct tokens as [|t ts]; [reflexivity|].
    destruct (t =? "(")%string; [apply IHr; [lia|assumption]|reflexivity].
  - destruct m as [|m]; [lia|]. simpl.
    destruct tokens as [|t ts]; [reflexivity|].
    destruct (negb (t =? ")")%string); [|reflexivity].
    rewrite (IHf m) by (try lia; destruct (read_from_fuel n (t :: ts)); congruence).
    destruct (read_from_fuel n (t :: ts)); try reflexivity.
    apply IHr; [lia|assumption].
Qed.

(** A successful read leaves strictly fewer tokens. *)
Lemma read_consumes :
  forall n,
    (forall tokens e rest, read_from_fuel n tokens = Ok e rest ->
       (List.length rest < List.length tokens)%nat) /\
    (forall L tokens e rest, read_rest n L tokens = Ok e rest ->
       (List.length rest < List.length tokens)%nat).
Proof.
  induction n as [|n [IHf IHr]]; split; intros; simpl in *;
    try discriminate.
  - destruct tokens as [|t ts]; [discriminate|].
    destruct (t =? "(")%string.
    + apply IHr in H. simpl. lia.
    + destruct (t =? ")")%string; [discriminate|].
      injection H as _ <-. simpl. lia.
  - destruct tokens as [|t ts]; [discriminate|].
    destruct (negb (t =? ")")%string).
    + destruct (read_from_fuel n (t :: ts)) as [e1 ts1| |] eqn:E; try discriminate.
      apply IHf in E. apply IHr in H. lia.
    + injection H as _ <-. simpl. lia.
Qed.

Lemma read_settles :
  forall n,
    (forall tokens, (2 * List.length tokens + 1 <= n)%nat ->
       read_from_fuel n tokens <> Diverge) /\
    (forall L tokens, (2 * List.length tokens + 2 <= n)%nat ->
       read_rest n L tokens <> Diverge).
Proof.
  induction n as [|n [IHf IHr]]; split; intros; try lia; simpl.
  - destruct tokens as [|t ts]; [discriminate|].
    destruct (t =? "(")%string.
    + apply IHr. simpl in H. lia.
    + destruct (t =? ")")%string; discriminate.
  - destruct tokens as [|t ts]; [discriminate|].
    destruct (negb (t =? ")")%string); [|discriminate].
    assert (Hs : read_from_fuel n (t :: ts) <> Diverge)
      by (apply IHf; simpl in *; lia).
    destruct (read_from_fuel n (t :: ts)) as [e1 ts1| |] eqn:E;
      try congruence.
    apply IHr. apply (proj1 (read_consumes n)) in E. simpl in *. lia.
Qed.

(** [read_from] always returns or raises. *)
Lemma read_from_total (tokens : list string) : read_from tokens <> Diverge.
Proof.
  unfold read_from. apply (proj1 (read_settles _)). lia.
Qed.

(** Any budget that settles the reader gives the outcome of [read_from]. *)
Lemma read_from_any_fuel (n : nat) (tokens : list string) :
  read_from_fuel n tokens <> Diverge ->
  read_from tokens = read_from_fuel n tokens.
Proof.
  intros H. unfold read_from.
  destruct (Nat.le_ge_cases n (2 * List.length tokens + 2)) as [L|L].
  - apply (proj1 (read_fuel_mono n)); assumption.
  - symmetry. apply (proj1 (read_fuel_mono _)); [assumption|].
    apply (read_from_total tokens).
Qed.

(** The empty sequence at the initial call is a syntax error. *)
Lemma read_from_empty : read_from [] = Raise (SyntaxError msg_eof) [].
Proof. reflexivity. Qed.

(** A stray closing parenthesis is a syntax error. *)
Lemma read_from_close (tokens : list string) :
  read_from (")" :: tokens) = Raise (SyntaxError msg_close) tokens.
Proof. reflexivity. Qed.

(** Inside a list, running out of tokens is met by the test of the
    [while] loop, [tokens[0]], before [read_from] is called again. *)
Lemma read_rest_exhausted (ts : list string) :
  forallb (fun t => negb (is_paren t)) ts = true ->
  forall n L, (List.length ts < n)%nat -> read_rest n L ts = Raise IndexError [].
Proof.
  induction ts as [|t ts IH]; intros Hts n L Hn.
  - destruct n; [lia|reflexivity].
  - simpl in Hts. apply andb_true_iff in Hts as [Ht Hts].
    unfold is_paren in Ht. apply negb_true_iff, orb_false_iff in Ht as [Ho Hc].
    destruct n as [|[|n]]; try (simpl in Hn; lia).
    change (read_rest (S (S n)) L (t :: ts))
      with (if negb (t =? ")")%string
            then match read_from_fuel (S n) (t :: ts) with
                 | Ok e tokens1 => read_rest (S n) (L ++ [e]) tokens1
                 | Raise e s => Raise e s
                 | Diverge => Diverge
                 end
            else Ok (List L) ts).
    rewrite Hc. cbn [negb].
    change (read_from_fuel (S n) (t :: ts))
      with (if (t =? "(")%string then read_rest n [] ts
            else if (t =? ")")%string then Raise (SyntaxError msg_close) ts
            else Ok (atom t) ts).
    rewrite Ho, Hc.
    apply IH; [assumption|simpl in Hn; lia].
Qed.

Lemma read_from_unclosed (ts : list string) :
  forallb (fun t => negb (is_paren t)) ts = true ->
  read_from ("(" :: ts) = Raise IndexError [].
Proof.
  intros H. unfold read_from. simpl.
  apply read_rest_exhausted; [assumption|]. lia.
Qed.

(** C4. At the initial call an empty token sequence raises the syntax error
    for an unexpected end of input, but inside a list whose closing
    parenthesis has not appeared the reader raises [IndexError]: the tokens
    of [(+ 1] are such a sequence. *)
Theorem read_from_open_list_index_error :
  read_from [] = Raise (SyntaxError msg_eof) [] /\
  read_from ["("; "+"; "1"] = Raise IndexError [] /\
  parse "(+ 1" = Raise IndexError [].
Proof. repeat split; reflexivity. Qed.

(** ** Tokenizer *)

Lemma append_assoc (a b c : string) : ((a ++ b) ++ c)%string = (a ++ (b ++ c))%string.
Proof. induction a; simpl; congruence. Qed.

Lemma append_empty_r (a : string) : (a ++ EmptyString)%string = a.
Proof. induction a; simpl; congruence. Qed.

Lemma replace_app (c : ascii) (r a b : string) :
  Str.replace c r (a ++ b) = (Str.replace c r a ++ Str.replace c r b)%string.
Proof.
  induction a as [|x a IH]; simpl; [reflexivity|].
  rewrite IH, append_assoc. reflexivity.
Qed.

(** The two replacements of [tokenize] can be made in either order. *)
Lemma pad_commute (s : string) :
  Str.replace ")" " ) " (Str.replace "(" " ( " s)
  = Str.replace "(" " ( " (Str.replace ")" " ) " s).
Proof.
  induction s as [|c s IH]; [reflexivity|].
  simpl. rewrite !replace_app, IH.
  destruct (Ascii.eqb c "(") eqn:E1; destruct (Ascii.eqb c ")") eqn:E2.
  - apply Ascii.eqb_eq in E1, E2. congruence.
  - apply Ascii.eqb_eq in E1. subst c. reflexivity.
  - apply Ascii.eqb_eq in E2. subst c. reflexivity.
  - simpl. rewrite E1, E2. reflexivity.
Qed.

Lemma first_none (w : string) : Str.first w = None -> w = EmptyString.
Proof. destruct w; simpl; congruence. Qed.

Lemma last_none (w : string) : Str.last w = None -> w = EmptyString.
Proof.
  induction w as [|c w IH]; [reflexivity|].
  simpl. destruct w; [discriminate|]. intros H. apply IH in H. discriminate.
Qed.

(** The words produced by [split] are not empty. *)
Lemma split_from_nonempty (s cur : string) :
  Forall (fun w => w <> EmptyString) (Str.split_from cur s).
Proof.
  revert cur. induction s as [|c s IH]; intros cur; simpl.
  - unfold Str.emit. destruct cur; simpl; constructor; [discriminate|constructor].
  - destruct (Str.is_space c).
    + apply Forall_app. split; [|apply IH].
      unfold Str.emit. destruct cur; simpl; constructor; [discriminate|constructor].
    + apply IH.
Qed.

Lemma split_nonempty (s : string) : Forall (fun w => w <> EmptyString) (Str.split s).
Proof. apply split_from_nonempty. Qed.

Lemma join_snoc (p : string) (ps : list string) (t : string) :
  join ((p :: ps) ++ [t]) = (join (p :: ps) ++ " " ++ t)%string.
Proof.
  unfold join. revert p. induction ps as [|q ps IH]; intros p.
  - reflexivity.
  - change (String.concat " " ((p :: q :: ps) ++ [t]))
      with (p ++ " " ++ String.concat " " ((q :: ps) ++ [t]))%string.
    rewrite IH.
    change (String.concat " " (p :: q :: ps))
      with (p ++ " " ++ String.concat " " (q :: ps))%string.
    rewrite !append_assoc. reflexivity.
Qed.

(** While a string is open, words that do not end with a double quote
    are appended to it, each after one space. *)
Lemma scan_accumulate (mid : list string) :
  forall l result p ps,
    Forall (fun w => w <> EmptyString) mid ->
    forallb (fun m => negb (ends_quote m)) mid = true ->
    scan (mid ++ l) result (join (p :: ps)) true
    = scan l result (join ((p :: ps) ++ mid)) true.
Proof.
  induction mid as [|m mid IH]; intros l result p ps Hw Hm.
  - rewrite List.app_nil_r. reflexivity.
  - inversion Hw as [|? ? Hm0 Hw']; subst.
    simpl in Hm. apply andb_true_iff in Hm as [Hq Hm].
    cbn [app scan]. unfold ends_quote in Hq.
    destruct (Str.last m) as [c|] eqn:El.
    + apply negb_true_iff in Hq. rewrite Hq.
      rewrite <- join_snoc.
      change ((p :: ps) ++ [m])%list with (p :: (ps ++ [m]))%list.
      rewrite IH by assumption.
      cbn [app]. rewrite <- List.app_assoc. reflexivity.
    + apply last_none in El. contradiction.
Qed.

(** The word that ends with a double quote closes the string: the
    accumulated text becomes one token. *)
Lemma scan_close (c : string) (post result : list string) (p : string)
    (ps : list string) :
  ends_quote c = true ->
  scan (c :: post) result (join (p :: ps)) true
  = scan post (result ++ [join ((p :: ps) ++ [c])]) EmptyString false.
Proof.
  intros Hc. cbn [scan]. unfold ends_quote in Hc.
  destruct (Str.last c); [|discriminate].
  rewrite Hc, <- join_snoc. reflexivity.
Qed.

(** The tokens returned are the space-joined groups of consecutive
    words, in order; the words left out are those of an unterminated
    string.  The two parts are the two modes of the loop. *)
Lemma scan_groups (ws : list string) :
  Forall (fun w => w <> EmptyString) ws ->
  (forall result sf,
      exists groups dropped,
        scan ws result sf false = Return (result ++ map join groups)
        /\ ws = (List.concat groups ++ dropped)%list
        /\ Forall token_group groups
        /\ unterminated dropped) /\
  (forall result p ps,
      starts_quote p = true ->
      forallb (fun m => negb (ends_quote m)) ps = true ->
      exists groups dropped,
        scan ws result (join (p :: ps)) true = Return (result ++ map join groups)
        /\ ((p :: ps) ++ ws = List.concat groups ++ dropped)%list
        /\ Forall token_group groups
        /\ unterminated dropped).
Proof.
  induction ws as [|t ws IH]; intros Hw.
  - split.
    + intros result sf. exists [], []. simpl. rewrite List.app_nil_r.
      repeat split; constructor.
    + intros result p ps Hp Hps. exists [], (p :: ps). simpl.
      rewrite !List.app_nil_r. repeat split; try constructor; assumption.
  - inversion Hw as [|? ? Ht Hw']; subst.
    destruct (IH Hw') as [IHc IHo]. split.
    + intros result sf. cbn [scan].
      destruct (Str.first t) as [c|] eqn:Ef;
        [|apply first_none in Ef; contradiction].
      destruct (Ascii.eqb c quote_char) eqn:Eq.
      * destruct (IHo result t []) as (groups & dropped & H1 & H2 & H3 & H4).
        { unfold starts_quote. rewrite Ef. exact Eq. }
        { reflexivity. }
        exists groups, dropped. repeat split; assumption.
      * destruct (IHc (result ++ [t]) sf) as (groups & dropped & H1 & H2 & H3 & H4).
        exists ([t] :: groups), dropped. split; [|split; [|split]].
        -- rewrite H1, <- List.app_assoc. reflexivity.
        -- simpl. rewrite H2. reflexivity.
        -- constructor; [|assumption].
           left. exists t. split; [reflexivity|].
           unfold starts_quote. rewrite Ef. exact Eq.
        -- assumption.
    + intros result p ps Hp Hps.
      destruct (ends_quote t) eqn:Eq.
      * rewrite scan_close by assumption.
        destruct (IHc (result ++ [join ((p :: ps) ++ [t])]) EmptyString)
          as (groups & dropped & H1 & H2 & H3 & H4).
        exists (((p :: ps) ++ [t])%list :: groups), dropped.
        split; [|split; [|split]].
        -- rewrite H1, <- List.app_assoc. reflexivity.
        -- cbn [List.concat map]. rewrite H2, <- !List.app_assoc. reflexivity.
        -- constructor; [|assumption].
           right. exists p, ps, t. repeat split; assumption.
        -- assumption.
      * change (t :: ws) with ([t] ++ ws)%list.
        rewrite scan_accumulate;
          [|constructor; [assumption|constructor]|simpl; rewrite Eq; reflexivity].
        change ((p :: ps) ++ [t])%list with (p :: (ps ++ [t]))%list.
        destruct (IHo result p (ps ++ [t])%list) as (groups & dropped & H1 & H2 & H3 & H4).
        { assumption. }
        { rewrite forallb_app, Hps. simpl. rewrite Eq. reflexivity. }
        exists groups, dropped. repeat split; try assumption.
        rewrite <- H2. cbn [app]. rewrite <- List.app_assoc. reflexivity.
Qed.

(** Outside a string the text accumulated so far is not read. *)
Lemma scan_normal_mode (l : list string) :
  forall result sf sf',
    scan l result sf false = scan l result sf' false.
Proof.
  induction l as [|t l IH]; intros result sf sf'; [reflexivity|].
  cbn [scan]. destruct (Str.first t) as [c|]; [|reflexivity].
  destruct (Ascii.eqb c quote_char); [reflexivity|apply IH].
Qed.

(** The loop, in its normal mode, turns the words of token groups into
    their tokens and is in its normal mode again after them. *)
Lemma scan_token_groups (groups : list (list string)) :
  Forall token_group groups ->
  Forall (fun w => w <> EmptyString) (List.concat groups) ->
  forall post result sf,
    scan (List.concat groups ++ post) result sf false
    = scan post (result ++ map join groups) sf false.
Proof.
  induction groups as [|g groups IH]; intros Hg Hne post result sf.
  - simpl. rewrite List.app_nil_r. reflexivity.
  - inversion Hg as [|? ? Hg1 Hg']; subst.
    cbn [List.concat] in Hne. apply Forall_app in Hne as [Hne1 Hne'].
    cbn [List.concat map]. rewrite <- List.app_assoc.
    destruct Hg1 as [(w & -> & Hw)|(w & mid & c & -> & Hw & Hmid & Hc)].
    + inversion Hne1 as [|? ? Hw0 _]; subst.
      cbn [app scan]. unfold starts_quote in Hw.
      destruct (Str.first w) eqn:Ef; [|apply first_none in Ef; contradiction].
      rewrite Hw, IH by assumption.
      rewrite <- List.app_assoc. reflexivity.
    + inversion Hne1 as [|? ? Hw0 Hne2]; subst.
      apply Forall_app in Hne2 as [Hm _].
      cbn [app scan]. unfold starts_quote in Hw.
      destruct (Str.first w) eqn:Ef; [|discriminate].
      rewrite Hw. change w with (join [w]) at 1.
      rewrite <- List.app_assoc, scan_accumulate by assumption.
      cbn [app]. rewrite scan_close by assumption.
      rewrite (scan_normal_mode _ _ EmptyString sf), IH by assumption.
      cbn [app]. rewrite <- List.app_assoc. reflexivity.
Qed.

(** C5, as the code has it. [tokenize] never fails, and its tokens are in
    source order: the words of the padded input fall into consecutive
    groups, each a single word that does not begin with a double quote or
    the words of a closed string (from a word that begins with a double
    quote to the first later word that ends with one), followed by the
    words of a string that is opened and never closed, if there is one;
    the tokens are the groups, each joined by single spaces, and nothing
    else.  So whenever the words after some groups are those of a string
    that is opened and never closed, these words are left out: the tokens
    are the ones before them only. *)
Theorem tokenize_total_in_order (s : string) :
  (exists groups dropped,
      tokenize s = Return (map join groups)
      /\ Str.split (pad s) = (List.concat groups ++ dropped)%list
      /\ Forall token_group groups
      /\ unterminated dropped)
  /\ (forall groups w rest,
        Str.split (pad s) = (List.concat groups ++ w :: rest)%list ->
        Forall token_group groups ->
        starts_quote w = true ->
        forallb (fun m => negb (ends_quote m)) rest = true ->
        tokenize s = Return (map join groups)).
Proof.
  split.
  - destruct (scan_groups (Str.split (pad s)) (split_nonempty _)) as [H _].
    destruct (H [] EmptyString) as (groups & dropped & H1 & H2 & H3 & H4).
    exists groups, dropped. repeat split; assumption.
  - intros groups w rest Hs Hg Hw Hrest.
    assert (Hne : Forall (fun w => w <> EmptyString)
                    (List.concat groups ++ w :: rest))
      by (rewrite <- Hs; apply split_nonempty).
    apply Forall_app in Hne as [Hne1 Hne2].
    inversion Hne2 as [|? ? _ Hne3]; subst.
    unfold tokenize. rewrite Hs, scan_token_groups by assumption.
    cbn [app scan]. unfold starts_quote in Hw.
    destruct (Str.first w); [|discriminate]. rewrite Hw.
    change w with (join [w]).
    rewrite <- (List.app_nil_r rest), scan_accumulate by assumption.
    reflexivity.
Qed.

(** C5, counterexample: in the input made of an opening parenthesis, [a],
    and a string (double quote, [b c]) that is opened and never closed, the
    tokens returned are the parenthesis and [a] only; no token carries the
    text of the string. *)
Lemma tokenize_drops_unterminated :
  tokenize ("(a " ++ dq ++ "b c")%string = Return ["("; "a"]
  /\ ~ exists t, In t ["("; "a"] /\ starts_quote t = true.
Proof.
  split; [reflexivity|].
  intros (t & [<-|[<-|[]]] & H); discriminate.
Qed.

(** C10. When the loop is in its normal mode (after the words [pre], with
    the tokens [res] produced so far) and reads a word [w] that both begins
    and ends with a double quote, it opens a string: the following words
    are appended, each after one space, up to the first later word that
    ends with a double quote, and the whole is one token; when no later
    word ends with a double quote nothing from [w] on is returned. *)
Theorem tokenize_single_word_literal (s : string) (pre : list string)
    (w : string) (rest res : list string) :
  Str.split (pad s) = (pre ++ w :: rest)%list ->
  (forall post, scan (pre ++ post) [] EmptyString false
                = scan post res EmptyString false) ->
  starts_quote w = true ->
  ends_quote w = true ->
  (forall mid c post,
      rest = (mid ++ c :: post)%list ->
      forallb (fun m => negb (ends_quote m)) mid = true ->
      ends_quote c = true ->
      tokenize s = scan post (res ++ [join (w :: mid ++ [c])]) EmptyString false)
  /\ (forallb (fun m => negb (ends_quote m)) rest = true ->
      tokenize s = Return res).
Proof.
  intros Hs Hpre Hw _.
  assert (Hne : Forall (fun w => w <> EmptyString) (pre ++ w :: rest))
    by (rewrite <- Hs; apply split_nonempty).
  apply Forall_app in Hne as [_ Hne].
  inversion Hne as [|? ? _ Hrest]; subst.
  assert (Hin : tokenize s = scan rest res (join [w]) true).
  { unfold tokenize. rewrite Hs, Hpre. cbn [scan].
    unfold starts_quote in Hw.
    destruct (Str.first w); [|discriminate]. rewrite Hw. reflexivity. }
  split.
  - intros mid c post -> Hmid Hc.
    apply Forall_app in Hrest as [Hm _].
    rewrite Hin, scan_accumulate by assumption.
    cbn [app]. rewrite scan_close by assumption.
    reflexivity.
  - intros Hall. rewrite Hin.
    rewrite <- (List.app_nil_r rest), scan_accumulate by assumption.
    reflexivity.
Qed.

(** A run of words none of which begins with a double quote leaves the
    loop in its normal mode, with those words as tokens. *)
Lemma scan_plain (pre : list string) :
  Forall (fun w => w <> EmptyString) pre ->
  forallb (fun w => negb (starts_quote w)) pre = true ->
  forall post result sf,
    scan (pre ++ post) result sf false = scan post (result ++ pre) sf false.
Proof.
  induction pre as [|t pre IH]; intros Hne Hq post result sf.
  - rewrite List.app_nil_r. reflexivity.
  - inversion Hne as [|? ? Ht Hne']; subst.
    simpl in Hq. apply andb_true_iff in Hq as [Hq Hq'].
    cbn [app scan]. unfold starts_quote in Hq.
    destruct (Str.first t) eqn:Ef; [|apply first_none in Ef; contradiction].
    apply negb_true_iff in Hq. rewrite Hq, IH by assumption.
    rewrite <- List.app_assoc. reflexivity.
Qed.

Lemma tokenize_single_word_literal_witness :
  let s := ("(a " ++ dq ++ "hi" ++ dq ++ " b c" ++ dq ++ " d)")%string in
  let w := (dq ++ "hi" ++ dq)%string in
  tokenize s = Return ["("; "a"; (w ++ " b c" ++ dq)%string; "d"; ")"].
Proof.
  intros s w.
  destruct (tokenize_single_word_literal s ["("; "a"] w
              ["b"; ("c" ++ dq)%string; "d"; ")"] ["("; "a"]) as [H _].
  - reflexivity.
  - intros post. reflexivity.
  - reflexivity.
  - reflexivity.
  - rewrite (H ["b"] ("c" ++ dq)%string ["d"; ")"]); reflexivity.
Defined.

(** ** Rendering and reading back *)

Lemma readable_list (xs : list expr) : readable (List xs) <-> Forall readable xs.
Proof.
  simpl. induction xs as [|x xs IH]; simpl.
  - split; [constructor|trivial].
  - split.
    + intros [Hx Hxs]. constructor; [assumption|apply IH; assumption].
    + intros H. inversion H; subst. split; [assumption|apply IH; assumption].
Qed.

(** *** Words and separators *)

Lemma split_from_sep (sp : ascii) (a b cur : string) :
  Str.is_space sp = true ->
  Str.split_from cur (a ++ String sp b) = Str.split_from cur a ++ Str.split b.
Proof.
  intros Hsp. revert cur. induction a as [|c a IH]; intros cur; simpl.
  - rewrite Hsp. reflexivity.
  - destruct (Str.is_space c).
    + rewrite IH, List.app_assoc. reflexivity.
    + apply IH.
Qed.

Lemma split_app_space (a b : string) :
  Str.split (a ++ " " ++ b) = Str.split a ++ Str.split b.
Proof. unfold Str.split at 1 2. apply split_from_sep. reflexivity. Qed.

Lemma split_from_plain (s cur : string) :
  Str.forallb plain_char s = true ->
  Str.split_from cur s = Str.emit (cur ++ s).
Proof.
  revert cur. induction s as [|c s IH]; intros cur H; simpl.
  - rewrite append_empty_r. reflexivity.
  - simpl in H. apply andb_true_iff in H as [Hc Hs].
    unfold plain_char in Hc.
    apply andb_true_iff in Hc as [Hc _]. apply andb_true_iff in Hc as [Hc _].
    apply negb_true_iff in Hc. rewrite Hc, IH by assumption.
    rewrite append_assoc. reflexivity.
Qed.

Lemma split_plain (s : string) :
  plain_token s = true -> Str.split s = [s].
Proof.
  unfold plain_token. intros H.
  apply andb_true_iff in H as [H _]. apply andb_true_iff in H as [Hne Hp].
  unfold Str.split. rewrite split_from_plain by assumption. simpl.
  unfold Str.emit. destruct s; [discriminate|reflexivity].
Qed.

Lemma replace_plain (c : ascii) (r s : string) :
  Str.forallb (fun x => negb (Ascii.eqb x c)) s = true -> Str.replace c r s = s.
Proof.
  induction s as [|x s IH]; simpl; [reflexivity|].
  intros H. apply andb_true_iff in H as [Hx Hs].
  apply negb_true_iff in Hx. rewrite Hx, IH by assumption. reflexivity.
Qed.

Lemma forallb_weaken (p q : ascii -> bool) (s : string) :
  (forall c, p c = true -> q c = true) ->
  Str.forallb p s = true -> Str.forallb q s = true.
Proof.
  intros Hpq. induction s as [|c s IH]; simpl; [reflexivity|].
  intros H. apply andb_true_iff in H as [Hc Hs].
  rewrite (Hpq _ Hc), IH by assumption. reflexivity.
Qed.

Lemma pad_plain (s : string) : Str.forallb plain_char s = true -> pad s = s.
Proof.
  intros H. unfold pad.
  rewrite (replace_plain "(").
  - apply replace_plain. revert H. apply forallb_weaken.
    intros c Hc. unfold plain_char in Hc.
    apply andb_true_iff in Hc as [_ Hc]. exact Hc.
  - revert H. apply forallb_weaken.
    intros c Hc. unfold plain_char in Hc.
    apply andb_true_iff in Hc as [Hc _]. apply andb_true_iff in Hc as [_ Hc].
    exact Hc.
Qed.

Lemma pad_app (a b : string) : pad (a ++ b) = (pad a ++ pad b)%string.
Proof. unfold pad. rewrite !replace_app. reflexivity. Qed.

Lemma pad_join (l : list string) :
  pad (String.concat " " l) = String.concat " " (map pad l).
Proof.
  induction l as [|x l IH]; [reflexivity|].
  destruct l as [|y l]; [reflexivity|].
  change (String.concat " " (x :: y :: l))
    with (x ++ " " ++ String.concat " " (y :: l))%string.
  rewrite !pad_app, IH. reflexivity.
Qed.

Lemma split_join (l : list string) :
  Str.split (String.concat " " l) = List.concat (map Str.split l).
Proof.
  induction l as [|x l IH]; [reflexivity|].
  destruct l as [|y l].
  - simpl. rewrite List.app_nil_r. reflexivity.
  - change (String.concat " " (x :: y :: l))
      with (x ++ " " ++ String.concat " " (y :: l))%string.
    rewrite split_app_space, IH. reflexivity.
Qed.

(** *** The words of a rendering are the tokens of the expression *)

Lemma split_pad_list (l : list string) :
  Str.split (pad ("(" ++ String.concat " " l ++ ")"))
  = "(" :: List.concat (map (fun s => Str.split (pad s)) l) ++ [")"].
Proof.
  rewrite !pad_app, pad_join.
  change (pad "(") with (" " ++ "(" ++ " ")%string.
  change (pad ")") with (" " ++ ")" ++ " ")%string.
  set (X := String.concat " " (map pad l)).
  change ((" " ++ "(" ++ " ") ++ X ++ " " ++ ")" ++ " ")%string
    with (String " " ("(" ++ " " ++ (X ++ " " ++ ")" ++ " ")))%string.
  change (Str.split (String " " ("(" ++ " " ++ (X ++ " " ++ ")" ++ " "))))%string
    with (Str.split ("(" ++ " " ++ (X ++ " " ++ ")" ++ " "))%string).
  rewrite !split_app_space. unfold X. rewrite split_join, map_map.
  reflexivity.
Qed.

Lemma words_of_rendering (e : expr) :
  readable e -> Str.split (pad (to_string e)) = tokens_of e.
Proof.
  induction e as [n|x|s|xs IH] using expr_rect'; intros H;
    try (destruct H as (Hp & _);
         pose proof Hp as Hp'; unfold plain_token in Hp';
         apply andb_true_iff in Hp' as [Hp' _];
         apply andb_true_iff in Hp' as [_ Hp'];
         rewrite pad_plain by assumption;
         apply split_plain; assumption).
  apply readable_list in H.
  cbn [to_string tokens_of]. rewrite split_pad_list, map_map.
  do 2 f_equal.
  induction xs as [|x xs IHxs]; [reflexivity|].
  inversion IH; inversion H; subst. simpl. f_equal; auto.
Qed.

Lemma tokens_plain (e : expr) :
  readable e ->
  Forall (fun w => w <> EmptyString) (tokens_of e)
  /\ forallb (fun w => negb (starts_quote w)) (tokens_of e) = true.
Proof.
  induction e as [n|x|s|xs IH] using expr_rect'; intros H;
    try (destruct H as (Hp & _); unfold plain_token in Hp;
         apply andb_true_iff in Hp as [Hp Hq];
         apply andb_true_iff in Hp as [Hne _];
         cbn [tokens_of forallb]; rewrite Hq; split; [|reflexivity];
         constructor; [|constructor];
         intros E; rewrite E in Hne; discriminate).
  apply readable_list in H. cbn [tokens_of].
  assert (Hall : Forall (fun w => w <> EmptyString) (List.concat (map tokens_of xs))
                 /\ forallb (fun w => negb (starts_quote w))
                      (List.concat (map tokens_of xs)) = true).
  { induction xs as [|x xs IHxs]; [split; [constructor|reflexivity]|].
    inversion IH; inversion H; subst. simpl.
    destruct IHxs as [I1 I2]; try assumption.
    destruct (H2 H6) as [J1 J2].
    split; [apply Forall_app; split; assumption|].
    rewrite forallb_app, J2, I2. reflexivity. }
  destruct Hall as [A1 A2]. split.
  - constructor; [discriminate|]. apply Forall_app. split; [assumption|].
    constructor; [discriminate|constructor].
  - cbn [forallb]. rewrite forallb_app, A2. reflexivity.
Qed.

Lemma tokenize_rendering (e : expr) :
  readable e -> tokenize (to_string e) = Return (tokens_of e).
Proof.
  intros H. unfold tokenize. rewrite words_of_rendering by assumption.
  destruct (tokens_plain e H) as [H1 H2].
  rewrite <- (List.app_nil_r (tokens_of e)) at 1.
  rewrite scan_plain by assumption. reflexivity.
Qed.

(** *** Reading the tokens of an expression *)

Lemma plain_not_paren (t : string) :
  plain_token t = true -> (t =? "(")%string = false /\ (t =? ")")%string = false.
Proof.
  intros H. split; apply String.eqb_neq; intros ->; discriminate.
Qed.

Lemma tokens_head (e : expr) :
  readable e ->
  exists t ts, tokens_of e = t :: ts /\ (t =? ")")%string = false.
Proof.
  destruct e as [n|x|s|xs]; intros H;
    try (destruct H as (Hp & _); apply plain_not_paren in Hp as [_ Hp];
         eexists _, []; split; [reflexivity|exact Hp]).
  eexists _, _. split; reflexivity.
Qed.

Lemma read_fuel_le (n m : nat) (tokens : list string) (e : expr)
    (rest : list string) :
  (n <= m)%nat ->
  read_from_fuel n tokens = Ok e rest -> read_from_fuel m tokens = Ok e rest.
Proof.
  intros L H. rewrite <- H. apply (proj1 (read_fuel_mono n)); [assumption|].
  rewrite H. discriminate.
Qed.

Lemma read_rest_le (n m : nat) (L : list expr) (tokens : list string)
    (e : expr) (rest : list string) :
  (n <= m)%nat ->
  read_rest n L tokens = Ok e rest -> read_rest m L tokens = Ok e rest.
Proof.
  intros Le H. rewrite <- H. apply (proj2 (read_fuel_mono n)); [assumption|].
  rewrite H. discriminate.
Qed.

Lemma read_tokens (e : expr) :
  readable e ->
  forall rest, exists n, read_from_fuel n (tokens_of e ++ rest) = Ok e rest.
Proof.
  induction e as [k|x|s|xs IH] using expr_rect'; intros H rest;
    try (destruct H as (Hp & Ha & _);
         apply plain_not_paren in Hp as [Ho Hc];
         exists 1%nat; cbn [tokens_of app read_from_fuel];
         rewrite Ho, Hc, Ha; reflexivity).
  apply readable_list in H.
  assert (Hrest : forall L, exists n,
             read_rest n L (List.concat (map tokens_of xs) ++ ")" :: rest)
             = Ok (List (L ++ xs)) rest).
  { clear -IH H. induction xs as [|x xs IHxs]; intros L.
    - exists 1%nat. simpl. rewrite List.app_nil_r. reflexivity.
    - inversion IH as [|? ? Hx IH']; inversion H as [|? ? Rx H']; subst.
      destruct (Hx Rx (List.concat (map tokens_of xs) ++ ")" :: rest)) as [n1 E1].
      destruct (IHxs IH' H' (L ++ [x])) as [n2 E2].
      destruct (tokens_head x Rx) as (t & ts & Et & Ht).
      exists (S (Nat.max n1 n2)).
      cbn [map List.concat]. rewrite <- List.app_assoc.
      apply (read_fuel_le n1 (Nat.max n1 n2)) in E1; [|lia].
      apply (read_rest_le n2 (Nat.max n1 n2)) in E2; [|lia].
      revert E1. rewrite Et. cbn [app]. intros E1.
      cbn [read_rest]. rewrite Ht. cbn [negb]. rewrite E1, E2.
      rewrite <- List.app_assoc. reflexivity. }
  destruct (Hrest []) as [n E]. exists (S n).
  cbn [tokens_of app read_from_fuel String.eqb Ascii.eqb Bool.eqb].
  rewrite <- List.app_assoc. exact E.
Qed.

(** *** Which atoms are readable *)

Lemma digits_plain (d : Decimal.uint) :
  Str.forallb (fun c => (plain_char c && Str.is_digit c)%bool)
    (NilEmpty.string_of_uint d) = true.
Proof. induction d; simpl; auto. Qed.

Lemma digits_value_of_uint (d : Decimal.uint) :
  d <> Decimal.Nil ->
  digits_value (NilZero.string_of_uint d) = Some (Z.of_uint d).
Proof. intros H. unfold digits_value. rewrite NilZero.usu by assumption. reflexivity. Qed.

Lemma py_int_digits (d : Decimal.uint) :
  py_int (NilZero.string_of_uint d) = digits_value (NilZero.string_of_uint d).
Proof. destruct d; reflexivity. Qed.

(** [int(str(n)) == n] *)
Lemma py_int_str_int (n : Z) : py_int (str_int n) = Some n.
Proof.
  unfold str_int. rewrite <- (DecimalZ.of_to n) at 2.
  destruct n as [|p|p]; [reflexivity| |]; cbn [Z.to_int NilZero.string_of_int].
  - rewrite py_int_digits.
    rewrite digits_value_of_uint by apply DecimalPos.Unsigned.to_uint_nonnil.
    reflexivity.
  - cbn [py_int]. rewrite digits_value_of_uint
      by apply DecimalPos.Unsigned.to_uint_nonnil.
    reflexivity.
Qed.

Lemma str_int_plain (n : Z) : plain_token (str_int n) = true.
Proof.
  assert (D : forall d, d <> Decimal.Nil ->
            plain_token (NilZero.string_of_uint d) = true
            /\ Str.forallb plain_char (NilZero.string_of_uint d) = true).
  { intros d Hd.
    assert (P : Str.forallb plain_char (NilZero.string_of_uint d) = true).
    { destruct d; try contradiction;
        (eapply forallb_weaken; [|apply digits_plain];
         intros c Hc; apply andb_true_iff in Hc as [Hc _]; exact Hc). }
    split; [|exact P]. unfold plain_token. rewrite P.
    destruct d; try contradiction; reflexivity. }
  unfold str_int.
  destruct n as [|p|p]; [reflexivity| |]; cbn [Z.to_int NilZero.string_of_int].
  - apply D, DecimalPos.Unsigned.to_uint_nonnil.
  - destruct (D (Pos.to_uint p)) as [_ P];
      [apply DecimalPos.Unsigned.to_uint_nonnil|].
    unfold plain_token. cbn [Str.is_empty Str.forallb negb andb].
    rewrite P. reflexivity.
Qed.

Lemma py_eq_int_refl (n : Z) : py_eq (VInt n) (VInt n) = true.
Proof. unfold py_eq. simpl. rewrite Z.compare_refl. reflexivity. Qed.

(** Every integer is readable. *)
Lemma readable_int (n : Z) : readable (Int n).
Proof.
  repeat split.
  - apply str_int_plain.
  - unfold atom. cbn [to_string]. rewrite py_int_str_int. reflexivity.
  - apply py_eq_int_refl.
Qed.

(** A symbol is readable when it is one plain token that does not read as
    a number. *)
Lemma readable_sym (s : string) :
  plain_token s = true -> py_int s = None -> PyFloat.parse s = None ->
  readable (Sym s).
Proof.
  intros Hp Hi Hf. repeat split.
  - exact Hp.
  - unfold atom. cbn [to_string]. rewrite Hi, Hf. reflexivity.
  - unfold py_eq. cbn [datum py_compare].
    pose proof (String.compare_antisym s s) as E.
    destruct (String.compare s s); try discriminate. reflexivity.
Qed.

(** [==] on the values of readable expressions is reflexive. *)
Lemma readable_self_equal (e : expr) :
  readable e -> py_eq (datum e) (datum e) = true.
Proof.
  induction e as [k|x|s|xs IH] using expr_rect'; intros H;
    try (destruct H as (_ & _ & H); exact H).
  apply readable_list in H. unfold py_eq. cbn [datum py_compare].
  induction xs as [|x xs IHxs]; [reflexivity|].
  inversion IH as [|? ? Hx IH']; inversion H as [|? ? Rx H']; subst.
  cbn [map]. specialize (Hx Rx). unfold py_eq in Hx.
  destruct (py_compare (datum x) (datum x)) as [[| |]|]; try discriminate.
  apply IHxs; assumption.
Qed.

(** C2, as the code has it. An expression whose atoms are all readable (each
    renders to one plain token that reads back as the same atom) is read
    back from its rendering: the reader returns it, with no token left, and
    it is equal to the original under [==]. *)
Theorem parse_to_string_readable (e : expr) :
  readable e ->
  parse (to_string e) = Ok e [] /\ py_eq (datum e) (datum e) = true.
Proof.
  intros H. split; [|apply readable_self_equal; assumption].
  unfold parse. rewrite tokenize_rendering by assumption.
  destruct (read_tokens e H []) as [n E]. rewrite List.app_nil_r in E.
  rewrite (read_from_any_fuel n); [exact E|]. rewrite E. discriminate.
Qed.

Lemma parse_to_string_readable_witness :
  let e := List [Sym "+"; Int 1; List [Sym "f"; Int (-20); List []]] in
  parse (to_string e) = Ok e [].
Proof.
  intros e. apply (parse_to_string_readable e).
  cbn [readable map fold_right].
  repeat split; try apply str_int_plain; try apply py_eq_int_refl;
    try (unfold atom; cbn [to_string]; rewrite py_int_str_int; reflexivity).
Defined.

(** C2, counterexample: the float read from [0.30000000000000004] is
    rendered with twelve significant digits, as [0.3], which reads back as
    a different float. *)
Lemma parse_to_string_float_differs :
  parse "0.30000000000000004" = Ok (Float float_0_30000000000000004) []
  /\ to_string (Float float_0_30000000000000004) = "0.3"
  /\ exists e',
       parse (to_string (Float float_0_30000000000000004)) = Ok e' []
       /\ py_eq (datum e') (datum (Float float_0_30000000000000004)) = false.
Proof.
  split; [vm_compute; reflexivity|].
  split; [vm_compute; reflexivity|].
  eexists. split; vm_compute; reflexivity.
Qed.

(** Other atoms that are not read back: a symbol with a space in it is
    read as its first word, a symbol that spells a number as that number,
    a one-word string literal as nothing at all. *)
Lemma parse_to_string_symbols_differ :
  parse (to_string (Sym "a b")) = Ok (Sym "a") ["b"]
  /\ parse (to_string (Sym "12")) = Ok (Int 12) []
  /\ parse (to_string (Sym (dq ++ "hi" ++ dq))) = Raise (SyntaxError msg_eof) [].
Proof. repeat split; reflexivity. Qed.

(** ** Evaluator *)

(** One unfolding of [eval]. *)
Lemma eval_S (n : nat) (x : expr) (env : handle) :
  eval (S n) x env = eval_body (eval n) x env.
Proof. reflexivity. Qed.

(** *** The [if] form *)

Lemma eval_if (n : nat) (test conseq alt : expr) (env : handle) :
  eval (S n) (List [Sym "if"; test; conseq; alt]) env
  = bind (eval n test env)
      (fun t => eval n (if truthy t then conseq else alt) env).
Proof. reflexivity. Qed.

(** C7. Once the test has been evaluated, the [if] form is the evaluation of
    the selected branch in the store left by the test, and nothing else:
    the branch that is not selected can be replaced by any expression
    without changing the outcome. *)
Theorem if_evaluates_selected_branch_only (n : nat) (test conseq alt : expr)
    (env : handle) (st st1 : store) (t : value) :
  eval n test env st = Ok t st1 ->
  eval (S n) (List [Sym "if"; test; conseq; alt]) env st
  = eval n (if truthy t then conseq else alt) env st1
  /\ forall other,
      eval (S n) (List [Sym "if"; test;
                        (if truthy t then conseq else other);
                        (if truthy t then other else alt)]) env st
      = eval (S n) (List [Sym "if"; test; conseq; alt]) env st.
Proof.
  intros H. split.
  - rewrite eval_if. unfold bind. rewrite H. reflexivity.
  - intros other. rewrite !eval_if. unfold bind. rewrite H.
    destruct (truthy t); reflexivity.
Qed.

Lemma if_evaluates_selected_branch_only_witness :
  let test := List [Sym "<"; Int 1; Int 2] in
  let alt := List [Sym "define"; Sym "y"; Int 5] in
  eval 3 (List [Sym "if"; test; Int 1; alt]) global_env initial_store
  = Ok (VInt 1) initial_store.
Proof.
  intros test alt.
  destruct (if_evaluates_selected_branch_only 2 test (Int 1) alt global_env
              initial_store initial_store (VBool true)) as [H _].
  - reflexivity.
  - rewrite H. reflexivity.
Defined.

(** When the test fails, no branch is evaluated. *)
Lemma if_test_raises (n : nat) (test conseq alt : expr) (env : handle)
    (st st1 : store) (e : exn) :
  eval n test env st = Raise e st1 ->
  eval (S n) (List [Sym "if"; test; conseq; alt]) env st = Raise e st1.
Proof. intros H. rewrite eval_if. unfold bind. rewrite H. reflexivity. Qed.

(** The alternate branch of [(if (< 1 2) 1 (define y 5))] is not run: the
    store is unchanged and [y] stays unbound. *)
Lemma if_example :
  run 5 "(if (< 1 2) 1 (define y 5))" initial_store = Ok (VInt 1) initial_store
  /\ run 5 "(if (< 2 1) 1 (define y 5))" initial_store
     = Ok VNone (with_binding initial_store global_env (Sym "y") (VInt 5)).
Proof. split; reflexivity. Qed.

(** *** The [eq?] form *)

(** A value that is not a list is never equal to a list. *)
Lemma py_eq_list_r (v w : value) :
  is_list v = false -> is_list w = true -> py_eq v w = false.
Proof.
  destruct w; try discriminate. intros Hv _. unfold py_eq.
  destruct v; try discriminate; try reflexivity.
Qed.

(** C3. [(eq? e1 e2)] evaluates [e1], then [e2], and returns [True] exactly
    when neither value is a list and the two values are equal; otherwise it
    returns [False]. *)
Theorem eq_form_true_iff (n : nat) (e1 e2 : expr) (env : handle)
    (st st1 st2 : store) (v1 v2 : value) :
  eval n e1 env st = Ok v1 st1 ->
  eval n e2 env st1 = Ok v2 st2 ->
  exists b,
    eval (S n) (List [Sym "eq?"; e1; e2]) env st = Ok (VBool b) st2
    /\ (b = true <->
        is_list v1 = false /\ is_list v2 = false /\ py_eq v1 v2 = true).
Proof.
  intros H1 H2. exists (negb (is_list v1) && py_eq v1 v2)%bool. split.
  - change (eval (S n) (List [Sym "eq?"; e1; e2]) env)
      with (bind (eval n e1 env) (fun v1 =>
            bind (eval n e2 env) (fun v2 =>
            ret (VBool (negb (is_list v1) && py_eq v1 v2))))).
    unfold bind. rewrite H1, H2. reflexivity.
  - split.
    + intros H. apply andb_true_iff in H as [Hl He].
      apply negb_true_iff in Hl. repeat split; try assumption.
      destruct (is_list v2) eqn:E; [|reflexivity].
      rewrite (py_eq_list_r v1 v2 Hl E) in He. discriminate.
    + intros (Hl & _ & He). rewrite Hl, He. reflexivity.
Qed.

Lemma eq_form_true_iff_witness :
  eval 2 (List [Sym "eq?"; List [Sym "quote"; Sym "a"]; List [Sym "quote"; Sym "a"]])
    global_env initial_store = Ok (VBool true) initial_store
  /\ eval 2 (List [Sym "eq?"; List [Sym "quote"; List []]; List [Sym "quote"; List []]])
       global_env initial_store = Ok (VBool false) initial_store.
Proof.
  split.
  - destruct (eq_form_true_iff 1 (List [Sym "quote"; Sym "a"])
                (List [Sym "quote"; Sym "a"]) global_env
                initial_store initial_store initial_store (VStr "a") (VStr "a")
                eq_refl eq_refl) as (b & E & Hb).
    rewrite E. rewrite (proj2 Hb); [reflexivity|]. repeat split; reflexivity.
  - destruct (eq_form_true_iff 1 (List [Sym "quote"; List []])
                (List [Sym "quote"; List []]) global_env
                initial_store initial_store initial_store (VList []) (VList [])
                eq_refl eq_refl) as (b & E & Hb).
    rewrite E. destruct b; [|reflexivity].
    destruct (proj1 Hb eq_refl) as (Hl & _). discriminate Hl.
Defined.

(** When an operand fails, so does the form. *)
Lemma eq_form_raises (n : nat) (e1 e2 : expr) (env : handle)
    (st st1 : store) (e : exn) :
  eval n e1 env st = Raise e st1 ->
  eval (S n) (List [Sym "eq?"; e1; e2]) env st = Raise e st1.
Proof.
  intros H.
  change (eval (S n) (List [Sym "eq?"; e1; e2]) env)
    with (bind (eval n e1 env) (fun v1 =>
          bind (eval n e2 env) (fun v2 =>
          ret (VBool (negb (is_list v1) && py_eq v1 v2))))).
  unfold bind. rewrite H. reflexivity.
Qed.

(** *** Procedure application *)

Lemma not_special (x0 : expr) :
  is_special x0 = false ->
  forall kw, In kw special_forms -> is_sym x0 kw = false.
Proof.
  unfold is_special. intros H kw Hin.
  destruct (is_sym x0 kw) eqn:E; [|reflexivity].
  rewrite <- H. symmetry. apply existsb_exists. exists kw. split; assumption.
Qed.

(** A list whose head is not a keyword is an application. *)
Lemma eval_application (n : nat) (x0 : expr) (args : list expr) (env : handle) :
  is_special x0 = false ->
  eval (S n) (List (x0 :: args)) env
  = bind (eval_list (eval n) (x0 :: args) env)
      (fun exps =>
         match exps with
         | proc :: exps => apply (eval n) proc exps
         | [] => raise IndexError
         end).
Proof.
  intros H. pose proof (not_special x0 H) as K.
  rewrite eval_S. unfold eval_body.
  rewrite !K by (simpl; tauto). reflexivity.
Qed.

Lemma reduce_left_fold (ev : expr -> handle -> M value) (proc : value)
    (rest : list value) :
  forall a b st,
    reduce ev proc a b rest st
    = left_fold (fun u v => call ev proc [u; v]) a (b :: rest) st.
Proof.
  induction rest as [|c rest IH]; intros a b st.
  - cbn [reduce left_fold]. unfold bind, ret.
    destruct (call ev proc [a; b] st); reflexivity.
  - cbn [reduce]. change (left_fold (fun u v => call ev proc [u; v]) a (b :: c :: rest))
      with (bind (call ev proc [a; b])
              (fun acc' => left_fold (fun u v => call ev proc [u; v]) acc' (c :: rest))).
    unfold bind. destruct (call ev proc [a; b] st); try reflexivity.
    apply IH.
Qed.

(** C6. An application with more than two arguments combines the evaluated
    arguments by a left fold of the procedure, two at a time, in order. *)
Theorem application_left_fold (n : nat) (x0 : expr) (args : list expr)
    (env : handle) (st st1 : store) (proc a b c : value) (rest : list value) :
  is_special x0 = false ->
  eval_list (eval n) (x0 :: args) env st = Ok (proc :: a :: b :: c :: rest) st1 ->
  eval (S n) (List (x0 :: args)) env st
  = left_fold (fun u v => call (eval n) proc [u; v]) a (b :: c :: rest) st1.
Proof.
  intros Hs He. rewrite eval_application by assumption.
  unfold bind at 1. rewrite He.
  cbn [apply]. apply reduce_left_fold.
Qed.

Lemma application_left_fold_witness :
  eval 2 (List [Sym "*"; Int 2; Int 3; Int 4]) global_env initial_store
  = Ok (VInt 24) initial_store.
Proof.
  rewrite (application_left_fold 1 (Sym "*") [Int 2; Int 3; Int 4] global_env
             initial_store initial_store (VBuiltin OpMul)
             (VInt 2) (VInt 3) (VInt 4) []); reflexivity.
Defined.

(** The product of 2, 3 and 4 and folds that are not commutative, through
    the reader. *)
Lemma application_examples :
  run 5 ("(" ++ "* 2 3 4)") initial_store = Ok (VInt 24) initial_store
  /\ run 5 "(- 100 10 20 30)" initial_store = Ok (VInt 40) initial_store
  /\ run 5 "(/ 100 5 2)" initial_store = Ok (VInt 10) initial_store
  /\ run 5 "(+ 1 2)" initial_store = Ok (VInt 3) initial_store
  /\ run 5 "(- 5)" initial_store = Ok (VInt (-5)) initial_store
  /\ run 5 "(+ 5)" initial_store = Ok (VInt 5) initial_store.
Proof. repeat split; reflexivity. Qed.

(** *** Dictionaries with symbol keys *)

Lemma key_eqb_sym (k : expr) (s : string) :
  key_eqb k (Sym s) = true -> k = Sym s.
Proof.
  destruct k as [n|x|t|xs]; simpl; try discriminate.
  intros H. apply String.eqb_eq in H. congruence.
Qed.

Lemma key_eqb_sym_refl (s : string) : key_eqb (Sym s) (Sym s) = true.
Proof. simpl. apply String.eqb_refl. Qed.

Lemma get_set_same (s : string) (v : value) (d : Dict.t) :
  Dict.get (Sym s) (Dict.set (Sym s) v d) = Some v.
Proof.
  induction d as [|[k w] d IH]; simpl.
  - rewrite String.eqb_refl. reflexivity.
  - destruct (key_eqb k (Sym s)) eqn:E; simpl; rewrite E; [reflexivity|exact IH].
Qed.

Lemma mem_set_same (s : string) (v : value) (d : Dict.t) :
  Dict.mem (Sym s) (Dict.set (Sym s) v d) = true.
Proof.
  induction d as [|[k w] d IH]; simpl.
  - rewrite String.eqb_refl. reflexivity.
  - destruct (key_eqb k (Sym s)) eqn:E; simpl; rewrite E; [reflexivity|exact IH].
Qed.

Lemma get_set_other (s t : string) (v : value) (d : Dict.t) :
  s <> t -> Dict.get (Sym s) (Dict.set (Sym t) v d) = Dict.get (Sym s) d.
Proof.
  intros Hst. induction d as [|[k w] d IH]; simpl.
  - apply String.eqb_neq in Hst. rewrite String.eqb_sym, Hst. reflexivity.
  - destruct (key_eqb k (Sym t)) eqn:E; simpl.
    + apply key_eqb_sym in E. subst k. simpl.
      apply String.eqb_neq in Hst. rewrite String.eqb_sym, Hst. reflexivity.
    + destruct (key_eqb k (Sym s)); [reflexivity|exact IH].
Qed.

Lemma mem_get (k : expr) (d : Dict.t) :
  Dict.mem k d = true -> exists v, Dict.get k d = Some v.
Proof.
  induction d as [|[k' w] d IH]; simpl; [discriminate|].
  destruct (key_eqb k' k); [intros _; exists w; reflexivity|exact IH].
Qed.

(** [update] with symbol keys never fails. *)
Lemma update_syms (names : list string) :
  forall args d0, exists d, Dict.update (combine (map Sym names) args) d0 = Return d.
Proof.
  induction names as [|a names IH]; intros args d0.
  - exists d0. reflexivity.
  - destruct args as [|v args]; [exists d0; reflexivity|]. simpl. apply IH.
Qed.

Lemma update_other (s : string) (names : list string) :
  ~ In s names ->
  forall args d0 d,
    Dict.update (combine (map Sym names) args) d0 = Return d ->
    Dict.get (Sym s) d = Dict.get (Sym s) d0.
Proof.
  induction names as [|a names IH]; intros Hs args d0 d H.
  - injection H as <-. reflexivity.
  - destruct args as [|v args]; [injection H as <-; reflexivity|].
    simpl in H. apply IH in H; [|intros K; apply Hs; right; exact K].
    rewrite H. apply get_set_other. intros ->. apply Hs. left. reflexivity.
Qed.

(** Parameters are bound to arguments by position. *)
Lemma update_positional (names : list string) :
  NoDup names ->
  forall args d0 d i s v,
    Dict.update (combine (map Sym names) args) d0 = Return d ->
    nth_error names i = Some s ->
    nth_error args i = Some v ->
    Dict.get (Sym s) d = Some v.
Proof.
  induction names as [|a names IH]; intros Hnd args d0 d i s v H Hs Hv.
  - destruct i; discriminate.
  - inversion Hnd as [|? ? Ha Hnd']; subst.
    destruct args as [|w args]; [destruct i; discriminate|].
    simpl in H. destruct i as [|i].
    + injection Hs as <-. injection Hv as <-.
      rewrite (update_other a names Ha _ _ _ H). apply get_set_same.
    + exact (IH Hnd' _ _ _ _ _ _ H Hs Hv).
Qed.

(** *** Closures *)

(** The [lambda] form makes a closure over the environment in which it is
    evaluated. *)
Lemma eval_lambda (n : nat) (vars exp : expr) (env : handle) (st : store) :
  eval (S n) (List [Sym "lambda"; vars; exp]) env st
  = Ok (VClosure (next_fid st) vars exp env) (Store (frames st) (S (next_fid st))).
Proof. reflexivity. Qed.

(** Every call of a closure makes a new [Env] whose outer link is the
    environment captured by the closure, and evaluates the body there. *)
Lemma call_closure (ev : expr -> handle -> M value) (fid : nat)
    (names : list string) (body : expr) (defenv : handle)
    (args : list value) (st : store) :
  exists d,
    Dict.update (combine (map Sym names) args) [] = Return d
    /\ call ev (VClosure fid (List (map Sym names)) body defenv) args st
       = ev body (List.length (frames st)) (with_frame st d defenv)
    /\ frame_at (with_frame st d defenv) (List.length (frames st))
       = Some (Frame d (Some defenv)).
Proof.
  destruct (update_syms names args []) as [d Hd]. exists d.
  split; [exact Hd|]. split.
  - cbn [call]. unfold bind, new_env. cbn [iterate]. rewrite Hd. reflexivity.
  - unfold frame_at, with_frame. cbn [frames].
    rewrite nth_error_app2, Nat.sub_diag by lia. reflexivity.
Qed.

(** A closure applied to one or two arguments is called once. *)
Lemma apply_closure (ev : expr -> handle -> M value) (fid : nat)
    (vars body : expr) (defenv : handle) (args : list value) :
  (List.length args <= 2)%nat ->
  apply ev (VClosure fid vars body defenv) args
  = call ev (VClosure fid vars body defenv) args.
Proof.
  intros H. destruct args as [|a [|b [|c args]]]; try reflexivity.
  simpl in H. lia.
Qed.

(** Where the code does what the design says of a closure.  A [lambda]
    form evaluated in [defenv] gives a closure that holds [defenv].  An
    application with at most two arguments whose operator evaluates to such
    a closure (with distinct parameter symbols) makes a new [Env]: its
    dictionary binds the parameter symbols to the argument values by
    position, its outer link is [defenv] whatever the environment [env] of
    the call, and the body is evaluated in it. *)
Theorem closure_application (n : nat) (x0 : expr) (es : list expr)
    (env defenv : handle) (st st1 : store) (fid : nat) (names : list string)
    (body : expr) (args : list value) :
  NoDup names ->
  is_special x0 = false ->
  (List.length args <= 2)%nat ->
  eval_list (eval n) (x0 :: es) env st
  = Ok (VClosure fid (List (map Sym names)) body defenv :: args) st1 ->
  eval (S n) (List [Sym "lambda"; List (map Sym names); body]) defenv st
  = Ok (VClosure (next_fid st) (List (map Sym names)) body defenv)
       (Store (frames st) (S (next_fid st)))
  /\ exists d,
    Dict.update (combine (map Sym names) args) [] = Return d
    /\ eval (S n) (List (x0 :: es)) env st
       = eval n body (List.length (frames st1)) (with_frame st1 d defenv)
    /\ frame_at (with_frame st1 d defenv) (List.length (frames st1))
       = Some (Frame d (Some defenv))
    /\ forall i s v,
        nth_error names i = Some s -> nth_error args i = Some v ->
        Dict.get (Sym s) d = Some v.
Proof.
  intros Hnd Hs Hlen He.
  destruct (call_closure (eval n) fid names body defenv args st1)
    as (d & Hd & Hcall & Hframe).
  split; [reflexivity|].
  exists d. split; [exact Hd|split; [|split]].
  - rewrite eval_application by assumption.
    unfold bind at 1. rewrite He.
    rewrite apply_closure by assumption. exact Hcall.
  - exact Hframe.
  - intros i s v. apply (update_positional names Hnd args [] d i s v Hd).
Qed.

Lemma closure_application_witness :
  eval 3 (List [List [Sym "lambda"; List [Sym "x"; Sym "y"];
                      List [Sym "+"; Sym "x"; Sym "y"]]; Int 3; Int 4])
    global_env initial_store
  = Ok (VInt 7)
      (with_frame (Store (frames initial_store) 1)
         [(Sym "x", VInt 3); (Sym "y", VInt 4)] global_env).
Proof.
  destruct (closure_application 2
              (List [Sym "lambda"; List [Sym "x"; Sym "y"];
                     List [Sym "+"; Sym "x"; Sym "y"]])
              [Int 3; Int 4] global_env global_env initial_store
              (Store (frames initial_store) 1) 0 ["x"; "y"]
              (List [Sym "+"; Sym "x"; Sym "y"]) [VInt 3; VInt 4])
    as (_ & d & Hd & E & _ & _).
  - repeat constructor; simpl; intuition discriminate.
  - reflexivity.
  - simpl. lia.
  - reflexivity.
  - injection Hd as <-. rewrite E. reflexivity.
Defined.

(** A closure of three parameters applied to three arguments, from the
    text of the program.  The loop of the application branch calls it with
    the first two values only; the new [Env] binds [a] and [b], and the
    body, which reads [c], fails. *)
Lemma closure_three_arguments :
  exists st,
    run 9 "((lambda (a b c) c) 1 2 3)" initial_store = Raise AttributeError st
    /\ frame_at st 1%nat
       = Some (Frame [(Sym "a", VInt 1); (Sym "b", VInt 2)] (Some global_env))
    /\ List.length (frames st) = 2%nat.
Proof. eexists. repeat split. Qed.

(** The example of the design, and a program that tells lexical from
    dynamic scope: [f] is defined where [x] is 1 and called where [x] is
    2. *)
Lemma closure_examples :
  (exists st, run 5 "((lambda (x y) (+ x y)) 3 4)" initial_store = Ok (VInt 7) st)
  /\ (exists st,
        run 9 "(begin (define x 1) (define f (lambda () x)) ((lambda (x) (f)) 2))"
          initial_store = Ok (VInt 1) st).
Proof. split; eexists; reflexivity. Qed.

(** *** Lookup along the outer chain *)

Lemma find_fuel_nearest (st : store) (var : expr) (env b : handle) :
  hashable var = true ->
  nearest st var env b ->
  forall fuel, (env < fuel)%nat -> find_fuel fuel env var st = Ok b st.
Proof.
  intros Hh H. induction H as [env f Hf Hm|env f o b Hf Hm Ho Hlt Hn IH];
    intros fuel Hfuel; (destruct fuel as [|fuel]; [lia|]);
    cbn [find_fuel]; rewrite Hf, Hh; cbn [negb]; rewrite Hm.
  - reflexivity.
  - rewrite Ho. apply IH. lia.
Qed.

Lemma find_fuel_unbound (st : store) (var : expr) (env : handle) :
  hashable var = true ->
  unbound st var env ->
  forall fuel, (env < fuel)%nat -> find_fuel fuel env var st = Raise AttributeError st.
Proof.
  intros Hh H. induction H as [env f Hf Hm Ho|env f o Hf Hm Ho Hlt Hn IH];
    intros fuel Hfuel; (destruct fuel as [|fuel]; [lia|]);
    cbn [find_fuel]; rewrite Hf, Hh; cbn [negb]; rewrite Hm, Ho.
  - reflexivity.
  - apply IH. lia.
Qed.

Lemma nearest_binds (st : store) (var : expr) (env b : handle) :
  nearest st var env b ->
  exists f v, frame_at st b = Some f /\ Dict.get var (bindings f) = Some v.
Proof.
  induction 1 as [env f Hf Hm|]; [|assumption].
  destruct (mem_get _ _ Hm) as [v Hv]. exists f, v. split; assumption.
Qed.

(** The first binding frame is at or below [env], and no frame strictly
    between binds the variable. *)
Lemma nearest_le (st : store) (var : expr) (env b : handle) :
  nearest st var env b -> (b <= env)%nat.
Proof. induction 1; lia. Qed.

Lemma nth_error_put_same (fs : list frame) (i : handle) (f g : frame) :
  nth_error fs i = Some g -> nth_error (put_frame fs i f) i = Some f.
Proof.
  revert i. induction fs as [|h fs IH]; intros [|i] H; simpl in *;
    try discriminate; [reflexivity|apply IH; assumption].
Qed.

Lemma nth_error_put_other (fs : list frame) (i j : handle) (f : frame) :
  i <> j -> nth_error (put_frame fs i f) j = nth_error fs j.
Proof.
  revert i j. induction fs as [|h fs IH]; intros [|i] [|j] H; simpl;
    try reflexivity; [contradiction|apply IH; congruence].
Qed.

(** [env[var] = v] changes the dictionary of [env] only. *)
Lemma with_binding_frames (st : store) (b : handle) (s : string) (v : value)
    (f : frame) :
  frame_at st b = Some f ->
  (exists f', frame_at (with_binding st b (Sym s) v) b = Some f'
              /\ Dict.get (Sym s) (bindings f') = Some v
              /\ outer f' = outer f)
  /\ forall e, e <> b ->
       frame_at (with_binding st b (Sym s) v) e = frame_at st e.
Proof.
  intros Hf. unfold with_binding. rewrite Hf. unfold frame_at in *. cbn [frames].
  split.
  - eexists. split; [apply (nth_error_put_same _ _ _ _ Hf)|].
    split; [apply get_set_same|reflexivity].
  - intros e He. apply nth_error_put_other. congruence.
Qed.

Lemma setitem_with_binding (st : store) (b : handle) (var : expr) (v : value)
    (f : frame) :
  frame_at st b = Some f -> hashable var = true ->
  setitem b var v st = Ok tt (with_binding st b var v).
Proof.
  intros Hf Hh. unfold setitem, with_binding. rewrite Hf, Hh. reflexivity.
Qed.

Lemma eval_symbol (n : nat) (s : string) (env : handle) :
  eval (S n) (Sym s) env
  = bind (find env (Sym s)) (fun f => getitem f (Sym s)).
Proof. reflexivity. Qed.

Lemma eval_set (n : nat) (var exp : expr) (env : handle) :
  eval (S n) (List [Sym "set!"; var; exp]) env
  = bind (eval n exp env) (fun v =>
    bind (find env var) (fun f =>
    bind (setitem f var v) (fun _ => ret VNone))).
Proof. reflexivity. Qed.

(** C8. Evaluating a symbol, or assigning to it with [set!], walks the outer
    links from the current environment.  When a frame on the way binds the
    symbol, the symbol evaluates to the value in the first such frame, and
    [set!] overwrites the binding in that frame and in no other.  When the
    chain ends without a binding, both fail: [find] is called on the
    [None] that ends the chain, which is Python's [AttributeError]. *)
Theorem lookup_walks_outer_chain (n : nat) (s : string) (env : handle)
    (st : store) :
  (unbound st (Sym s) env ->
     eval (S n) (Sym s) env st = Raise AttributeError st)
  /\ (forall b, nearest st (Sym s) env b ->
        exists f v,
          frame_at st b = Some f
          /\ Dict.get (Sym s) (bindings f) = Some v
          /\ eval (S n) (Sym s) env st = Ok v st)
  /\ (forall exp v st1,
        eval n exp env st = Ok v st1 ->
        unbound st1 (Sym s) env ->
        eval (S n) (List [Sym "set!"; Sym s; exp]) env st
        = Raise AttributeError st1)
  /\ (forall exp v st1 b,
        eval n exp env st = Ok v st1 ->
        nearest st1 (Sym s) env b ->
        eval (S n) (List [Sym "set!"; Sym s; exp]) env st
        = Ok VNone (with_binding st1 b (Sym s) v)
        /\ (exists f', frame_at (with_binding st1 b (Sym s) v) b = Some f'
                       /\ Dict.get (Sym s) (bindings f') = Some v)
        /\ forall e, e <> b ->
             frame_at (with_binding st1 b (Sym s) v) e = frame_at st1 e).
Proof.
  repeat split.
  - intros H. rewrite eval_symbol. unfold bind, find.
    rewrite (find_fuel_unbound st (Sym s) env eq_refl H) by lia. reflexivity.
  - intros b H. destruct (nearest_binds _ _ _ _ H) as (f & v & Hf & Hv).
    exists f, v. repeat split; try assumption.
    rewrite eval_symbol. unfold bind, find.
    rewrite (find_fuel_nearest st (Sym s) env b eq_refl H) by lia.
    unfold getitem. rewrite Hf, Hv. reflexivity.
  - intros exp v st1 He H. rewrite eval_set. unfold bind at 1. rewrite He.
    unfold bind, find.
    rewrite (find_fuel_unbound st1 (Sym s) env eq_refl H) by lia. reflexivity.
  - destruct (nearest_binds _ _ _ _ H0) as (f & w & Hf & _).
    rewrite eval_set. unfold bind at 1. rewrite H.
    unfold bind, find.
    rewrite (find_fuel_nearest st1 (Sym s) env b eq_refl H0) by lia.
    rewrite (setitem_with_binding st1 b (Sym s) v f Hf eq_refl). reflexivity.
  - destruct (nearest_binds _ _ _ _ H0) as (f & w & Hf & _).
    destruct (with_binding_frames st1 b s v f Hf) as [(f' & H1 & H2 & _) _].
    exists f'. split; assumption.
  - destruct (nearest_binds _ _ _ _ H0) as (f & w & Hf & _).
    destruct (with_binding_frames st1 b s v f Hf) as [_ H1]. exact H1.
Qed.

Lemma lookup_walks_outer_chain_witness :
  eval 1 (Sym "z") 1%nat example_store = Raise AttributeError example_store
  /\ eval 1 (Sym "x") 1%nat example_store = Ok (VInt 10) example_store
  /\ eval 2 (List [Sym "set!"; Sym "z"; Int 3]) 1%nat example_store
     = Raise AttributeError example_store
  /\ eval 2 (List [Sym "set!"; Sym "x"; Int 3]) 1%nat example_store
     = Ok VNone (with_binding example_store global_env (Sym "x") (VInt 3)).
Proof.
  assert (Uz : unbound example_store (Sym "z") 1%nat).
  { eapply unbound_outer; [reflexivity|reflexivity|reflexivity|cbv; lia|].
    eapply unbound_root; reflexivity. }
  assert (Nx : nearest example_store (Sym "x") 1%nat 0%nat).
  { eapply nearest_outer; [reflexivity|reflexivity|reflexivity|cbv; lia|].
    eapply nearest_here; reflexivity. }
  split; [|split; [|split]].
  - apply (proj1 (lookup_walks_outer_chain 0 "z" 1%nat example_store) Uz).
  - destruct (proj1 (proj2 (lookup_walks_outer_chain 0 "x" 1%nat example_store))
                0%nat Nx) as (f & v & Hf & Hv & E).
    rewrite E. cbv in Hf. injection Hf as <-.
    cbv in Hv. injection Hv as <-. reflexivity.
  - apply (proj1 (proj2 (proj2 (lookup_walks_outer_chain 1 "z" 1%nat example_store)))
             (Int 3) (VInt 3) example_store eq_refl Uz).
  - apply (proj2 (proj2 (proj2 (lookup_walks_outer_chain 1 "x" 1%nat example_store)))
             (Int 3) (VInt 3) example_store 0%nat eq_refl Nx).
Defined.

(** *** Dispatch on keywords *)

(** C9. A list headed by a keyword is evaluated by the rule of that special
    form, in every store: the head is compared with the keywords and is
    never looked up.  After the keyword has been bound by the user the
    bare symbol evaluates to the bound value, and lists headed by it
    evaluate as before. *)
Theorem keyword_dispatch_ignores_bindings (kw : string) :
  In kw special_forms ->
  (forall n args env st,
      eval (S n) (List (Sym kw :: args)) env st
      = special_form (eval n) kw args env st)
  /\ (forall n env st v f,
        frame_at st env = Some f ->
        eval (S n) (Sym kw) env (with_binding st env (Sym kw) v)
        = Ok v (with_binding st env (Sym kw) v))
  /\ Forall (fun kp =>
       outcome_value (run 9 (snd kp) (rebound (fst kp)))
       = outcome_value (run 9 (snd kp) initial_store)
       /\ outcome_value (run 9 (snd kp) initial_store) <> None
       /\ outcome_value (run 9 (fst kp) (rebound (fst kp))) = Some (VInt 5)
       /\ outcome_value (run 9 (fst kp) initial_store) = None)
     keyword_samples.
Proof.
  intros Hin. split; [|split].
  - intros n args env st. unfold special_forms in Hin. simpl in Hin.
    repeat (destruct Hin as [<-|Hin]; [reflexivity|]). contradiction.
  - intros n env st v f Hf.
    destruct (with_binding_frames st env kw v f Hf) as [(f' & H1 & H2 & _) _].
    rewrite eval_symbol. unfold bind, find. cbn [find_fuel].
    rewrite H1. cbn [hashable negb].
    assert (Hm : Dict.mem (Sym kw) (bindings f') = true).
    { revert H1. unfold with_binding. rewrite Hf. unfold frame_at. cbn [frames].
      rewrite (nth_error_put_same _ _ _ _ Hf). intros [= <-].
      apply mem_set_same. }
    rewrite Hm. unfold getitem. rewrite H1, H2. reflexivity.
  - unfold keyword_samples.
    repeat (constructor; [repeat split; try reflexivity; discriminate|]).
    constructor.
Qed.

Lemma keyword_dispatch_ignores_bindings_witness :
  eval 2 (List [Sym "if"; Int 1; Int 2; Int 3]) global_env (rebound "if")
  = Ok (VInt 2) (rebound "if")
  /\ eval 1 (Sym "if") global_env (rebound "if") = Ok (VInt 5) (rebound "if").
Proof.
  destruct (keyword_dispatch_ignores_bindings "if") as (H1 & H2 & _).
  - simpl. tauto.
  - split.
    + rewrite H1. reflexivity.
    + apply (H2 0%nat global_env initial_store (VInt 5) _ eq_refl).
Defined.

(** ** The stores built by the evaluator *)

Lemma value_ok_list (b : nat) (vs : list value) :
  value_ok b (VList vs) <-> Forall (value_ok b) vs.
Proof.
  simpl. induction vs as [|v vs IH]; simpl.
  - split; [constructor|trivial].
  - split.
    + intros [Hv Hvs]. constructor; [assumption|apply IH; assumption].
    + intros H. inversion H; subst. split; [assumption|apply IH; assumption].
Qed.

Lemma value_ok_mono (b b' : nat) (v : value) :
  (b <= b')%nat -> value_ok b v -> value_ok b' v.
Proof.
  intros Hb. induction v as [| | | | |vs IH| |] using value_rect';
    try (simpl; tauto); [|simpl; lia].
  rewrite !value_ok_list. intros H.
  induction vs as [|v vs IHvs]; [constructor|].
  inversion IH; inversion H; subst. constructor; auto.
Qed.

Lemma datum_ok (b : nat) (x : expr) : value_ok b (datum x).
Proof.
  induction x as [| | |xs IH] using expr_rect'; try exact I.
  cbn [datum]. apply value_ok_list.
  induction xs as [|x xs IHxs]; [constructor|].
  inversion IH; subst. constructor; auto.
Qed.

(** *** Rules for [keeps] *)

Lemma keeps_ret {A} (b : nat) (P : nat -> A -> Prop) (a : A) :
  (forall b', (b <= b')%nat -> P b' a) -> keeps b P (ret a).
Proof. intros H st Hok Hb. simpl. split; [exact Hok|split; [lia|auto]]. Qed.

Lemma keeps_raise {A} (b : nat) (P : nat -> A -> Prop) (e : exn) :
  keeps b P (raise e).
Proof. intros st Hok Hb. simpl. split; auto. Qed.

Lemma keeps_bind {A B} (b : nat) (P : nat -> A -> Prop) (Q : nat -> B -> Prop)
    (c : M A) (k : A -> M B) :
  keeps b P c ->
  (forall a b', (b <= b')%nat -> P b' a -> keeps b' Q (k a)) ->
  keeps b Q (bind c k).
Proof.
  intros Hc Hk st Hok Hb. unfold bind.
  specialize (Hc st Hok Hb). destruct (c st) as [a st1|e st1|]; [|exact Hc|exact I].
  destruct Hc as (Hok1 & Hle & HP).
  assert (Hb1 : (b <= List.length (frames st1))%nat) by lia.
  specialize (Hk a _ Hb1 HP st1 Hok1 (Nat.le_refl _)).
  destruct (k a st1) as [a2 st2|e st2|]; [|split; [apply Hk|destruct Hk; lia]|exact I].
  destruct Hk as (Hok2 & Hle2 & HQ). split; [exact Hok2|split; [lia|exact HQ]].
Qed.

Lemma keeps_weaken {A} (b b' : nat) (P : nat -> A -> Prop) (c : M A) :
  (b <= b')%nat -> keeps b P c -> keeps b' P c.
Proof. intros Hb H st Hok Hb'. apply H; [assumption|lia]. Qed.

Lemma keeps_lift {A} (b : nat) (P : nat -> A -> Prop) (p : pure A) :
  (forall a b', p = Return a -> (b <= b')%nat -> P b' a) -> keeps b P (lift p).
Proof.
  intros H. destruct p as [a|e]; [|apply keeps_raise].
  apply keeps_ret. intros b' Hb'. apply H; [reflexivity|assumption].
Qed.

(** *** The operations on the store *)

Lemma frame_at_valid (st : store) (env : handle) :
  (env < List.length (frames st))%nat -> exists f, frame_at st env = Some f.
Proof.
  intros H. unfold frame_at.
  destruct (nth_error (frames st) env) eqn:E; [eexists; reflexivity|].
  apply nth_error_None in E. lia.
Qed.

Lemma frame_at_some (st : store) (env : handle) (f : frame) :
  frame_at st env = Some f -> (env < List.length (frames st))%nat.
Proof. intros H. apply nth_error_Some. unfold frame_at in H. congruence. Qed.

Lemma find_fuel_keeps (var : expr) (fuel : nat) (env : handle) (b : nat) :
  keeps b (fun b' f => (f < b')%nat) (find_fuel fuel env var).
Proof.
  revert env. induction fuel as [|fuel IH]; intros env st Hok Hb; simpl; [exact I|].
  destruct (frame_at st env) as [f|] eqn:Hf; [|exact I].
  destruct (negb (hashable var)); [split; auto|].
  destruct (Dict.mem var (bindings f)).
  - split; [exact Hok|split; [lia|]]. apply (frame_at_some _ _ _ Hf).
  - destruct (outer f); [|split; auto]. apply IH; assumption.
Qed.

Lemma getitem_keeps (var : expr) (env : handle) (b : nat) :
  keeps b value_ok (getitem env var).
Proof.
  intros st Hok Hb. unfold getitem.
  destruct (frame_at st env) as [f|] eqn:Hf; [|exact I].
  destruct (negb (hashable var)); [split; auto|].
  destruct (Dict.get var (bindings f)) as [v|] eqn:Hg; [|split; auto].
  split; [exact Hok|split; [lia|]].
  assert (Hin : exists k, In (k, v) (bindings f)).
  { clear -Hg. induction (bindings f) as [|[k w] d IH]; [discriminate|].
    simpl in Hg. destruct (key_eqb k var).
    - injection Hg as ->. exists k. left. reflexivity.
    - destruct (IH Hg) as [k' Hk']. exists k'. right. exact Hk'. }
  destruct Hin as [k Hk]. apply (proj2 Hok env f k v Hf Hk).
Qed.

Lemma in_set (k : expr) (v : value) (d : Dict.t) (k' : expr) (v' : value) :
  In (k', v') (Dict.set k v d) -> v' = v \/ In (k', v') d.
Proof.
  induction d as [|[k0 v0] d IH]; simpl.
  - intros [[= <- <-]|[]]. left. reflexivity.
  - destruct (key_eqb k0 k); simpl.
    + intros [[= <- <-]|H]; [left; reflexivity|right; right; exact H].
    + intros [H|H]; [right; left; exact H|].
      destruct (IH H) as [->|H']; [left; reflexivity|right; right; exact H'].
Qed.

Lemma put_frame_length (fs : list frame) (i : handle) (f : frame) :
  List.length (put_frame fs i f) = List.length fs.
Proof.
  revert i. induction fs as [|g fs IH]; intros [|i]; simpl; auto.
Qed.

Lemma nth_error_put (fs : list frame) (i j : handle) (f g : frame) :
  nth_error (put_frame fs i f) j = Some g ->
  (i = j /\ g = f) \/ nth_error fs j = Some g.
Proof.
  destruct (Nat.eq_dec i j) as [->|Hne].
  - destruct (nth_error fs j) as [h|] eqn:E.
    + rewrite (nth_error_put_same _ _ _ _ E). intros [= <-]. left. auto.
    + intros H. assert (nth_error (put_frame fs j f) j <> None) by congruence.
      apply nth_error_Some in H0. rewrite put_frame_length in H0.
      apply nth_error_None in E. lia.
  - rewrite nth_error_put_other by assumption. auto.
Qed.

Lemma setitem_keeps (var : expr) (env : handle) (v : value) (b : nat) :
  value_ok b v -> keeps b (fun _ _ => True) (setitem env var v).
Proof.
  intros Hv st Hok Hb. unfold setitem.
  destruct (frame_at st env) as [f|] eqn:Hf; [|exact I].
  destruct (negb (hashable var)); [split; auto|].
  cbn [frames]. rewrite put_frame_length.
  split; [split|split; [lia|exact I]].
  - intros i g o Hg Ho. unfold frame_at in Hg. cbn [frames] in Hg.
    apply nth_error_put in Hg as [[-> ->]|Hg].
    + apply (proj1 Hok i f o Hf Ho).
    + apply (proj1 Hok i g o Hg Ho).
  - intros i g k w Hg Hin. unfold frame_at in Hg. cbn [frames] in *.
    rewrite put_frame_length.
    apply nth_error_put in Hg as [[-> ->]|Hg].
    + cbn [bindings] in Hin. apply in_set in Hin as [->|Hin].
      * apply (value_ok_mono b); assumption.
      * apply (proj2 Hok i f k w Hf Hin).
    + apply (proj2 Hok i g k w Hg Hin).
Qed.

Lemma new_closure_keeps (vars exp : expr) (env : handle) (b : nat) :
  (env < b)%nat -> keeps b value_ok (new_closure vars exp env).
Proof.
  intros He st Hok Hb. unfold new_closure. cbn [frames].
  split; [split; apply Hok|split; [lia|simpl; lia]].
Qed.

Lemma update_values (pairs : list (expr * value)) :
  forall d0 d k v,
    Dict.update pairs d0 = Return d -> In (k, v) d ->
    In (k, v) d0 \/ In v (map snd pairs).
Proof.
  induction pairs as [|[k0 v0] pairs IH]; intros d0 d k v H Hin.
  - injection H as <-. left. exact Hin.
  - simpl in H. destruct (hashable k0); [|discriminate].
    destruct (IH _ _ _ _ H Hin) as [H1|H1].
    + apply in_set in H1 as [->|H1]; [right; left; reflexivity|left; exact H1].
    + right. right. exact H1.
Qed.

Lemma new_env_keeps (params : expr) (args : list value) (o : handle) (b : nat) :
  (o < b)%nat -> Forall (value_ok b) args ->
  keeps b (fun b' env => (env < b')%nat) (new_env params args o).
Proof.
  intros Ho Hargs st Hok Hb. unfold new_env.
  destruct (iterate params) as [ps|e]; [|split; auto].
  destruct (Dict.update (combine ps args) []) as [d|e] eqn:Hd; [|split; auto].
  cbn [frames]. rewrite length_app. cbn [List.length].
  assert (Hnew : forall i g,
            nth_error (frames st ++ [Frame d (Some o)]) i = Some g ->
            nth_error (frames st) i = Some g
            \/ (i = List.length (frames st) /\ g = Frame d (Some o))).
  { intros i g Hg.
    destruct (Nat.lt_ge_cases i (List.length (frames st))) as [Hi|Hi].
    - rewrite nth_error_app1 in Hg by assumption. left. exact Hg.
    - rewrite nth_error_app2 in Hg by assumption.
      destruct (i - List.length (frames st))%nat as [|j] eqn:Ej.
      + injection Hg as <-. right. split; [lia|reflexivity].
      + destruct j; discriminate. }
  split; [split|split; [lia|cbv beta; lia]].
  - intros i g o' Hg Ho'. apply Hnew in Hg as [Hg|[-> ->]].
    + apply (proj1 Hok i g o' Hg Ho').
    + injection Ho' as <-. lia.
  - intros i g k w Hg Hin. apply Hnew in Hg as [Hg|[-> ->]].
    + apply (value_ok_mono (List.length (frames st)));
        [cbn [frames]; rewrite ?length_app; lia|].
      apply (proj2 Hok i g k w Hg Hin).
    + cbn [bindings] in Hin.
      destruct (update_values _ _ _ _ _ Hd Hin) as [[]|H1].
      apply (value_ok_mono b); [cbn [frames]; rewrite ?length_app; lia|].
      rewrite Forall_forall in Hargs. apply Hargs.
      apply in_map_iff in H1 as ([k' w'] & <- & H1).
      apply in_combine_r in H1. exact H1.
Qed.

(** *** Values computed by the built-in procedures *)

Lemma value_ok_app (b : nat) (l m : list value) :
  value_ok b (VList l) -> value_ok b (VList m) -> value_ok b (VList (l ++ m)).
Proof.
  rewrite !value_ok_list. intros Hl Hm. apply Forall_app. split; assumption.
Qed.

Lemma value_ok_repeat (b : nat) (l : list value) (n : Z) :
  value_ok b (VList l) -> value_ok b (VList (repeat_list l n)).
Proof.
  rewrite !value_ok_list. intros Hl. unfold repeat_list.
  induction (Z.to_nat n) as [|k IH]; simpl; [constructor|].
  apply Forall_app. split; assumption.
Qed.

Lemma num_results_ok (b : nat) (p : pure value) :
  (forall r, p = Return r -> exists n, r = VInt n \/ exists x, r = VFloat x) ->
  forall r, p = Return r -> value_ok b r.
Proof.
  intros H r Hr. destruct (H r Hr) as [n [->|[x ->]]]; exact I.
Qed.

Lemma num_op_ok (b : nat) fz ff (x y : num) (r : value) :
  num_op fz ff x y = Return r -> value_ok b r.
Proof.
  unfold num_op, float_op. intros H.
  destruct x, y; try (injection H as <-; exact I);
    destruct (to_float _); try discriminate;
    destruct (to_float _); try discriminate; injection H as <-; exact I.
Qed.

Lemma num_div_ok (b : nat) (x y : num) (r : value) :
  num_div x y = Return r -> value_ok b r.
Proof.
  unfold num_div. intros H.
  destruct x, y;
    try (destruct (_ =? _)%Z; [discriminate|injection H as <-; exact I]);
    destruct (to_float _); try discriminate;
    destruct (to_float _); try discriminate;
    destruct (PyFloat.is_zero _); try discriminate; injection H as <-; exact I.
Qed.

Lemma apply_builtin_ok (b : nat) (op : builtin) (v w r : value) :
  value_ok b v -> value_ok b w -> apply_builtin op v w = Return r -> value_ok b r.
Proof.
  intros Hv Hw H.
  destruct op; cbn [apply_builtin] in H;
    try (injection H as <-; exact I).
  - destruct v, w; cbn [as_num] in H; try discriminate;
      try (exact (num_op_ok b _ _ _ _ r H));
      try (injection H as <-; try exact I; apply value_ok_app; assumption).
  - destruct (as_num v), (as_num w); try discriminate.
    exact (num_op_ok b _ _ _ _ r H).
  - destruct v, w; cbn [as_num index_of] in H; try discriminate;
      try (exact (num_op_ok b _ _ _ _ r H));
      try (injection H as <-; try exact I; apply value_ok_repeat; assumption).
  - destruct (as_num v), (as_num w); try discriminate.
    exact (num_div_ok b _ _ r H).
Qed.

(** *** The evaluator keeps the store well formed *)

Section Keeps.

Variable ev : expr -> handle -> M value.

Hypothesis ev_keeps :
  forall x env b, (env < b)%nat -> keeps b value_ok (ev x env).

Lemma call_keeps (b : nat) (proc : value) (args : list value) :
  value_ok b proc -> Forall (value_ok b) args ->
  keeps b value_ok (call ev proc args).
Proof.
  intros Hp Ha. destruct proc; cbn [call]; try apply keeps_raise.
  - destruct args as [|x [|y [|z args]]]; try apply keeps_raise.
    inversion Ha as [|? ? Hx Ha']; inversion Ha' as [|? ? Hy _]; subst.
    apply keeps_lift. intros r b' Hr Hb'.
    apply (apply_builtin_ok b' op x y r);
      try (apply (value_ok_mono b); assumption); assumption.
  - eapply keeps_bind; [apply new_env_keeps; [exact Hp|exact Ha]|].
    intros env' b' Hb' He. apply ev_keeps. exact He.
Qed.

Lemma reduce_keeps (rest : list value) :
  forall b proc v1 v2,
    value_ok b proc -> value_ok b v1 -> value_ok b v2 ->
    Forall (value_ok b) rest ->
    keeps b value_ok (reduce ev proc v1 v2 rest).
Proof.
  induction rest as [|v3 rest IH]; intros b proc v1 v2 Hp H1 H2 Hr; cbn [reduce].
  - apply call_keeps; [assumption|]. repeat constructor; assumption.
  - eapply keeps_bind.
    + apply call_keeps; [assumption|]. repeat constructor; assumption.
    + intros r b' Hb' Hr'. inversion Hr as [|? ? H3 Hr3]; subst.
      apply IH; try (apply (value_ok_mono b); assumption); try assumption.
      eapply Forall_impl; [|exact Hr3].
      intros a. apply value_ok_mono. exact Hb'.
Qed.

Lemma apply_keeps (b : nat) (proc : value) (exps : list value) :
  value_ok b proc -> Forall (value_ok b) exps ->
  keeps b value_ok (apply ev proc exps).
Proof.
  intros Hp He. unfold apply.
  assert (H0 : Forall (value_ok b) (VInt 0 :: exps)) by (constructor; [exact I|assumption]).
  destruct exps as [|a [|c rest]].
  - apply call_keeps; assumption.
  - destruct (py_eq proc (VBuiltin OpAdd) || py_eq proc (VBuiltin OpSub))%bool.
    + inversion H0 as [|? ? Hz Hrest]; inversion Hrest; subst.
      apply reduce_keeps; try assumption; constructor.
    + apply call_keeps; assumption.
  - inversion He as [|? ? Ha He']; inversion He'; subst.
    apply reduce_keeps; assumption.
Qed.

Lemma eval_list_keeps (xs : list expr) :
  forall env b, (env < b)%nat ->
    keeps b (fun b' vs => Forall (value_ok b') vs) (eval_list ev xs env).
Proof.
  induction xs as [|x xs IH]; intros env b He; cbn [eval_list].
  - apply keeps_ret. intros; constructor.
  - eapply keeps_bind; [apply ev_keeps; exact He|].
    intros v b1 Hb1 Hv.
    eapply keeps_bind; [apply IH; lia|].
    intros vs b2 Hb2 Hvs. apply keeps_ret. intros b3 Hb3.
    constructor.
    + apply (value_ok_mono b1); [lia|assumption].
    + eapply Forall_impl; [|exact Hvs]. intros a. apply value_ok_mono. exact Hb3.
Qed.

Lemma cond_loop_keeps (clauses : list expr) :
  forall env b, (env < b)%nat -> keeps b value_ok (cond_loop ev clauses env).
Proof.
  induction clauses as [|c clauses IH]; intros env b He; cbn [cond_loop].
  - apply keeps_ret. intros; exact I.
  - eapply keeps_bind; [apply (keeps_lift _ (fun _ _ => True)); trivial|].
    intros pe b1 Hb1 _.
    eapply keeps_bind; [apply ev_keeps; lia|].
    intros t b2 Hb2 _. destruct (truthy t).
    + apply ev_keeps. lia.
    + apply IH. lia.
Qed.

Lemma begin_loop_keeps (exps : list expr) :
  forall val env b,
    (env < b)%nat ->
    match val with Some v => value_ok b v | None => True end ->
    keeps b value_ok (begin_loop ev exps val env).
Proof.
  induction exps as [|exp exps IH]; intros val env b He Hv; cbn [begin_loop].
  - destruct val as [v|]; [|apply keeps_raise].
    apply keeps_ret. intros b' Hb'. apply (value_ok_mono b); assumption.
  - eapply keeps_bind; [apply ev_keeps; exact He|].
    intros v b1 Hb1 Hv1. apply IH; [lia|exact Hv1].
Qed.

Lemma getitem0_ok (b : nat) (v r : value) :
  value_ok b v -> getitem0 v = Return r -> value_ok b r.
Proof.
  destruct v as [| |s| | |vs| |]; try discriminate.
  - destruct s; [discriminate|]. intros _ [= <-]. exact I.
  - destruct vs as [|a vs]; [discriminate|].
    intros H [= <-]. apply value_ok_list in H. inversion H. assumption.
Qed.

Lemma slice1_ok (b : nat) (v r : value) :
  value_ok b v -> slice1 v = Return r -> value_ok b r.
Proof.
  destruct v as [| |s| | |vs| |]; try discriminate.
  - destruct s; intros _ [= <-]; exact I.
  - intros H [= <-]. apply value_ok_list in H. apply value_ok_list.
    destruct vs; [constructor|]. inversion H. assumption.
Qed.

Lemma cons_list_ok (b : nat) (v w r : value) :
  value_ok b v -> value_ok b w -> cons_list v w = Return r -> value_ok b r.
Proof.
  destruct w as [| | | | |ws| |]; try discriminate.
  intros Hv Hw [= <-]. apply value_ok_list in Hw. apply value_ok_list.
  constructor; assumption.
Qed.

Lemma eval_body_keeps (x : expr) (env : handle) (b : nat) :
  (env < b)%nat -> keeps b value_ok (eval_body ev x env).
Proof.
  intros He.
  assert (Hbool : forall c b0, keeps b0 value_ok (ret (VBool c)))
    by (intros; apply keeps_ret; intros; exact I).
  assert (Hnone : forall b0, keeps b0 value_ok (ret VNone))
    by (intros; apply keeps_ret; intros; exact I).
  destruct x as [n|f|s|xs]; cbn [eval_body].
  - apply keeps_ret. intros; exact I.
  - apply keeps_ret. intros; exact I.
  - eapply keeps_bind; [apply find_fuel_keeps|].
    intros f b' Hb' Hf. apply getitem_keeps.
  - destruct xs as [|x0 args]; [apply keeps_raise|].
    repeat match goal with
           | |- keeps _ _ (if ?c then _ else _) => destruct c
           end.
    + destruct args as [|e1 [|e2 args]]; try apply keeps_raise.
      apply keeps_ret. intros. apply datum_ok.
    + destruct args as [|e1 [|e2 args]]; try apply keeps_raise.
      eapply keeps_bind; [apply ev_keeps; exact He|]. intros; apply Hbool.
    + destruct args as [|e1 [|e2 [|e3 args]]]; try apply keeps_raise.
      eapply keeps_bind; [apply ev_keeps; exact He|]. intros v1 b1 Hb1 H1.
      eapply keeps_bind; [apply ev_keeps; lia|]. intros; apply Hbool.
    + destruct args as [|e1 [|e2 args]]; try apply keeps_raise.
      eapply keeps_bind; [apply ev_keeps; exact He|]. intros v b1 Hb1 Hv.
      apply keeps_lift. intros r b2 Hr Hb2.
      apply (value_ok_mono b1); [assumption|]. apply (getitem0_ok b1 v); assumption.
    + destruct args as [|e1 [|e2 args]]; try apply keeps_raise.
      eapply keeps_bind; [apply ev_keeps; exact He|]. intros v b1 Hb1 Hv.
      apply keeps_lift. intros r b2 Hr Hb2.
      apply (value_ok_mono b1); [assumption|]. apply (slice1_ok b1 v); assumption.
    + destruct args as [|e1 [|e2 [|e3 args]]]; try apply keeps_raise.
      eapply keeps_bind; [apply ev_keeps; exact He|]. intros v1 b1 Hb1 H1.
      eapply keeps_bind; [apply ev_keeps; lia|]. intros v2 b2 Hb2 H2.
      apply keeps_lift. intros r b3 Hr Hb3.
      apply (value_ok_mono b2); [assumption|].
      apply (cons_list_ok b2 v1 v2); try assumption.
      apply (value_ok_mono b1); assumption.
    + apply cond_loop_keeps. exact He.
    + destruct args as [|e1 [|e2 args]]; try apply keeps_raise.
      eapply keeps_bind; [apply ev_keeps; exact He|]. intros; apply Hbool.
    + destruct args as [|e1 [|e2 [|e3 [|e4 args]]]]; try apply keeps_raise.
      eapply keeps_bind; [apply ev_keeps; exact He|]. intros t b1 Hb1 Ht.
      apply ev_keeps. lia.
    + destruct args as [|e1 [|e2 [|e3 args]]]; try apply keeps_raise.
      eapply keeps_bind; [apply ev_keeps; exact He|]. intros v b1 Hb1 Hv.
      eapply keeps_bind; [apply find_fuel_keeps|]. intros f b2 Hb2 Hf.
      eapply keeps_bind;
        [apply setitem_keeps; apply (value_ok_mono b1); assumption|].
      intros; apply Hnone.
    + destruct args as [|e1 [|e2 [|e3 args]]]; try apply keeps_raise.
      eapply keeps_bind; [apply ev_keeps; exact He|]. intros v b1 Hb1 Hv.
      eapply keeps_bind; [apply setitem_keeps; exact Hv|].
      intros; apply Hnone.
    + destruct args as [|e1 [|e2 [|e3 args]]]; try apply keeps_raise.
      apply new_closure_keeps. exact He.
    + apply begin_loop_keeps; [exact He|exact I].
    + eapply keeps_bind; [apply eval_list_keeps; exact He|].
      intros exps b1 Hb1 Hexps. destruct exps as [|proc exps]; [apply keeps_raise|].
      inversion Hexps; subst. apply apply_keeps; assumption.
Qed.

End Keeps.

(** Whatever [eval] does, it leaves a well-formed store with at least as
    many frames, and the value it returns holds handles of existing frames
    only. *)
Theorem eval_keeps (n : nat) :
  forall x env b, (env < b)%nat -> keeps b value_ok (eval n x env).
Proof.
  induction n as [|n IH]; intros x env b He.
  - intros st _ _. exact I.
  - cbn [eval]. apply eval_body_keeps; assumption.
Qed.

Lemma initial_store_ok : store_ok initial_store.
Proof.
  split.
  - intros [|[|i]] f o Hf Ho; try discriminate.
    injection Hf as <-. discriminate.
  - intros [|[|i]] f k v Hf Hin; try discriminate.
    injection Hf as <-. simpl in Hin.
    repeat (destruct Hin as [[= <- <-]|Hin]; [exact I|]). contradiction.
Qed.

(** In a well-formed store the walk from an existing frame always ends:
    either at a first frame that binds the variable, or at the end of the
    chain. *)
Lemma chain_total (st : store) (var : expr) :
  linked st ->
  forall env, (env < List.length (frames st))%nat ->
    (exists b, nearest st var env b) \/ unbound st var env.
Proof.
  intros Hl env. induction env as [env IH] using (well_founded_induction lt_wf).
  intros He. destruct (frame_at_valid st env He) as [f Hf].
  destruct (Dict.mem var (bindings f)) eqn:Hm.
  - left. exists env. apply (nearest_here _ _ env f Hf Hm).
  - destruct (outer f) as [o|] eqn:Ho.
    + pose proof (Hl env f o Hf Ho) as Hlt.
      destruct (IH o Hlt) as [[b Hb]|Hu]; [lia| |].
      * left. exists b. apply (nearest_outer _ _ env f o b Hf Hm Ho Hlt Hb).
      * right. apply (unbound_outer _ _ env f o Hf Hm Ho Hlt Hu).
    + right. apply (unbound_root _ _ env f Hf Hm Ho).
Qed.

(** Running a line at top level keeps the store well formed. *)
Lemma run_keeps (fuel : nat) (line : string) (st : store) :
  store_ok st -> (0 < List.length (frames st))%nat ->
  match run fuel line st with
  | Ok _ st' | Raise _ st' => store_ok st' /\ (0 < List.length (frames st'))%nat
  | Diverge => True
  end.
Proof.
  intros Hok H1. unfold run.
  destruct (parse line) as [x ts|e ts|]; [|split; assumption|exact I].
  pose proof (eval_keeps fuel x global_env 1%nat (Nat.lt_0_succ 0) st Hok H1) as H.
  destruct (eval fuel x global_env st); [|split; [apply H|destruct H; lia]|exact I].
  destruct H as (H2 & H3 & _). split; [exact H2|lia].
Qed.

(** In a well-formed store the evaluation of a symbol always settles: it
    returns the value of the first binding on the chain, or fails because
    there is none. *)
Lemma eval_symbol_settles (n : nat) (s : string) (env : handle) (st : store) :
  store_ok st -> (env < List.length (frames st))%nat ->
  (exists v, eval (S n) (Sym s) env st = Ok v st)
  \/ eval (S n) (Sym s) env st = Raise AttributeError st.
Proof.
  intros [Hl _] He. rewrite eval_symbol. unfold bind, find.
  destruct (chain_total st (Sym s) Hl env He) as [[b Hb]|Hu].
  - left. destruct (nearest_binds _ _ _ _ Hb) as (f & v & Hf & Hv).
    exists v. rewrite (find_fuel_nearest st (Sym s) env b eq_refl Hb) by lia.
    unfold getitem. rewrite Hf, Hv. reflexivity.
  - right. rewrite (find_fuel_unbound st (Sym s) env eq_refl Hu) by lia.
    reflexivity.
Qed.

(** ** The examples of the design *)

Lemma design_examples :
  fst (run_lines 9
         ["(define x 10)"; "(set! x (+ x 1))"; "x";
          "(car (cons 1 (quote (2 3))))"; "(cdr (quote (1 2 3)))";
          "(cond (False 1) (False 2))"; "undefined-symbol"]
         initial_store)
  = [Some VNone; Some VNone; Some (VInt 11); Some (VInt 1);
     Some (VList [VInt 2; VInt 3]); Some (VList []); None].
Proof. reflexivity. Qed.

(** Floats are rendered with twelve significant digits. *)
Lemma float_rendering_examples :
  map (fun t => option_map PyFloat.str (PyFloat.parse t))
    ["0.1"; "1"; "1e16"; "0.0001"; "0.00001"; "123456789012345.0";
     "-0.0"; "1e400"; "nan"; "2.5e-3"; "x"]
  = [Some "0.1"; Some "1.0"; Some "1e+16"; Some "0.0001"; Some "1e-05";
     Some "1.23456789012e+14"; Some "-0.0"; Some "inf"; Some "nan";
     Some "0.0025"; None].
Proof. vm_compute. reflexivity. Qed.

(** ** More on the reader and the tokenizer *)

(** X1. Every integer, of any size and sign, is rendered as a token that
    [atom] reads back as the same integer. *)
Theorem atom_reads_rendered_integer (n : Z) :
  atom (to_string (Int n)) = Int n.
Proof.
  unfold atom. cbn [to_string]. rewrite py_int_str_int. reflexivity.
Qed.

Lemma depth_app (a b : list string) : depth (a ++ b) = depth a + depth b.
Proof. induction a as [|t a IH]; simpl; [reflexivity|]. rewrite IH. lia. Qed.

Lemma depth_open (a : list string) : depth ("(" :: a) = 1 + depth a.
Proof. reflexivity. Qed.

Lemma depth_close (a : list string) : depth (")" :: a) = -1 + depth a.
Proof. reflexivity. Qed.

(** What a successful read has consumed, for [read_from] and for the loop
    that collects the elements of a list. *)
Lemma read_consumed_form :
  forall n,
    (forall tokens e rest,
        read_from_fuel n tokens = Ok e rest ->
        exists pre, tokens = pre ++ rest /\ one_form pre) /\
    (forall L tokens e rest,
        read_rest n L tokens = Ok e rest ->
        exists pre,
          tokens = pre ++ ")" :: rest
          /\ depth pre = 0
          /\ forall p q, pre = p ++ q -> 0 <= depth p).
Proof.
  induction n as [|n [IHf IHr]]; split; intros; simpl in *; try discriminate.
  - destruct tokens as [|t ts]; [discriminate|].
    destruct (t =? "(")%string eqn:Eo.
    + apply String.eqb_eq in Eo. subst t.
      apply IHr in H as (pre & -> & Hd & Hp).
      exists ("(" :: pre ++ [")"]). split; [|split; [|split]].
      * simpl. rewrite <- List.app_assoc. reflexivity.
      * discriminate.
      * rewrite depth_open, depth_app, depth_close, Hd. reflexivity.
      * intros p q E Hpne Hqne.
        destruct p as [|t p]; [contradiction|].
        injection E as <- E.
        apply app_eq_app in E as [r [[E1 E2]|[E1 E2]]].
        -- rewrite depth_open. specialize (Hp p r E1). lia.
        -- destruct r as [|x r].
           ++ rewrite List.app_nil_r in E1. subst p.
              rewrite depth_open.
              specialize (Hp pre [] (eq_sym (List.app_nil_r pre))). lia.
           ++ injection E2 as _ E2. destruct r; [|discriminate].
              simpl in E2. symmetry in E2. contradiction.
    + destruct (t =? ")")%string eqn:Ec; [discriminate|].
      injection H as <- <-. exists [t]. split; [reflexivity|].
      split; [discriminate|]. split; [simpl; rewrite Eo, Ec; reflexivity|].
      intros p q E Hpne Hqne. destruct p as [|x p]; [contradiction|].
      injection E as _ E. destruct p; [|discriminate]. simpl in E.
      symmetry in E. contradiction.
  - destruct tokens as [|t ts]; [discriminate|].
    destruct (t =? ")")%string eqn:Ec; cbn [negb] in H.
    + apply String.eqb_eq in Ec. subst t. injection H as _ <-.
      exists []. split; [reflexivity|]. split; [reflexivity|].
      intros p q E. destruct p; [simpl; lia|discriminate].
    + destruct (read_from_fuel n (t :: ts)) as [e1 ts1| |] eqn:E1; try discriminate.
      apply IHf in E1 as (pre1 & E1 & Hne & Hd1 & Hp1).
      apply IHr in H as (pre2 & -> & Hd2 & Hp2).
      exists (pre1 ++ pre2). split; [|split].
      * rewrite E1, <- List.app_assoc. reflexivity.
      * rewrite depth_app. lia.
      * intros p q E.
        apply app_eq_app in E as [r [[E3 E4]|[E3 E4]]].
        -- destruct p as [|x p]; [simpl; lia|].
           destruct r as [|y r].
           ++ rewrite List.app_nil_r in E3. subst pre1. lia.
           ++ assert (0 < depth (x :: p))
                by (apply (Hp1 (x :: p) (y :: r) E3); discriminate).
              lia.
        -- subst p. rewrite depth_app. specialize (Hp2 r q E4). lia.
Qed.

(** X2. A successful read consumes exactly one form: the tokens are a run
    with balanced parentheses, closed by no proper prefix, followed by the
    tokens left unread. *)
Theorem read_from_consumes_one_form (tokens : list string) (e : expr)
    (rest : list string) :
  read_from tokens = Ok e rest ->
  exists pre, tokens = pre ++ rest /\ one_form pre.
Proof. apply (proj1 (read_consumed_form _)). Qed.

Lemma read_from_consumes_one_form_witness :
  exists pre,
    ["("; "a"; "("; ")"; ")"; "b"; ")"] = pre ++ ["b"; ")"] /\ one_form pre.
Proof.
  apply (read_from_consumes_one_form _ (List [Sym "a"; List []])).
  reflexivity.
Defined.

(** Inside a list the reader fails in one way only. *)
Lemma read_failure_in_list :
  forall n,
    (forall t ts e s,
        (t =? ")")%string = false ->
        read_from_fuel n (t :: ts) = Raise e s -> e = IndexError /\ s = []) /\
    (forall L tokens e s,
        read_rest n L tokens = Raise e s -> e = IndexError /\ s = []).
Proof.
  induction n as [|n [IHf IHr]]; split; intros; simpl in *; try discriminate.
  - destruct (t =? "(")%string; [apply IHr in H0; exact H0|].
    rewrite H in H0. discriminate.
  - destruct tokens as [|t ts]; [injection H as <- <-; auto|].
    destruct (t =? ")")%string eqn:Ec; cbn [negb] in H; [discriminate|].
    destruct (read_from_fuel n (t :: ts)) as [e1 ts1|e1 s1|] eqn:E1;
      try discriminate.
    + apply IHr in H. exact H.
    + injection H as <- <-. apply (IHf t ts e1 s1 Ec E1).
Qed.

(** X3. A token sequence that opens a list and never closes it (every prefix
    has more opening than closing parentheses) makes the reader consume
    all the tokens and raise [IndexError]; it never returns a partial
    list, and the syntax error for an unexpected end of input is not
    raised. *)
Theorem read_from_unclosed_list (ts : list string) :
  (forall p q, "(" :: ts = p ++ q -> p <> [] -> 0 < depth p) ->
  read_from ("(" :: ts) = Raise IndexError [].
Proof.
  intros Hopen.
  destruct (read_from ("(" :: ts)) as [e rest|e s|] eqn:E.
  - apply (proj1 (read_consumed_form _)) in E as (pre & Epre & Hne & Hd & _).
    specialize (Hopen pre rest Epre Hne). lia.
  - apply (proj1 (read_failure_in_list _)) in E as [-> ->]; reflexivity.
  - exfalso. apply (read_from_total _ E).
Qed.

Lemma prefixes_open_spec (tokens : list string) :
  forall acc,
    prefixes_open acc tokens = true ->
    forall p q, tokens = p ++ q -> p <> [] -> 0 < acc + depth p.
Proof.
  induction tokens as [|t ts IH]; intros acc H p q E Hp.
  - destruct p; [contradiction|discriminate].
  - destruct p as [|x p]; [contradiction|]. injection E as <- E.
    cbn [prefixes_open] in H. apply andb_true_iff in H as [H1 H2].
    apply Z.ltb_lt in H1.
    change (depth (t :: p)) with (depth ([t] ++ p)). rewrite depth_app.
    destruct p as [|y p]; [simpl depth at 2; lia|].
    specialize (IH _ H2 (y :: p) q E). rewrite Z.add_assoc.
    apply IH. discriminate.
Qed.

Lemma read_from_unclosed_list_witness :
  read_from ["("; "a"; "("; "b"; ")"] = Raise IndexError [].
Proof.
  apply (read_from_unclosed_list ["a"; "("; "b"; ")"]).
  intros p q E Hp.
  apply (prefixes_open_spec ["("; "a"; "("; "b"; ")"] 0 eq_refl p q E Hp).
Defined.

(** X4. The padding of [tokenize] iterates over a dictionary of two
    replacements, in an order the language does not fix; the tokens are
    the same in the other order. *)
Theorem tokenize_replacement_order (s : string) :
  tokenize s
  = scan (Str.split (Str.replace "(" " ( " (Str.replace ")" " ) " s)))
      [] EmptyString false.
Proof. unfold tokenize, pad. rewrite pad_commute. reflexivity. Qed.

(** *** Whitespace around the text *)

Lemma space_not_paren (c : ascii) :
  Str.is_space c = true -> Ascii.eqb c "(" = false /\ Ascii.eqb c ")" = false.
Proof.
  intros H. split; apply Ascii.eqb_neq; intros ->; discriminate.
Qed.

Lemma pad_space (a : string) :
  Str.forallb Str.is_space a = true -> pad a = a.
Proof.
  intros H. unfold pad. rewrite (replace_plain "(").
  - apply replace_plain. revert H. apply forallb_weaken.
    intros c Hc. apply space_not_paren in Hc as [_ Hc]. rewrite Hc. reflexivity.
  - revert H. apply forallb_weaken.
    intros c Hc. apply space_not_paren in Hc as [Hc _]. rewrite Hc. reflexivity.
Qed.

Lemma split_space_l (a x : string) :
  Str.forallb Str.is_space a = true -> Str.split (a ++ x) = Str.split x.
Proof.
  induction a as [|c a IH]; [reflexivity|].
  simpl. intros H. apply andb_true_iff in H as [Hc Ha].
  unfold Str.split at 1. simpl. rewrite Hc. apply IH. exact Ha.
Qed.

Lemma split_from_space (b cur : string) :
  Str.forallb Str.is_space b = true -> Str.split_from cur b = Str.emit cur.
Proof.
  revert cur. induction b as [|c b IH]; intros cur H; [reflexivity|].
  simpl in *. apply andb_true_iff in H as [Hc Hb].
  rewrite Hc, IH by assumption. apply List.app_nil_r.
Qed.

Lemma split_space_r (x b : string) :
  Str.forallb Str.is_space b = true ->
  forall cur, Str.split_from cur (x ++ b) = Str.split_from cur x.
Proof.
  intros Hb. induction x as [|c x IH]; intros cur.
  - simpl. apply split_from_space. exact Hb.
  - simpl. destruct (Str.is_space c); rewrite IH; reflexivity.
Qed.

Lemma words_ignore_outer_space (a s b : string) :
  Str.forallb Str.is_space a = true ->
  Str.forallb Str.is_space b = true ->
  Str.split (pad (a ++ s ++ b)) = Str.split (pad s).
Proof.
  intros Ha Hb. rewrite !pad_app, (pad_space a Ha), (pad_space b Hb).
  rewrite split_space_l by assumption. apply split_space_r. exact Hb.
Qed.

Lemma lstrip_split (s : string) :
  exists a, s = (a ++ Text.lstrip s)%string /\ Str.forallb Str.is_space a = true.
Proof.
  induction s as [|c s [a [E Ha]]]; [exists EmptyString; auto|].
  simpl. destruct (Str.is_space c) eqn:Hc.
  - exists (String c a). simpl. rewrite Hc, Ha, <- E. auto.
  - exists EmptyString. auto.
Qed.

Lemma rstrip_split (s : string) :
  exists b, s = (Text.rstrip s ++ b)%string /\ Str.forallb Str.is_space b = true.
Proof.
  induction s as [|c s [b [E Hb]]]; [exists EmptyString; auto|].
  simpl. destruct (Str.is_empty (Text.rstrip s)) eqn:He.
  - destruct (Text.rstrip s); [|discriminate]. simpl in E. subst b.
    destruct (Str.is_space c) eqn:Hc; simpl.
    + exists (String c s). simpl. rewrite Hc, Hb. auto.
    + exists s. auto.
  - simpl. exists b. rewrite <- E. auto.
Qed.

Lemma strip_split (s : string) :
  exists a b,
    s = (a ++ Text.strip s ++ b)%string
    /\ Str.forallb Str.is_space a = true
    /\ Str.forallb Str.is_space b = true.
Proof.
  destruct (lstrip_split s) as (a & Ea & Ha).
  destruct (rstrip_split (Text.lstrip s)) as (b & Eb & Hb).
  exists a, b. unfold Text.strip. rewrite <- Eb, <- Ea. auto.
Qed.

Lemma outer_space (a s b : string) :
  Str.forallb Str.is_space a = true ->
  Str.forallb Str.is_space b = true ->
  tokenize (a ++ s ++ b) = tokenize s
  /\ tokenize (Text.strip s) = tokenize s
  /\ parse (a ++ s ++ b) = parse s.
Proof.
  intros Ha Hb. unfold parse, tokenize.
  rewrite words_ignore_outer_space by assumption.
  split; [reflexivity|split; [|reflexivity]].
  destruct (strip_split s) as (a' & b' & E & Ha' & Hb').
  rewrite E at 2. rewrite words_ignore_outer_space by assumption. reflexivity.
Qed.

(** X5. Whitespace before and after the text does not change the tokens;
    in particular a line and its [strip] have the same tokens, so that
    they are parsed alike. *)
Theorem tokenize_ignores_outer_space (a s b : string) :
  Str.forallb Str.is_space a = true ->
  Str.forallb Str.is_space b = true ->
  tokenize (a ++ s ++ b) = tokenize s
  /\ tokenize (Text.strip s) = tokenize s
  /\ parse (a ++ s ++ b) = parse s.
Proof.
  intros Ha Hb. destruct (outer_space a s b Ha Hb) as (H1 & H2 & H3).
  split; [exact H1|]. split; [exact H2|exact H3].
Qed.

Lemma tokenize_ignores_outer_space_witness :
  tokenize ("  " ++ "(f  x)" ++ " ") = Return ["("; "f"; "x"; ")"].
Proof.
  rewrite (proj1 (tokenize_ignores_outer_space "  " "(f  x)" " " eq_refl eq_refl)).
  reflexivity.
Defined.

(** *** Input without double quotes *)

Lemma pad_cons (c : ascii) (s : string) :
  pad (String c s)
  = ((if Ascii.eqb c "(" then " ( "
      else if Ascii.eqb c ")" then " ) " else String c EmptyString)
     ++ pad s)%string.
Proof.
  change (String c s) with (String c EmptyString ++ s)%string.
  rewrite pad_app. f_equal. unfold pad. simpl.
  destruct (Ascii.eqb c "(") eqn:E1; [reflexivity|].
  simpl. destruct (Ascii.eqb c ")"); reflexivity.
Qed.

Lemma forallb_app (p : ascii -> bool) (a b : string) :
  Str.forallb p (a ++ b) = (Str.forallb p a && Str.forallb p b)%bool.
Proof.
  induction a as [|c a IH]; [reflexivity|].
  simpl. rewrite IH, andb_assoc. reflexivity.
Qed.

Lemma emit_word (p : ascii -> bool) (cur : string) :
  Str.forallb p cur = true ->
  Forall (fun w => w <> EmptyString /\ Str.forallb p w = true) (Str.emit cur).
Proof.
  intros H. unfold Str.emit. destruct cur; simpl; constructor; [|constructor].
  split; [discriminate|exact H].
Qed.

(** The words of a padded text are parentheses and words of the
    characters that satisfy [p], when all other characters of the text
    do. *)
Lemma padded_words (p : ascii -> bool) (s : string) :
  p "("%char = true -> p ")"%char = true ->
  Str.forallb p s = true ->
  forall cur,
    Str.forallb (fun c => (plain_char c && p c)%bool) cur = true ->
    Forall (fun w => w <> EmptyString
                     /\ Str.forallb p w = true
                     /\ (w = "(" \/ w = ")" \/ Str.forallb plain_char w = true))
      (Str.split_from cur (pad s)).
Proof.
  intros Ho Hc. 
  assert (Hemit : forall cur,
             Str.forallb (fun c => (plain_char c && p c)%bool) cur = true ->
             Forall (fun w => w <> EmptyString
                     /\ Str.forallb p w = true
                     /\ (w = "(" \/ w = ")" \/ Str.forallb plain_char w = true))
               (Str.emit cur)).
  { intros cur H. eapply Forall_impl; [|apply (emit_word _ cur H)].
    intros w [Hne Hw]. split; [exact Hne|].
    split; [|right; right]; revert Hw; apply forallb_weaken;
      intros c Hcp; apply andb_true_iff in Hcp; tauto. }
  induction s as [|c s IH]; intros Hs cur Hcur.
  - simpl. apply Hemit. exact Hcur.
  - simpl in Hs. apply andb_true_iff in Hs as [Hpc Hs]. rewrite pad_cons.
    destruct (Ascii.eqb c "(") eqn:E1; [|destruct (Ascii.eqb c ")") eqn:E2].
    + change (Str.split_from cur (" ( " ++ pad s))
        with (Str.emit cur ++ Str.split_from EmptyString ("( " ++ pad s)).
      change (Str.split_from EmptyString ("( " ++ pad s))
        with (["("] ++ Str.split_from EmptyString (pad s)).
      apply Forall_app. split; [apply Hemit; exact Hcur|].
      constructor; [|apply IH; [exact Hs|reflexivity]].
      split; [discriminate|]. split; [simpl; rewrite Ho; reflexivity|auto].
    + change (Str.split_from cur (" ) " ++ pad s))
        with (Str.emit cur ++ Str.split_from EmptyString (") " ++ pad s)).
      change (Str.split_from EmptyString (") " ++ pad s))
        with ([")"] ++ Str.split_from EmptyString (pad s)).
      apply Forall_app. split; [apply Hemit; exact Hcur|].
      constructor; [|apply IH; [exact Hs|reflexivity]].
      split; [discriminate|]. split; [simpl; rewrite Hc; reflexivity|auto].
    + cbn [append Str.split_from]. destruct (Str.is_space c) eqn:Es.
      * apply Forall_app. split; [apply Hemit; exact Hcur|].
        apply IH; [exact Hs|reflexivity].
      * apply IH; [exact Hs|].
        rewrite forallb_app, Hcur. simpl. unfold plain_char.
        rewrite Es, E1, E2, Hpc. reflexivity.
Qed.

(** X6. On input without double quotes the tokens are the
    whitespace-separated words of the padded text, none merged and none
    dropped, and each token is a parenthesis by itself or a word without
    parentheses and whitespace. *)
Theorem tokenize_without_quotes (s : string) :
  Str.forallb no_quote s = true ->
  tokenize s = Return (Str.split (pad s))
  /\ Forall paren_or_word (Str.split (pad s)).
Proof.
  intros Hq.
  pose proof (padded_words no_quote s eq_refl eq_refl Hq EmptyString eq_refl) as H.
  split.
  - unfold tokenize.
    rewrite <- (List.app_nil_r (Str.split (pad s))) at 1.
    rewrite scan_plain; [reflexivity| |].
    + eapply Forall_impl; [|exact H]. intros w Hw. apply Hw.
    + apply forallb_forall. intros w Hin.
      rewrite Forall_forall in H. destruct (H w Hin) as (Hne & Hw & _).
      unfold starts_quote. destruct w as [|c w]; [reflexivity|].
      simpl in *. apply andb_true_iff in Hw as [Hc _]. exact Hc.
  - eapply Forall_impl; [|exact H].
    intros w (Hne & _ & [->|[->|Hw]]); unfold paren_or_word; auto.
Qed.

Lemma tokenize_without_quotes_witness :
  tokenize "(+ 1 (f x))" = Return ["("; "+"; "1"; "("; "f"; "x"; ")"; ")"].
Proof.
  rewrite (proj1 (tokenize_without_quotes "(+ 1 (f x))" eq_refl)).
  reflexivity.
Defined.

(** ** More on the evaluator *)

(** X7. A special form that unpacks a fixed number of operands, given any
    other number of them, raises [ValueError] before it evaluates
    anything: the store is unchanged. *)
Theorem special_form_arity (kw : string) (k n : nat) (args : list expr)
    (env : handle) (st : store) :
  In (kw, k) fixed_arity ->
  List.length args <> k ->
  eval (S n) (List (Sym kw :: args)) env st = Raise ValueError st.
Proof.
  intros Hin Hlen. unfold fixed_arity in Hin. simpl in Hin.
  repeat (destruct Hin as [[= <- <-]|Hin];
          [destruct args as [|a1 [|a2 [|a3 [|a4 args]]]];
           solve [reflexivity | exfalso; apply Hlen; reflexivity]|]).
  contradiction.
Qed.

Lemma special_form_arity_witness :
  eval 1 (List [Sym "if"; Sym "undefined"; Int 1]) global_env initial_store
  = Raise ValueError initial_store.
Proof.
  apply (special_form_arity "if" 3 0 [Sym "undefined"; Int 1]).
  - simpl. tauto.
  - discriminate.
Defined.

(** *** Sequences *)

Lemma last_default {A} (x : A) (l : list A) (d d' : A) :
  last (x :: l) d = last (x :: l) d'.
Proof.
  revert x. induction l as [|y l IH]; intros x; [reflexivity|].
  change (last (x :: y :: l) d) with (last (y :: l) d).
  change (last (x :: y :: l) d') with (last (y :: l) d'). apply IH.
Qed.

Lemma begin_loop_eval_list (ev : expr -> handle -> M value) (es : list expr) :
  forall val env st,
    begin_loop ev es val env st
    = bind (eval_list ev es env)
        (fun vs =>
           match last (map Some vs) val with
           | Some v => ret v
           | None => raise UnboundLocalError
           end) st.
Proof.
  induction es as [|e es IH]; intros val env st; [reflexivity|].
  cbn [begin_loop eval_list]. unfold bind.
  destruct (ev e env st) as [v st1|x st1|]; try reflexivity.
  rewrite IH. unfold bind, ret.
  destruct (eval_list ev es env st1) as [vs st2|x st2|]; try reflexivity.
  destruct vs as [|v0 vs]; [reflexivity|].
  cbn [map]. rewrite (last_default (Some v0) (map Some vs) (Some v) val).
  reflexivity.
Qed.

(** X8. [begin] evaluates its operands from left to right, each in the
    store left by the one before, as the elements of an application are
    evaluated, and returns the last value; without operands its result
    variable was never assigned and it raises [UnboundLocalError]. *)
Theorem begin_evaluates_in_order (n : nat) (es : list expr) (env : handle)
    (st : store) :
  eval (S n) (List (Sym "begin" :: es)) env st
  = bind (eval_list (eval n) es env)
      (fun vs =>
         match last (map Some vs) None with
         | Some v => ret v
         | None => raise UnboundLocalError
         end) st.
Proof.
  change (eval (S n) (List (Sym "begin" :: es)) env st)
    with (begin_loop (eval n) es None env st).
  apply begin_loop_eval_list.
Qed.

(** *** Conditions *)

(** X9. [cond] tries its clauses in order, each predicate in the store
    left by the one before.  After clauses whose predicates evaluate to
    false values, the first clause whose predicate is true gives the
    result, the later clauses being ignored; when every predicate is
    false the result is the empty list. *)
Theorem cond_first_true_clause (n : nat) (pre : list expr) (env : handle)
    (st st' : store) :
  falsy_clauses n env st pre st' ->
  eval (S n) (List (Sym "cond" :: pre)) env st = Ok (VList []) st'
  /\ forall c p e post t st1,
       unpack2 c = Return (p, e) ->
       eval n p env st' = Ok t st1 ->
       truthy t = true ->
       eval (S n) (List (Sym "cond" :: pre ++ c :: post)) env st
       = eval n e env st1.
Proof.
  intros Hpre.
  change (eval (S n) (List (Sym "cond" :: pre)) env st)
    with (cond_loop (eval n) pre env st).
  split.
  - revert st Hpre.
    induction pre as [|c0 pre IH]; intros st Hpre.
    + cbn [falsy_clauses] in Hpre. subst st'. reflexivity.
    + destruct Hpre as (p0 & e0 & t0 & st0 & Hc0 & Hp0 & Ht0 & Hrest).
      cbn [cond_loop]. unfold bind, lift. rewrite Hc0. unfold ret. cbn [fst snd].
      rewrite Hp0, Ht0. apply IH. exact Hrest.
  - intros c p e post t st1 Hc Hp Ht.
    change (eval (S n) (List (Sym "cond" :: pre ++ c :: post)) env st)
      with (cond_loop (eval n) (pre ++ c :: post) env st).
    revert st Hpre.
    induction pre as [|c0 pre IH]; intros st Hpre.
    + cbn [falsy_clauses] in Hpre. subst st'.
      cbn [app cond_loop]. unfold bind, lift. rewrite Hc. unfold ret. cbn [fst snd].
      rewrite Hp, Ht. reflexivity.
    + destruct Hpre as (p0 & e0 & t0 & st0 & Hc0 & Hp0 & Ht0 & Hrest).
      cbn [app cond_loop]. unfold bind, lift. rewrite Hc0. unfold ret. cbn [fst snd].
      rewrite Hp0, Ht0. apply IH. exact Hrest.
Qed.

Lemma cond_first_true_clause_witness :
  let st' := with_binding initial_store global_env (Sym "x") (VInt 1) in
  eval 3 (List [Sym "cond"; List [List [Sym "define"; Sym "x"; Int 1]; Int 1];
                List [Sym "x"; Int 2];
                List [Sym "undefined"; Int 3]]) global_env initial_store
  = Ok (VInt 2) st'
  /\ eval 3 (List [Sym "cond"; List [List [Sym "define"; Sym "x"; Int 1]; Int 1]])
       global_env initial_store
     = Ok (VList []) st'.
Proof.
  intros st'.
  assert (H : falsy_clauses 2 global_env initial_store
                [List [List [Sym "define"; Sym "x"; Int 1]; Int 1]] st').
  { exists (List [Sym "define"; Sym "x"; Int 1]), (Int 1), VNone, st'.
    repeat split. }
  destruct (cond_first_true_clause 2 _ global_env initial_store st' H)
    as [H1 H2].
  split; [|exact H1].
  exact (H2 (List [Sym "x"; Int 2]) (Sym "x") (Int 2)
           [List [Sym "undefined"; Int 3]] (VInt 1) st'
           eq_refl eq_refl eq_refl).
Defined.

(** *** Lists and predicates *)

(** X10. [cons] puts the first value in front of the list that the second
    operand evaluates to, and [car] and [cdr] take such a list apart
    again; when the second operand does not evaluate to a list, [cons]
    raises [TypeError] after both operands have been evaluated. *)
Theorem car_cdr_cons (n : nat) (e1 e2 : expr) (env : handle)
    (st st1 st2 : store) (v1 v2 : value) :
  eval n e1 env st = Ok v1 st1 ->
  eval n e2 env st1 = Ok v2 st2 ->
  (forall l, v2 = VList l ->
     eval (S n) (List [Sym "cons"; e1; e2]) env st = Ok (VList (v1 :: l)) st2
     /\ eval (S (S n)) (List [Sym "car"; List [Sym "cons"; e1; e2]]) env st
        = Ok v1 st2
     /\ eval (S (S n)) (List [Sym "cdr"; List [Sym "cons"; e1; e2]]) env st
        = Ok (VList l) st2)
  /\ (is_list v2 = false ->
      eval (S n) (List [Sym "cons"; e1; e2]) env st = Raise TypeError st2).
Proof.
  intros H1 H2.
  assert (Hcons : eval (S n) (List [Sym "cons"; e1; e2]) env st
                  = lift (cons_list v1 v2) st2).
  { change (eval (S n) (List [Sym "cons"; e1; e2]) env)
      with (bind (eval n e1 env) (fun v1 =>
            bind (eval n e2 env) (fun v2 => lift (cons_list v1 v2)))).
    unfold bind. rewrite H1, H2. reflexivity. }
  split.
  - intros l ->. split; [exact Hcons|]. split.
    + change (eval (S (S n)) (List [Sym "car"; List [Sym "cons"; e1; e2]]) env)
        with (bind (eval (S n) (List [Sym "cons"; e1; e2]) env)
                (fun v => lift (getitem0 v))).
      unfold bind. rewrite Hcons. reflexivity.
    + change (eval (S (S n)) (List [Sym "cdr"; List [Sym "cons"; e1; e2]]) env)
        with (bind (eval (S n) (List [Sym "cons"; e1; e2]) env)
                (fun v => lift (slice1 v))).
      unfold bind. rewrite Hcons. reflexivity.
  - intros Hl. rewrite Hcons. destruct v2; try discriminate; reflexivity.
Qed.

Lemma car_cdr_cons_witness :
  eval 3 (List [Sym "car"; List [Sym "cons"; Int 1; List [Sym "quote"; List [Int 2; Int 3]]]])
    global_env initial_store
  = Ok (VInt 1) initial_store.
Proof.
  destruct (car_cdr_cons 1 (Int 1) (List [Sym "quote"; List [Int 2; Int 3]])
              global_env initial_store initial_store initial_store
              (VInt 1) (VList [VInt 2; VInt 3]) eq_refl eq_refl) as [H _].
  destruct (H [VInt 2; VInt 3] eq_refl) as (_ & Hcar & _).
  exact Hcar.
Defined.

Lemma py_eq_empty_list (v : value) : py_eq v (VList []) = true <-> v = VList [].
Proof.
  split; [|intros ->; reflexivity].
  unfold py_eq. destruct v as [| | | | |vs| |]; try discriminate.
  destruct vs; [reflexivity|discriminate].
Qed.

(** X11. [null?] answers [True] exactly when its operand evaluates to the
    empty list, and [atom?] exactly when it evaluates to something that is
    not a list; both answer with a boolean whatever the value. *)
Theorem null_and_atom_predicates (n : nat) (e : expr) (env : handle)
    (st st1 : store) (v : value) :
  eval n e env st = Ok v st1 ->
  (exists b,
      eval (S n) (List [Sym "null?"; e]) env st = Ok (VBool b) st1
      /\ (b = true <-> v = VList []))
  /\ eval (S n) (List [Sym "atom?"; e]) env st = Ok (VBool (negb (is_list v))) st1.
Proof.
  intros H. split.
  - exists (py_eq v (VList [])). split; [|apply py_eq_empty_list].
    change (eval (S n) (List [Sym "null?"; e]) env)
      with (bind (eval n e env) (fun v => ret (VBool (py_eq v (VList []))))).
    unfold bind. rewrite H. reflexivity.
  - change (eval (S n) (List [Sym "atom?"; e]) env)
      with (bind (eval n e env) (fun v => ret (VBool (negb (is_list v))))).
    unfold bind. rewrite H. reflexivity.
Qed.

Lemma null_and_atom_predicates_witness :
  eval 2 (List [Sym "atom?"; List [Sym "quote"; List []]]) global_env initial_store
  = Ok (VBool false) initial_store.
Proof.
  apply (null_and_atom_predicates 1 (List [Sym "quote"; List []]) global_env
           initial_store initial_store (VList []) eq_refl).
Defined.

(** *** Built-in procedures and their arguments *)

(** X12. A built-in procedure applied to one value: for [+] and [-] a zero is
    put in front, so that the result is [0 op x] (the negation of an
    integer for [-]); every other built-in raises [TypeError], as every
    built-in does without arguments.  A closure receives its single
    argument as it is. *)
Theorem builtin_with_one_argument (ev : expr -> handle -> M value)
    (op : builtin) (v : value) (st : store) :
  apply ev (VBuiltin op) [v] st
  = (if is_sign op then lift (apply_builtin op (VInt 0) v) st
     else Raise TypeError st)
  /\ apply ev (VBuiltin op) [] st = Raise TypeError st
  /\ (forall k, apply ev (VBuiltin OpSub) [VInt k] st = Ok (VInt (- k)) st)
  /\ (forall fid vars exp env,
        apply ev (VClosure fid vars exp env) [v] st
        = call ev (VClosure fid vars exp env) [v] st).
Proof.
  repeat split. destruct op; reflexivity.
Qed.

Lemma eval_list_ints (m : nat) (ks : list Z) (env : handle) (st : store) :
  eval_list (eval (S m)) (map Int ks) env st = Ok (map VInt ks) st.
Proof.
  induction ks as [|k ks IH]; [reflexivity|].
  cbn [map eval_list]. unfold bind.
  change (eval (S m) (Int k) env st) with (Ok (VInt k) st).
  cbv beta iota. rewrite IH. reflexivity.
Qed.

Lemma reduce_integers (ev : expr -> handle -> M value) (op : builtin)
    (f : Z -> Z -> Z) :
  In (op, f) integer_ops ->
  forall ks a b st,
    reduce ev (VBuiltin op) (VInt a) (VInt b) (map VInt ks) st
    = Ok (VInt (fold_left f (b :: ks) a)) st.
Proof.
  intros Hin.
  assert (Hop : forall a b st,
             call ev (VBuiltin op) [VInt a; VInt b] st = Ok (VInt (f a b)) st).
  { unfold integer_ops in Hin. simpl in Hin.
    destruct Hin as [[= <- <-]|[[= <- <-]|[[= <- <-]|[]]]]; reflexivity. }
  induction ks as [|k ks IH]; intros a b st.
  - apply Hop.
  - cbn [map reduce]. unfold bind. rewrite Hop, IH. reflexivity.
Qed.

(** X13. [+], [-] and [*] applied to two or more integer literals give the
    exact integer obtained by combining them from left to right; the
    integers are unbounded, and the store is unchanged. *)
Theorem integer_arithmetic_of_literals (op : builtin) (f : Z -> Z -> Z)
    (m : nat) (x0 : expr) (a b : Z) (ks : list Z) (env : handle) (st : store) :
  In (op, f) integer_ops ->
  is_special x0 = false ->
  eval (S m) x0 env st = Ok (VBuiltin op) st ->
  eval (S (S m)) (List (x0 :: map Int (a :: b :: ks))) env st
  = Ok (VInt (fold_left f (b :: ks) a)) st.
Proof.
  intros Hin Hs Hx. rewrite eval_application by assumption.
  change (eval_list (eval (S m)) (x0 :: map Int (a :: b :: ks)) env)
    with (bind (eval (S m) x0 env) (fun v =>
          bind (eval_list (eval (S m)) (map Int (a :: b :: ks)) env)
            (fun vs => ret (v :: vs)))).
  unfold bind. rewrite Hx, (eval_list_ints m (a :: b :: ks)). unfold ret.
  cbn [map apply]. apply (reduce_integers _ op f Hin).
Qed.

Lemma integer_arithmetic_of_literals_witness :
  eval 2 (List [Sym "-"; Int 100; Int 10; Int 20; Int 30]) global_env initial_store
  = Ok (VInt 40) initial_store.
Proof.
  apply (integer_arithmetic_of_literals OpSub Z.sub 0 (Sym "-") 100 10 [20; 30]).
  - simpl. tauto.
  - reflexivity.
  - reflexivity.
Defined.

Lemma call_non_procedure (ev : expr -> handle -> M value) (proc : value)
    (args : list value) (st : store) :
  is_procedure proc = false -> call ev proc args st = Raise TypeError st.
Proof. destruct proc; try discriminate; reflexivity. Qed.

(** X14. An application whose operator evaluates to something that is not
    a procedure (a number, a string, a list, a boolean, [None]) raises
    [TypeError], whatever the number of operands, and only after the
    operator and all the operands have been evaluated: the store is the
    one they left. *)
Theorem application_of_non_procedure (n : nat) (x0 : expr) (es : list expr)
    (env : handle) (st st1 : store) (proc : value) (args : list value) :
  is_special x0 = false ->
  eval_list (eval n) (x0 :: es) env st = Ok (proc :: args) st1 ->
  is_procedure proc = false ->
  eval (S n) (List (x0 :: es)) env st = Raise TypeError st1.
Proof.
  intros Hs He Hp. rewrite eval_application by assumption.
  unfold bind at 1. rewrite He. unfold apply.
  assert (Hc : forall l, call (eval n) proc l st1 = Raise TypeError st1)
    by (intros; apply call_non_procedure; assumption).
  assert (Hr : forall rest a b, reduce (eval n) proc a b rest st1 = Raise TypeError st1).
  { intros rest a b. destruct rest; cbn [reduce]; [apply Hc|].
    unfold bind. rewrite Hc. reflexivity. }
  destruct args as [|a [|b rest]].
  - apply Hc.
  - destruct (py_eq proc (VBuiltin OpAdd) || py_eq proc (VBuiltin OpSub))%bool;
      [apply Hr|apply Hc].
  - apply Hr.
Qed.

Lemma application_of_non_procedure_witness :
  eval 3 (List [Int 1; List [Sym "define"; Sym "y"; Int 5]; Int 2; Int 3])
    global_env initial_store
  = Raise TypeError (with_binding initial_store global_env (Sym "y") (VInt 5)).
Proof.
  apply (application_of_non_procedure 2 (Int 1)
           [List [Sym "define"; Sym "y"; Int 5]; Int 2; Int 3] global_env
           initial_store _ (VInt 1) [VNone; VInt 2; VInt 3]);
    reflexivity.
Defined.

(** *** Definitions and assignments *)

(** X15. [define] evaluates the expression and binds the symbol in the
    current frame, never in an outer one: every other frame is unchanged
    (an outer binding of the same symbol is shadowed, not overwritten),
    and the symbol then evaluates to the value in the current
    environment. *)
Theorem define_binds_current_frame (n m : nat) (s : string) (exp : expr)
    (env : handle) (st st1 : store) (v : value) (f : frame) :
  eval n exp env st = Ok v st1 ->
  frame_at st1 env = Some f ->
  eval (S n) (List [Sym "define"; Sym s; exp]) env st
  = Ok VNone (with_binding st1 env (Sym s) v)
  /\ eval (S m) (Sym s) env (with_binding st1 env (Sym s) v)
     = Ok v (with_binding st1 env (Sym s) v)
  /\ forall e, e <> env ->
       frame_at (with_binding st1 env (Sym s) v) e = frame_at st1 e.
Proof.
  intros He Hf.
  destruct (with_binding_frames st1 env s v f Hf) as [(f' & H1 & H2 & _) H3].
  split; [|split; [|exact H3]].
  - change (eval (S n) (List [Sym "define"; Sym s; exp]) env)
      with (bind (eval n exp env) (fun v =>
            bind (setitem env (Sym s) v) (fun _ => ret VNone))).
    unfold bind. rewrite He.
    rewrite (setitem_with_binding st1 env (Sym s) v f Hf eq_refl). reflexivity.
  - rewrite eval_symbol. unfold bind, find. cbn [find_fuel].
    rewrite H1. cbn [hashable negb].
    assert (Hm : Dict.mem (Sym s) (bindings f') = true).
    { revert H1. unfold with_binding. rewrite Hf. unfold frame_at. cbn [frames].
      rewrite (nth_error_put_same _ _ _ _ Hf). intros [= <-].
      apply mem_set_same. }
    rewrite Hm. unfold getitem. rewrite H1, H2. reflexivity.
Qed.

Lemma define_binds_current_frame_witness :
  eval 2 (List [Sym "define"; Sym "x"; Int 7]) 1%nat example_store
  = Ok VNone (with_binding example_store 1%nat (Sym "x") (VInt 7))
  /\ frame_at (with_binding example_store 1%nat (Sym "x") (VInt 7)) global_env
     = frame_at example_store global_env.
Proof.
  destruct (define_binds_current_frame 1 0 "x" (Int 7) 1%nat example_store
              example_store (VInt 7) _ eq_refl eq_refl) as (H1 & _ & H3).
  split; [exact H1|]. apply H3. discriminate.
Defined.

Lemma nearest_target (st : store) (var : expr) (env b : handle) :
  nearest st var env b ->
  exists f, frame_at st b = Some f /\ Dict.mem var (bindings f) = true.
Proof.
  induction 1 as [env f Hf Hm|]; [|assumption]. exists f. auto.
Qed.

Lemma nearest_after_binding (st : store) (s : string) (v : value)
    (env b : handle) :
  nearest st (Sym s) env b ->
  nearest (with_binding st b (Sym s) v) (Sym s) env b.
Proof.
  intros H. destruct (nearest_target _ _ _ _ H) as (fb & Hfb & Hmb).
  destruct (with_binding_frames st b s v fb Hfb) as [(f' & H1 & _ & _) H2].
  assert (Hm' : Dict.mem (Sym s) (bindings f') = true).
  { revert H1. unfold with_binding. rewrite Hfb. unfold frame_at. cbn [frames].
    rewrite (nth_error_put_same _ _ _ _ Hfb). intros [= <-]. apply mem_set_same. }
  induction H as [env f Hf Hm|env f o b Hf Hm Ho Hlt Hn IH].
  - apply (nearest_here _ _ env f' H1 Hm').
  - assert (Hne : env <> b).
    { intros ->. rewrite Hf in Hfb. injection Hfb as <-. congruence. }
    apply (nearest_outer _ _ env f o b); try assumption.
    + rewrite H2 by assumption. exact Hf.
    + apply IH; assumption.
Qed.

(** X16. After [set!] has succeeded, the symbol evaluates to the new value
    in the environment of the assignment: the frame that is overwritten is
    the one in which the lookup finds the symbol. *)
Theorem set_then_lookup (n m : nat) (s : string) (exp : expr) (env b : handle)
    (st st1 : store) (v : value) :
  eval n exp env st = Ok v st1 ->
  nearest st1 (Sym s) env b ->
  eval (S n) (List [Sym "set!"; Sym s; exp]) env st
  = Ok VNone (with_binding st1 b (Sym s) v)
  /\ eval (S m) (Sym s) env (with_binding st1 b (Sym s) v)
     = Ok v (with_binding st1 b (Sym s) v).
Proof.
  intros He Hn.
  destruct (nearest_target _ _ _ _ Hn) as (fb & Hfb & _).
  destruct (with_binding_frames st1 b s v fb Hfb) as [(f' & H1 & H2 & _) _].
  split.
  - rewrite eval_set. unfold bind at 1. rewrite He. unfold bind, find.
    rewrite (find_fuel_nearest st1 (Sym s) env b eq_refl Hn) by lia.
    rewrite (setitem_with_binding st1 b (Sym s) v fb Hfb eq_refl). reflexivity.
  - rewrite eval_symbol. unfold bind, find.
    rewrite (find_fuel_nearest _ (Sym s) env b eq_refl
               (nearest_after_binding st1 s v env b Hn)) by lia.
    unfold getitem. rewrite H1, H2. reflexivity.
Qed.

Lemma set_then_lookup_witness :
  eval 2 (List [Sym "set!"; Sym "x"; Int 3]) 1%nat example_store
  = Ok VNone (with_binding example_store global_env (Sym "x") (VInt 3))
  /\ eval 1 (Sym "x") 1%nat
       (with_binding example_store global_env (Sym "x") (VInt 3))
     = Ok (VInt 3) (with_binding example_store global_env (Sym "x") (VInt 3)).
Proof.
  apply (set_then_lookup 1 0 "x" (Int 3) 1%nat 0%nat example_store
           example_store (VInt 3) eq_refl).
  eapply nearest_outer; [reflexivity|reflexivity|reflexivity|cbv; lia|].
  eapply nearest_here; reflexivity.
Defined.

(** *** Variables in the body of a closure *)

Lemma frame_at_with_frame (st : store) (d : Dict.t) (o i : handle) :
  (i < List.length (frames st))%nat ->
  frame_at (with_frame st d o) i = frame_at st i.
Proof. intros H. unfold frame_at, with_frame. cbn [frames]. apply nth_error_app1. exact H. Qed.

Lemma nearest_with_frame (st : store) (d : Dict.t) (o : handle) (var : expr)
    (env b : handle) :
  nearest st var env b -> nearest (with_frame st d o) var env b.
Proof.
  induction 1 as [env f Hf Hm|env f o' b Hf Hm Ho Hlt Hn IH].
  - apply (nearest_here _ _ env f); [|exact Hm].
    rewrite frame_at_with_frame; [exact Hf|apply (frame_at_some _ _ _ Hf)].
  - apply (nearest_outer _ _ env f o' b); try assumption.
    rewrite frame_at_with_frame; [exact Hf|apply (frame_at_some _ _ _ Hf)].
Qed.

Lemma unbound_with_frame (st : store) (d : Dict.t) (o : handle) (var : expr)
    (env : handle) :
  unbound st var env -> unbound (with_frame st d o) var env.
Proof.
  induction 1 as [env f Hf Hm Ho|env f o' Hf Hm Ho Hlt Hn IH].
  - apply (unbound_root _ _ env f); try assumption.
    rewrite frame_at_with_frame; [exact Hf|apply (frame_at_some _ _ _ Hf)].
  - apply (unbound_outer _ _ env f o'); try assumption.
    rewrite frame_at_with_frame; [exact Hf|apply (frame_at_some _ _ _ Hf)].
Qed.

Lemma mem_set_sym (s t : string) (v : value) (d : Dict.t) :
  Dict.mem (Sym s) (Dict.set (Sym t) v d)
  = ((t =? s)%string || Dict.mem (Sym s) d)%bool.
Proof.
  induction d as [|[k w] d IH]; simpl.
  - rewrite orb_false_r. reflexivity.
  - destruct (key_eqb k (Sym t)) eqn:E; simpl.
    + apply key_eqb_sym in E. subst k. simpl.
      destruct (t =? s)%string; reflexivity.
    + rewrite IH. destruct (key_eqb k (Sym s)); simpl;
        [rewrite orb_true_r|]; reflexivity.
Qed.

Lemma get_mem (k : expr) (v : value) (d : Dict.t) :
  Dict.get k d = Some v -> Dict.mem k d = true.
Proof.
  induction d as [|[k' w] d IH]; simpl; [discriminate|].
  destruct (key_eqb k' k); [reflexivity|exact IH].
Qed.

(** The keys of the dictionary of a new [Env]: the parameters that have an
    argument. *)
Lemma update_keys (names : list string) :
  forall args d0 d s,
    Dict.update (combine (map Sym names) args) d0 = Return d ->
    Dict.mem (Sym s) d = true
    <-> Dict.mem (Sym s) d0 = true \/ In s (firstn (List.length args) names).
Proof.
  induction names as [|a names IH]; intros args d0 d s H.
  - injection H as <-. rewrite firstn_nil. simpl. tauto.
  - destruct args as [|v args]; [injection H as <-; simpl; tauto|].
    simpl in H. rewrite (IH _ _ _ s H), mem_set_sym. cbn [List.length firstn In].
    rewrite orb_true_iff, String.eqb_eq. tauto.
Qed.

(** X17. A symbol in the body of a closure is resolved in the new [Env] of
    the call and then along the chain of the environment captured by the
    closure, as that chain is when the closure is called: a parameter that
    received an argument gives the argument; any other symbol gives the
    value of its first binding on the captured chain (definitions made
    after the closure was created included), and fails when there is
    none.  A parameter without argument is such a symbol. *)
Theorem closure_variable_resolution (n : nat) (fid : nat)
    (names : list string) (s : string) (defenv : handle)
    (args : list value) (st : store) :
  (defenv < List.length (frames st))%nat ->
  exists d,
    let clo := VClosure fid (List (map Sym names)) (Sym s) defenv in
    let st' := with_frame st d defenv in
    Dict.update (combine (map Sym names) args) [] = Return d
    /\ (forall i v,
          NoDup names -> nth_error names i = Some s ->
          nth_error args i = Some v ->
          call (eval (S n)) clo args st = Ok v st')
    /\ (forall b f v,
          ~ In s (firstn (List.length args) names) ->
          nearest st (Sym s) defenv b ->
          frame_at st b = Some f ->
          Dict.get (Sym s) (bindings f) = Some v ->
          call (eval (S n)) clo args st = Ok v st')
    /\ (~ In s (firstn (List.length args) names) ->
        unbound st (Sym s) defenv ->
        call (eval (S n)) clo args st = Raise AttributeError st').
Proof.
  intros Hdef.
  destruct (call_closure (eval (S n)) fid names (Sym s) defenv args st)
    as (d & Hd & Hcall & Hframe).
  exists d. cbv zeta. split; [exact Hd|].
  assert (Hfree : ~ In s (firstn (List.length args) names) ->
            eval (S n) (Sym s) (List.length (frames st)) (with_frame st d defenv)
            = bind (find_fuel (List.length (frames st)) defenv (Sym s))
                (fun f => getitem f (Sym s)) (with_frame st d defenv)).
  { intros Hs. rewrite eval_symbol. unfold bind, find. cbn [find_fuel].
    rewrite Hframe. cbn [hashable negb bindings outer].
    assert (Hm : Dict.mem (Sym s) d = false).
    { destruct (Dict.mem (Sym s) d) eqn:E; [|reflexivity].
      apply (update_keys names args [] d s Hd) in E as [E|E];
        [discriminate|contradiction]. }
    rewrite Hm. reflexivity. }
  split; [|split].
  - intros i v Hnd Hi Hv. rewrite Hcall, eval_symbol. unfold bind, find.
    cbn [find_fuel]. rewrite Hframe. cbn [hashable negb bindings].
    pose proof (update_positional names Hnd args [] d i s v Hd Hi Hv) as Hg.
    rewrite (get_mem _ _ _ Hg). unfold getitem. rewrite Hframe.
    cbn [hashable negb bindings]. rewrite Hg. reflexivity.
  - intros b f v Hs Hn Hf Hg. rewrite Hcall, (Hfree Hs). unfold bind.
    rewrite (find_fuel_nearest _ (Sym s) defenv b eq_refl
               (nearest_with_frame st d defenv _ _ _ Hn)) by exact Hdef.
    unfold getitem.
    rewrite frame_at_with_frame by (apply (frame_at_some _ _ _ Hf)).
    rewrite Hf. cbn [hashable negb]. rewrite Hg. reflexivity.
  - intros Hs Hu. rewrite Hcall, (Hfree Hs). unfold bind.
    rewrite (find_fuel_unbound _ (Sym s) defenv eq_refl
               (unbound_with_frame st d defenv _ _ Hu)) by exact Hdef.
    reflexivity.
Qed.

Lemma closure_variable_resolution_witness :
  call (eval 1) (VClosure 0 (List [Sym "y"; Sym "z"]) (Sym "x") global_env)
    [VInt 1; VInt 2] example_store
  = Ok (VInt 10)
      (with_frame example_store [(Sym "y", VInt 1); (Sym "z", VInt 2)] global_env).
Proof.
  destruct (closure_variable_resolution 0 0 ["y"; "z"] "x" global_env
              [VInt 1; VInt 2] example_store) as (d & Hd & _ & H & _).
  - cbv. lia.
  - injection Hd as <-.
    eapply (H global_env _ (VInt 10)).
    + simpl. intros [E|[E|[]]]; discriminate.
    + eapply nearest_here; reflexivity.
    + reflexivity.
    + reflexivity.
Defined.

(** X18. The number of arguments of a closure is not checked: creating the
    [Env] of a call never fails when the parameters are symbols, and the
    [Env] binds exactly the parameters that have an argument; arguments
    beyond the parameters are dropped. *)
Theorem closure_arity_unchecked (names : list string) (args : list value)
    (o : handle) (st : store) :
  exists d,
    new_env (List (map Sym names)) args o st
    = Ok (List.length (frames st)) (with_frame st d o)
    /\ (forall s, Dict.mem (Sym s) d = true
                  <-> In s (firstn (List.length args) names))
    /\ (forall extra,
          (List.length names <= List.length args)%nat ->
          new_env (List (map Sym names)) (args ++ extra) o st
          = new_env (List (map Sym names)) args o st).
Proof.
  destruct (update_syms names args []) as [d Hd]. exists d.
  split; [|split].
  - unfold new_env. cbn [iterate]. rewrite Hd. reflexivity.
  - intros s. rewrite (update_keys names args [] d s Hd). simpl.
    split; [intros [H|H]; [discriminate|exact H]|auto].
  - intros extra Hlen. unfold new_env. cbn [iterate].
    assert (E : combine (map Sym names) (args ++ extra)
                = combine (map Sym names) args).
    { clear -Hlen. revert args Hlen.
      induction names as [|a names IH]; intros args Hlen; [reflexivity|].
      destruct args as [|v args]; [simpl in Hlen; lia|].
      simpl. f_equal. apply IH. simpl in Hlen. lia. }
    rewrite E. reflexivity.
Qed.

(** *** A closure applied to more than two arguments *)

Lemma unbound_valid (st : store) (var : expr) (env : handle) :
  unbound st var env -> (env < List.length (frames st))%nat.
Proof. intros [e f Hf _ _|e f o Hf _ _ _ _]; apply (frame_at_some _ _ _ Hf). Qed.

(** C1. A closure applied to at most two arguments is called as the
    design says ([closure_application] above); beyond two it is not: the
    loop of the application branch, written for the built-in operators,
    also runs for a closure.  With three or more arguments the closure is
    first called with the first two values only: the new [Env] binds the
    first two parameters and no other, its outer link is the captured
    environment, and the value of the body is then passed on with the
    third argument to a further call.  So a body that reads a later
    parameter does not receive the argument at its position: when the
    symbol is not bound on the captured chain the application raises
    [AttributeError]. *)
Theorem closure_application_beyond_two_arguments (n : nat) (x0 : expr)
    (es : list expr) (env defenv : handle) (st st1 : store) (fid : nat)
    (names : list string) (body : expr) (v1 v2 v3 : value)
    (rest : list value) :
  is_special x0 = false ->
  eval_list (eval n) (x0 :: es) env st
  = Ok (VClosure fid (List (map Sym names)) body defenv
          :: v1 :: v2 :: v3 :: rest) st1 ->
  exists d,
    let clo := VClosure fid (List (map Sym names)) body defenv in
    let st' := with_frame st1 d defenv in
    Dict.update (combine (map Sym names) [v1; v2]) [] = Return d
    /\ (forall s, Dict.mem (Sym s) d = true <-> In s (firstn 2 names))
    /\ frame_at st' (List.length (frames st1)) = Some (Frame d (Some defenv))
    /\ eval (S n) (List (x0 :: es)) env st
       = bind (eval n body (List.length (frames st1)))
           (fun r => reduce (eval n) clo r v3 rest) st'
    /\ (forall s,
          body = Sym s ->
          ~ In s (firstn 2 names) ->
          unbound st1 (Sym s) defenv ->
          eval (S n) (List (x0 :: es)) env st = Raise AttributeError st').
Proof.
  intros Hs He.
  destruct (call_closure (eval n) fid names body defenv [v1; v2] st1)
    as (d & Hd & Hcall & Hframe).
  exists d. cbv zeta. split; [exact Hd|].
  assert (Hkeys : forall s, Dict.mem (Sym s) d = true <-> In s (firstn 2 names)).
  { intros s. rewrite (update_keys names [v1; v2] [] d s Hd).
    cbn [Dict.mem List.length]. intuition discriminate. }
  assert (E : eval (S n) (List (x0 :: es)) env st
              = bind (eval n body (List.length (frames st1)))
                  (fun r =>
                     reduce (eval n)
                       (VClosure fid (List (map Sym names)) body defenv)
                       r v3 rest) (with_frame st1 d defenv)).
  { rewrite eval_application by assumption.
    unfold bind at 1. rewrite He. cbn [apply reduce].
    unfold bind. rewrite Hcall. reflexivity. }
  split; [exact Hkeys|]. split; [exact Hframe|]. split; [exact E|].
  intros s -> Hnot Hu. rewrite E.
  destruct n as [|n]; [discriminate He|].
  rewrite eval_symbol. unfold bind, find. cbn [find_fuel].
  rewrite Hframe. cbn [hashable negb bindings outer].
  assert (Hm : Dict.mem (Sym s) d = false).
  { destruct (Dict.mem (Sym s) d) eqn:Em; [|reflexivity].
    apply Hkeys in Em. contradiction. }
  rewrite Hm.
  rewrite (find_fuel_unbound _ (Sym s) defenv eq_refl
             (unbound_with_frame st1 d defenv _ _ Hu))
    by (apply (unbound_valid _ _ _ Hu)).
  reflexivity.
Qed.

Lemma closure_application_beyond_two_arguments_witness :
  let st1 := Store (frames initial_store) 1 in
  let d := [(Sym "a", VInt 1); (Sym "b", VInt 2)] in
  eval 3 (List [List [Sym "lambda"; List [Sym "a"; Sym "b"; Sym "c"]; Sym "c"];
                Int 1; Int 2; Int 3]) global_env initial_store
  = Raise AttributeError (with_frame st1 d global_env)
  /\ Dict.mem (Sym "c") d = false.
Proof.
  intros st1 d.
  destruct (closure_application_beyond_two_arguments 2
              (List [Sym "lambda"; List [Sym "a"; Sym "b"; Sym "c"]; Sym "c"])
              [Int 1; Int 2; Int 3] global_env global_env initial_store st1 0
              ["a"; "b"; "c"] (Sym "c") (VInt 1) (VInt 2) (VInt 3) [])
    as (d' & Hd & _ & _ & _ & H).
  - reflexivity.
  - reflexivity.
  - injection Hd as <-. split; [|reflexivity].
    apply (H "c" eq_refl).
    + simpl. intros [E|[E|[]]]; discriminate.
    + eapply unbound_root; reflexivity.
Defined.

(** *** What evaluation does to the store *)

(** X19. Evaluation keeps the store well formed: from a well-formed store
    and an existing environment, whether it returns or raises, every
    outer link still leads to an older frame, no frame has disappeared,
    and the closures held by the result and by the frames have
    environments that exist. *)
Theorem eval_keeps_store_well_formed (n : nat) (x : expr) (env : handle)
    (st : store) :
  store_ok st ->
  (env < List.length (frames st))%nat ->
  match eval n x env st with
  | Ok v st' =>
      store_ok st'
      /\ (List.length (frames st) <= List.length (frames st'))%nat
      /\ value_ok (List.length (frames st')) v
  | Raise _ st' =>
      store_ok st'
      /\ (List.length (frames st) <= List.length (frames st'))%nat
  | Diverge => True
  end.
Proof.
  intros Hok He.
  apply (eval_keeps n x env (List.length (frames st)) He st Hok (Nat.le_refl _)).
Qed.

Lemma eval_keeps_store_well_formed_witness :
  exists v st',
    eval 5 (List [List [Sym "lambda"; List [Sym "x"];
                        List [Sym "lambda"; List []; Sym "x"]]; Int 1])
      global_env initial_store = Ok v st'
    /\ store_ok st' /\ value_ok (List.length (frames st')) v.
Proof.
  pose proof (eval_keeps_store_well_formed 5
                (List [List [Sym "lambda"; List [Sym "x"];
                             List [Sym "lambda"; List []; Sym "x"]]; Int 1])
                global_env initial_store initial_store_ok (Nat.lt_0_succ 0)) as H.
  destruct (eval 5 _ global_env initial_store) as [v st'| |] eqn:E;
    try discriminate E.
  exists v, st'. split; [reflexivity|]. destruct H as (H1 & _ & H3). auto.
Defined.

Lemma grows_refl (st : store) : grows st st.
Proof. split; [lia|]. intros i f Hf. exists f. auto. Qed.

Lemma grows_trans (a b c : store) : grows a b -> grows b c -> grows a c.
Proof.
  intros [H1 H2] [H3 H4]. split; [lia|].
  intros i f Hf. destruct (H2 i f Hf) as (g & Hg & Ho & Hk).
  destruct (H4 i g Hg) as (h & Hh & Ho' & Hk').
  exists h. split; [exact Hh|]. split; [congruence|]. auto.
Qed.

Lemma steady_ret {A} (a : A) : steady (ret a).
Proof. intros st. apply grows_refl. Qed.

Lemma steady_raise {A} (e : exn) : steady (@raise A e).
Proof. intros st. apply grows_refl. Qed.

Lemma steady_lift {A} (p : pure A) : steady (lift p).
Proof. destruct p; [apply steady_ret|apply steady_raise]. Qed.

Lemma steady_bind {A B} (c : M A) (k : A -> M B) :
  steady c -> (forall a, steady (k a)) -> steady (bind c k).
Proof.
  intros Hc Hk st. unfold bind. specialize (Hc st).
  destruct (c st) as [a st1|e st1|]; [|exact Hc|exact I].
  specialize (Hk a st1). destruct (k a st1); try exact I;
    apply (grows_trans _ _ _ Hc Hk).
Qed.

Lemma steady_find (fuel : nat) (var : expr) :
  forall env, steady (find_fuel fuel env var).
Proof.
  induction fuel as [|fuel IH]; intros env st; simpl; [exact I|].
  destruct (frame_at st env) as [f|]; [|exact I].
  destruct (negb (hashable var)); [apply grows_refl|].
  destruct (Dict.mem var (bindings f)); [apply grows_refl|].
  destruct (outer f); [apply IH|apply grows_refl].
Qed.

Lemma steady_getitem (env : handle) (var : expr) : steady (getitem env var).
Proof.
  intros st. unfold getitem. destruct (frame_at st env) as [f|]; [|exact I].
  destruct (negb (hashable var)); [apply grows_refl|].
  destruct (Dict.get var (bindings f)); apply grows_refl.
Qed.

Lemma mem_set_mono (k k' : expr) (v : value) (d : Dict.t) :
  Dict.mem k d = true -> Dict.mem k (Dict.set k' v d) = true.
Proof.
  induction d as [|[k0 w] d IH]; simpl; [discriminate|].
  intros H. destruct (key_eqb k0 k'); simpl;
    destruct (key_eqb k0 k); simpl in *; auto.
Qed.

Lemma steady_setitem (env : handle) (var : expr) (v : value) :
  steady (setitem env var v).
Proof.
  intros st. unfold setitem. destruct (frame_at st env) as [f|] eqn:Hf; [|exact I].
  destruct (negb (hashable var)); [apply grows_refl|].
  split; [simpl; lia|]. intros i g Hg. unfold frame_at. cbn [frames].
  destruct (Nat.eq_dec env i) as [->|Hne].
  - rewrite (nth_error_put_same _ _ _ _ Hf). rewrite Hf in Hg. injection Hg as <-.
    eexists. split; [reflexivity|]. split; [reflexivity|].
    intros k. apply mem_set_mono.
  - rewrite nth_error_put_other by assumption. exists g. auto.
Qed.

Lemma steady_new_env (params : expr) (args : list value) (o : handle) :
  steady (new_env params args o).
Proof.
  intros st. unfold new_env. destruct (iterate params); [|apply grows_refl].
  destruct (Dict.update _ _); [|apply grows_refl].
  split; [simpl; lia|]. intros i f Hf. exists f. split; [|auto].
  unfold frame_at. cbn [frames].
  rewrite nth_error_app1; [exact Hf|apply (frame_at_some _ _ _ Hf)].
Qed.

Lemma steady_new_closure (vars exp : expr) (env : handle) :
  steady (new_closure vars exp env).
Proof.
  intros st. split; [simpl; lia|]. intros i f Hf. exists f. auto.
Qed.

Section Steady.

Variable ev : expr -> handle -> M value.

Hypothesis ev_steady : forall x env, steady (ev x env).

Lemma steady_call (proc : value) (args : list value) :
  steady (call ev proc args).
Proof.
  destruct proc; cbn [call]; try apply steady_raise.
  - destruct args as [|a [|b [|c args]]];
      try apply steady_raise. apply steady_lift.
  - apply steady_bind; [apply steady_new_env|]. intros. apply ev_steady.
Qed.

Lemma steady_reduce (rest : list value) :
  forall proc a b, steady (reduce ev proc a b rest).
Proof.
  induction rest as [|c rest IH]; intros proc a b; cbn [reduce].
  - apply steady_call.
  - apply steady_bind; [apply steady_call|]. intros. apply IH.
Qed.

Lemma steady_apply (proc : value) (exps : list value) :
  steady (apply ev proc exps).
Proof.
  unfold apply. destruct exps as [|a [|b rest]].
  - apply steady_call.
  - destruct (py_eq proc (VBuiltin OpAdd) || py_eq proc (VBuiltin OpSub))%bool;
      [apply steady_reduce|apply steady_call].
  - apply steady_reduce.
Qed.

Lemma steady_eval_list (xs : list expr) (env : handle) :
  steady (eval_list ev xs env).
Proof.
  induction xs as [|x xs IH]; cbn [eval_list]; [apply steady_ret|].
  apply steady_bind; [apply ev_steady|]. intros.
  apply steady_bind; [apply IH|]. intros. apply steady_ret.
Qed.

Lemma steady_cond_loop (clauses : list expr) (env : handle) :
  steady (cond_loop ev clauses env).
Proof.
  induction clauses as [|c clauses IH]; cbn [cond_loop]; [apply steady_ret|].
  apply steady_bind; [apply steady_lift|]. intros pe.
  apply steady_bind; [apply ev_steady|]. intros t.
  destruct (truthy t); [apply ev_steady|apply IH].
Qed.

Lemma steady_begin_loop (exps : list expr) :
  forall val env, steady (begin_loop ev exps val env).
Proof.
  induction exps as [|e exps IH]; intros val env; cbn [begin_loop].
  - destruct val; [apply steady_ret|apply steady_raise].
  - apply steady_bind; [apply ev_steady|]. intros. apply IH.
Qed.

Lemma steady_eval_body (x : expr) (env : handle) : steady (eval_body ev x env).
Proof.
  destruct x as [n|f|s|xs]; cbn [eval_body]; try apply steady_ret.
  - apply steady_bind; [apply steady_find|]. intro. apply steady_getitem.
  - destruct xs as [|x0 args]; [apply steady_raise|].
    repeat first
      [ apply ev_steady
      | apply steady_ret
      | apply steady_raise
      | apply steady_lift
      | apply steady_find
      | apply steady_setitem
      | apply steady_new_closure
      | apply steady_cond_loop
      | apply steady_begin_loop
      | apply steady_eval_list
      | apply steady_apply
      | apply steady_bind; [|intro]
      | match goal with
        | |- steady (if ?c then _ else _) => destruct c
        | |- steady (match ?e with _ => _ end) => destruct e
        end ].
Qed.

End Steady.

Lemma steady_eval (n : nat) : forall x env, steady (eval n x env).
Proof.
  induction n as [|n IH]; intros x env; [intros st; exact I|].
  cbn [eval]. apply steady_eval_body. exact IH.
Qed.

(** X20. Evaluation never removes anything from the store: whether it
    returns or raises, every frame is still there with the same outer
    link, every symbol bound in a frame is still bound in it, and the
    count of closures made has not decreased. *)
Theorem eval_only_grows_store (n : nat) (x : expr) (env : handle) (st : store) :
  match eval n x env st with
  | Ok _ st' | Raise _ st' => grows st st'
  | Diverge => True
  end.
Proof. apply (steady_eval n x env st). Qed.

(** ** Loading a program *)

Lemma paren_sums_acc (cs : list Z) :
  forall rps total,
    paren_sums_loop cs rps total = rps ++ paren_sums_loop cs [] total.
Proof.
  induction cs as [|c cs IH]; intros rps total; cbn [paren_sums_loop].
  - symmetry. apply List.app_nil_r.
  - rewrite IH, (IH ([] ++ [total + c])). rewrite <- List.app_assoc. reflexivity.
Qed.

Lemma paren_sums_cons (c : Z) (cs : list Z) (total : Z) :
  paren_sums_loop (c :: cs) [] total
  = (total + c) :: paren_sums_loop cs [] (total + c).
Proof. cbn [paren_sums_loop]. rewrite paren_sums_acc. reflexivity. Qed.

Lemma paren_sums_app (a b : list Z) :
  forall total,
    paren_sums_loop (a ++ b) [] total
    = paren_sums_loop a [] total
      ++ paren_sums_loop b [] (total + fold_right Z.add 0 a).
Proof.
  induction a as [|c a IH]; intros total.
  - simpl. rewrite Z.add_0_r. reflexivity.
  - cbn [app fold_right]. rewrite !paren_sums_cons, IH. cbn [app].
    do 3 f_equal. lia.
Qed.

Lemma paren_sums_length (cs : list Z) :
  forall total, List.length (paren_sums_loop cs [] total) = List.length cs.
Proof.
  induction cs as [|c cs IH]; intros total; [reflexivity|].
  rewrite paren_sums_cons. simpl. rewrite IH. reflexivity.
Qed.

Lemma count_app (c : ascii) (a b : string) :
  Text.count c (a ++ b) = Text.count c a + Text.count c b.
Proof. induction a as [|x a IH]; simpl; [reflexivity|]. rewrite IH. lia. Qed.

Lemma count_open_parens_app (a b : string) :
  count_open_parens (a ++ b) = count_open_parens a + count_open_parens b.
Proof. unfold count_open_parens. rewrite !count_app. lia. Qed.

Lemma concat_empty_cons (x : string) (l : list string) :
  String.concat EmptyString (x :: l) = (x ++ String.concat EmptyString l)%string.
Proof. destruct l; simpl; [rewrite append_empty_r|]; reflexivity. Qed.

Lemma concat_empty_app (a b : list string) :
  String.concat EmptyString (a ++ b)
  = (String.concat EmptyString a ++ String.concat EmptyString b)%string.
Proof.
  induction a as [|x a IH]; [reflexivity|].
  cbn [app]. rewrite !concat_empty_cons, IH, append_assoc. reflexivity.
Qed.

Lemma count_open_parens_concat (lines : list string) :
  count_open_parens (String.concat EmptyString lines)
  = fold_right Z.add 0 (map count_open_parens lines).
Proof.
  induction lines as [|l lines IH]; [reflexivity|].
  rewrite concat_empty_cons, count_open_parens_app, IH. reflexivity.
Qed.

Lemma paren_sums_nth (cs : list Z) :
  forall total k,
    (k < List.length cs)%nat ->
    nth_error (paren_sums_loop cs [] total) k
    = Some (total + fold_right Z.add 0 (firstn (S k) cs)).
Proof.
  induction cs as [|c cs IH]; intros total k Hk; [simpl in Hk; lia|].
  rewrite paren_sums_cons. destruct k as [|k].
  - simpl. f_equal. lia.
  - cbn [nth_error]. rewrite IH by (simpl in Hk; lia).
    cbn [firstn fold_right]. f_equal. lia.
Qed.

(** X21. [running_paren_sums] returns one number per line, and the number
    for a line is the count of opening minus closing parentheses in the
    text of the program up to and including that line. *)
Theorem running_paren_sums_counts (program : list string) :
  List.length (running_paren_sums program) = List.length program
  /\ forall k,
       (k < List.length program)%nat ->
       nth_error (running_paren_sums program) k
       = Some (count_open_parens
                 (String.concat EmptyString (firstn (S k) program))).
Proof.
  unfold running_paren_sums. split.
  - rewrite paren_sums_length. apply length_map.
  - intros k Hk. rewrite paren_sums_nth by (rewrite length_map; exact Hk).
    rewrite count_open_parens_concat, firstn_map. reflexivity.
Qed.

(** *** The loop of [load] *)

Lemma after_after (a b : list event) (r : option (list event * store)) :
  after a (after b r) = after (a ++ b) r.
Proof. destruct r as [[o st]|]; simpl; [rewrite List.app_assoc|]; reflexivity. Qed.

(** What was written before does not influence the loop. *)
Lemma load_loop_out (fuel : nat) (pairs : list (Z * string)) :
  forall full_line st out,
    load_loop fuel pairs full_line st out
    = after out (load_loop fuel pairs full_line st []).
Proof.
  induction pairs as [|[z l] pairs IH]; intros full_line st out.
  - simpl. rewrite List.app_nil_r. reflexivity.
  - cbn [load_loop].
    destruct ((z =? 0) && negb (Str.is_empty (Text.strip (full_line ++ Text.strip l ++ " "))))%bool;
      [|apply IH].
    destruct (parse (full_line ++ Text.strip l ++ " ")) as [x ts|e ts|];
      try reflexivity.
    destruct (eval fuel x global_env st) as [val st'|e st'|]; try reflexivity.
    rewrite IH. symmetry. rewrite IH, after_after. symmetry.
    destruct val; cbn [app]; rewrite ?List.app_nil_r; reflexivity.
Qed.

Lemma rstrip_blank (s : string) :
  Str.is_empty (Text.rstrip s) = Str.forallb Str.is_space s.
Proof.
  induction s as [|c s IH]; [reflexivity|].
  simpl. rewrite IH.
  destruct (Str.forallb Str.is_space s), (Str.is_space c); reflexivity.
Qed.

Lemma lstrip_blank (s : string) :
  Str.forallb Str.is_space (Text.lstrip s) = Str.forallb Str.is_space s.
Proof.
  induction s as [|c s IH]; [reflexivity|].
  simpl. destruct (Str.is_space c) eqn:E; simpl; [exact IH|].
  rewrite E. reflexivity.
Qed.

(** A text is stripped to nothing exactly when it is made of whitespace. *)
Lemma strip_blank (s : string) :
  Str.is_empty (Text.strip s) = Str.forallb Str.is_space s.
Proof. unfold Text.strip. rewrite rstrip_blank. apply lstrip_blank. Qed.

Lemma load_loop_leading_space (fuel : nat) (ws : string)
    (pairs : list (Z * string)) :
  Str.forallb Str.is_space ws = true ->
  forall full_line st out,
    load_loop fuel pairs (ws ++ full_line) st out
    = load_loop fuel pairs full_line st out.
Proof.
  intros Hws. induction pairs as [|[z l] pairs IH]; intros full_line st out;
    [reflexivity|].
  cbn [load_loop]. rewrite append_assoc.
  set (y := (full_line ++ Text.strip l ++ " ")%string).
  rewrite !strip_blank, forallb_app, Hws. cbn [andb].
  assert (Hp : parse (ws ++ y) = parse y).
  { pose proof (outer_space ws y EmptyString Hws eq_refl)
      as (_ & _ & H).
    rewrite append_empty_r in H. exact H. }
  rewrite Hp.
  destruct ((z =? 0) && negb (Str.forallb Str.is_space y))%bool; [reflexivity|].
  apply IH.
Qed.

Lemma joined_app (a b : list string) :
  joined (a ++ b) = (joined a ++ joined b)%string.
Proof. unfold joined. rewrite map_app. apply concat_empty_app. Qed.

Lemma joined_cons (l : string) (lines : list string) :
  joined (l :: lines) = ((Text.strip l ++ " ") ++ joined lines)%string.
Proof. unfold joined. cbn [map]. apply concat_empty_cons. Qed.

(** Lines whose running sum is not zero are accumulated. *)
Lemma load_loop_accumulate (fuel : nat) (lines : list string) :
  forall sums more full_line st out,
    List.length sums = List.length lines ->
    Forall (fun z => z <> 0) sums ->
    load_loop fuel (combine sums lines ++ more) full_line st out
    = load_loop fuel more (full_line ++ joined lines) st out.
Proof.
  induction lines as [|l lines IH]; intros sums more full_line st out Hlen Hnz.
  - destruct sums; [|discriminate]. simpl. rewrite append_empty_r. reflexivity.
  - destruct sums as [|z sums]; [discriminate|].
    inversion Hnz as [|? ? Hz Hnz']; subst.
    cbn [combine app load_loop].
    apply Z.eqb_neq in Hz. rewrite Hz. cbn [andb].
    rewrite IH by (try (simpl in Hlen; lia); assumption).
    rewrite joined_cons, !append_assoc. reflexivity.
Qed.

Lemma combine_app {A B} (a1 a2 : list A) (b1 b2 : list B) :
  List.length a1 = List.length b1 ->
  combine (a1 ++ a2) (b1 ++ b2) = combine a1 b1 ++ combine a2 b2.
Proof.
  revert b1. induction a1 as [|x a1 IH]; intros [|y b1] H; try discriminate;
    [reflexivity|].
  simpl. f_equal. apply IH. simpl in H. lia.
Qed.

(** The first form of a program, from the first line to the line on which
    the running count of parentheses comes back to zero. *)
Lemma load_form (fuel : nat) (init : list string) (l : string)
    (rest : list string) (st : store) :
  Forall (fun z => z <> 0) (running_paren_sums init) ->
  count_open_parens (String.concat EmptyString (init ++ [l])) = 0 ->
  Text.strip (joined (init ++ [l])) <> EmptyString ->
  load_program fuel ((init ++ [l]) ++ rest) st
  = match run fuel (joined (init ++ [l])) st with
    | Ok val st' => after (printed val) (load_program fuel rest st')
    | Raise e st' => Some ([Failed e], st')
    | Diverge => None
    end.
Proof.
  intros Hnz Hzero Hne.
  unfold load_program, running_paren_sums.
  rewrite !map_app, !paren_sums_app. cbn [map]. rewrite paren_sums_cons.
  cbn [paren_sums_loop]. rewrite Z.add_0_l.
  rewrite count_open_parens_concat, map_app, fold_right_app in Hzero.
  cbn [map fold_right] in Hzero.
  assert (Hsum : forall a b, fold_right Z.add a b = a + fold_right Z.add 0 b).
  { intros a b. induction b as [|x b IH]; simpl; lia. }
  rewrite Hsum in Hzero.
  assert (Htot : fold_right Z.add 0 (map count_open_parens init ++ [count_open_parens l]) = 0).
  { rewrite fold_right_app. cbn [fold_right]. rewrite Hsum. lia. }
  rewrite Htot.
  assert (Hlast : fold_right Z.add 0 (map count_open_parens init) + count_open_parens l = 0)
    by lia.
  rewrite Hlast.
  rewrite combine_app
    by (rewrite length_app, !paren_sums_length, !length_app, !length_map;
        reflexivity).
  rewrite combine_app by (rewrite paren_sums_length, length_map; reflexivity).
  rewrite <- List.app_assoc.
  rewrite load_loop_accumulate;
    [|rewrite paren_sums_length, length_map; reflexivity|exact Hnz].
  cbn [combine app load_loop append Z.eqb andb].
  assert (Hj : (joined init ++ Text.strip l ++ " ")%string = joined (init ++ [l])).
  { rewrite joined_app, joined_cons.
    change (joined []) with EmptyString. rewrite append_empty_r.
    reflexivity. }
  rewrite Hj.
  destruct (Str.is_empty (Text.strip (joined (init ++ [l])))) eqn:Eb.
  { destruct (Text.strip (joined (init ++ [l]))); [contradiction|discriminate]. }
  cbn [negb]. unfold run.
  destruct (parse (joined (init ++ [l]))) as [x ts|e ts|]; try reflexivity.
  destruct (eval fuel x global_env st) as [val st'|e st'|]; try reflexivity.
  rewrite load_loop_out. destruct val; reflexivity.
Qed.

(** X22. [load] evaluates a form when the running count of parentheses
    comes back to zero.  When the first lines of a program hold one form
    (the count is not zero after any of the lines before the last, and is
    zero after the last), [load] parses and evaluates once the text made
    of these lines, each stripped and followed by a space; it writes the
    value unless it is [None], and goes on with the rest of the program
    from an empty text.  When parsing or evaluation raises, it reports the
    exception and does not run the rest. *)
Theorem load_first_form (fuel : nat) (init : list string) (l : string)
    (rest : list string) (st : store) :
  Forall (fun z => z <> 0) (running_paren_sums init) ->
  count_open_parens (String.concat EmptyString (init ++ [l])) = 0 ->
  Text.strip (joined (init ++ [l])) <> EmptyString ->
  load_program fuel ((init ++ [l]) ++ rest) st
  = match run fuel (joined (init ++ [l])) st with
    | Ok val st' => after (printed val) (load_program fuel rest st')
    | Raise e st' => Some ([Failed e], st')
    | Diverge => None
    end.
Proof. apply load_form. Qed.

Lemma load_first_form_witness :
  option_map fst
    (load_program 9
       ["(define f (lambda (n)"; "    (+ n 1)))   "; "(f 2)"; "(car 1)"; "(f 3)"]
       initial_store)
  = Some [Printed (VInt 3); Failed TypeError].
Proof.
  assert (H1 : Forall (fun z => z <> 0)
                 (running_paren_sums ["(define f (lambda (n)"]))
    by (vm_compute; constructor; [discriminate|constructor]).
  pose proof (load_first_form 9 ["(define f (lambda (n)"] "    (+ n 1)))   "
                ["(f 2)"; "(car 1)"; "(f 3)"] initial_store H1 eq_refl) as H.
  cbn [app] in H. rewrite H; [reflexivity|discriminate].
Defined.

Lemma strip_space (l : string) :
  Str.forallb Str.is_space l = true -> Text.strip l = EmptyString.
Proof.
  intros H. rewrite <- strip_blank in H.
  destruct (Text.strip l); [reflexivity|discriminate].
Qed.

Lemma count_space (c : ascii) (l : string) :
  Str.is_space c = false ->
  Str.forallb Str.is_space l = true -> Text.count c l = 0.
Proof.
  intros Hc. induction l as [|x l IH]; [reflexivity|].
  simpl. intros H. apply andb_true_iff in H as [Hx Hl].
  rewrite (IH Hl). destruct (Ascii.eqb_spec x c) as [->|_]; [congruence|reflexivity].
Qed.

Lemma load_loop_blank (fuel : nat) (blank : list string) :
  Forall (fun l => Str.forallb Str.is_space l = true) blank ->
  forall more ws st out,
    Str.forallb Str.is_space ws = true ->
    load_loop fuel (combine (map (fun _ => 0) blank) blank ++ more) ws st out
    = load_loop fuel more EmptyString st out.
Proof.
  induction 1 as [|l blank Hl _ IH]; intros more ws st out Hws.
  - simpl. rewrite <- (append_empty_r ws).
    apply load_loop_leading_space. exact Hws.
  - cbn [map combine app load_loop].
    rewrite (strip_space l Hl), strip_blank, forallb_app, Hws. cbn.
    apply IH. rewrite forallb_app, Hws. reflexivity.
Qed.

(** X23. Lines made of whitespace only, before a form, are skipped: [load]
    runs the program as if they were not there. *)
Theorem load_skips_blank_lines (fuel : nat) (blank program : list string)
    (st : store) :
  Forall (fun l => Str.forallb Str.is_space l = true) blank ->
  load_program fuel (blank ++ program) st = load_program fuel program st.
Proof.
  intros Hb. unfold load_program, running_paren_sums.
  assert (Hc : map count_open_parens blank = map (fun _ => 0) blank).
  { induction Hb as [|l blank Hl _ IH]; [reflexivity|].
    cbn [map]. rewrite IH. f_equal. unfold count_open_parens.
    rewrite !count_space by (assumption || reflexivity). reflexivity. }
  assert (Hz : forall l : list string,
             paren_sums_loop (map (fun _ => 0) l) [] 0 = map (fun _ => 0) l
             /\ fold_right Z.add 0 (map (fun _ : string => 0) l) = 0).
  { induction l as [|x l [IH1 IH2]]; [split; reflexivity|].
    cbn [map]. rewrite paren_sums_cons. cbn [fold_right]. rewrite IH2.
    split; [|reflexivity]. simpl. rewrite IH1. reflexivity. }
  rewrite map_app, paren_sums_app, Hc.
  destruct (Hz blank) as [-> ->].
  rewrite combine_app by (rewrite length_map; reflexivity).
  apply load_loop_blank; [exact Hb|reflexivity].
Qed.

Lemma load_skips_blank_lines_witness :
  load_program 9 [" "; "   "; "(+ 1 2)"] initial_store
  = Some ([Printed (VInt 3)], initial_store).
Proof.
  assert (H1 : Forall (fun l => Str.forallb Str.is_space l = true) [" "; "   "])
    by (repeat constructor).
  pose proof (load_skips_blank_lines 9 [" "; "   "] ["(+ 1 2)"] initial_store H1)
    as H.
  cbn [app] in H. rewrite H. reflexivity.
Defined.

(** X24. A line with balanced parentheses that is not blank, at the head of
    a program, is parsed and evaluated as the same line typed at the
    prompt; its value is written unless it is [None]; an exception ends
    the loading, and the lines after it are not run. *)
Theorem load_complete_line (fuel : nat) (l : string) (rest : list string)
    (st : store) :
  count_open_parens l = 0 ->
  Str.forallb Str.is_space l = false ->
  load_program fuel (l :: rest) st
  = match run fuel l st with
    | Ok val st' => after (printed val) (load_program fuel rest st')
    | Raise e st' => Some ([Failed e], st')
    | Diverge => None
    end.
Proof.
  intros Hc Hb.
  destruct (strip_split l) as (a & b & E & Ha & Hb').
  assert (Hp : parse (joined [l]) = parse l).
  { transitivity (parse (Text.strip l)).
    - exact (proj2 (proj2 (outer_space EmptyString
                             (Text.strip l) " " eq_refl eq_refl))).
    - pose proof (outer_space a (Text.strip l) b Ha Hb')
        as (_ & _ & H2).
      rewrite <- E in H2. symmetry. exact H2. }
  assert (Hrun : run fuel (joined [l]) st = run fuel l st)
    by (unfold run; rewrite Hp; reflexivity).
  rewrite <- Hrun.
  apply (load_form fuel [] l rest st).
  - constructor.
  - simpl. rewrite Hc. reflexivity.
  - intros Hs. cbn [app] in Hs. pose proof (strip_blank (joined [l])) as K.
    rewrite Hs in K. cbn [Str.is_empty] in K. symmetry in K.
    change (joined [l]) with (Text.strip l ++ " ")%string in K.
    rewrite forallb_app in K. apply andb_true_iff in K as [K _].
    rewrite E, !forallb_app, Ha, K, Hb' in Hb. discriminate.
Qed.

Lemma load_complete_line_witness :
  load_program 9 ["(define x 1)"; "x"] initial_store
  = Some ([Printed (VInt 1)],
          with_binding initial_store global_env (Sym "x") (VInt 1)).
Proof.
  rewrite (load_complete_line 9 "(define x 1)" ["x"] initial_store);
    reflexivity.
Defined.

(** ** The recursion budget *)

Lemma refines_refl {A} (c : M A) : refines c c.
Proof. intros st _. reflexivity. Qed.

Lemma refines_bind {A B} (c c' : M A) (k k' : A -> M B) :
  refines c c' -> (forall a, refines (k a) (k' a)) ->
  refines (bind c k) (bind c' k').
Proof.
  intros Hc Hk st H. unfold bind in *.
  destruct (c st) as [a st1|e st1|] eqn:E; [| |congruence];
    rewrite (Hc st) by congruence; rewrite E; [|reflexivity].
  apply Hk. exact H.
Qed.

Section Refines.

Variables ev ev' : expr -> handle -> M value.

Hypothesis ev_refines : forall x env, refines (ev x env) (ev' x env).

Lemma refines_call (proc : value) (args : list value) :
  refines (call ev proc args) (call ev' proc args).
Proof.
  destruct proc; cbn [call]; try apply refines_refl.
  apply refines_bind; [apply refines_refl|]. intro. apply ev_refines.
Qed.

Lemma refines_reduce (rest : list value) :
  forall proc a b,
    refines (reduce ev proc a b rest) (reduce ev' proc a b rest).
Proof.
  induction rest as [|c rest IH]; intros proc a b; cbn [reduce].
  - apply refines_call.
  - apply refines_bind; [apply refines_call|]. intro. apply IH.
Qed.

Lemma refines_apply (proc : value) (exps : list value) :
  refines (apply ev proc exps) (apply ev' proc exps).
Proof.
  unfold apply. destruct exps as [|a [|b rest]].
  - apply refines_call.
  - destruct (py_eq proc (VBuiltin OpAdd) || py_eq proc (VBuiltin OpSub))%bool;
      [apply refines_reduce|apply refines_call].
  - apply refines_reduce.
Qed.

Lemma refines_eval_list (xs : list expr) (env : handle) :
  refines (eval_list ev xs env) (eval_list ev' xs env).
Proof.
  induction xs as [|x xs IH]; cbn [eval_list]; [apply refines_refl|].
  apply refines_bind; [apply ev_refines|]. intro.
  apply refines_bind; [apply IH|]. intro. apply refines_refl.
Qed.

Lemma refines_cond_loop (clauses : list expr) (env : handle) :
  refines (cond_loop ev clauses env) (cond_loop ev' clauses env).
Proof.
  induction clauses as [|c clauses IH]; cbn [cond_loop]; [apply refines_refl|].
  apply refines_bind; [apply refines_refl|]. intros pe.
  apply refines_bind; [apply ev_refines|]. intros t.
  destruct (truthy t); [apply ev_refines|apply IH].
Qed.

Lemma refines_begin_loop (exps : list expr) :
  forall val env,
    refines (begin_loop ev exps val env) (begin_loop ev' exps val env).
Proof.
  induction exps as [|e exps IH]; intros val env; cbn [begin_loop].
  - apply refines_refl.
  - apply refines_bind; [apply ev_refines|]. intro. apply IH.
Qed.

Lemma refines_eval_body (x : expr) (env : handle) :
  refines (eval_body ev x env) (eval_body ev' x env).
Proof.
  destruct x as [n|f|s|xs]; cbn [eval_body]; try apply refines_refl.
  destruct xs as [|x0 args]; [apply refines_refl|].
  repeat first
    [ apply ev_refines
    | apply refines_cond_loop
    | apply refines_begin_loop
    | apply refines_eval_list
    | apply refines_apply
    | match goal with
      | |- refines (if ?c then _ else _) _ => destruct c
      | |- refines (match ?e with _ => _ end) _ => destruct e
      | |- refines (bind _ _) (bind _ _) => apply refines_bind; [|intro]
      end
    | apply refines_refl ].
Qed.

End Refines.

Lemma eval_refines_succ (n : nat) :
  forall x env, refines (eval n x env) (eval (S n) x env).
Proof.
  induction n as [|n IH]; intros x env.
  - intros st H. exfalso. apply H. reflexivity.
  - change (eval (S (S n)) x env) with (eval_body (eval (S n)) x env).
    change (eval (S n) x env) with (eval_body (eval n) x env).
    apply refines_eval_body. exact IH.
Qed.

(** X25. The recursion budget only decides whether evaluation settles:
    when an evaluation returns or raises within a budget, it has the same
    outcome, value and store, within every larger budget. *)
Theorem eval_outcome_independent_of_budget (n m : nat) (x : expr)
    (env : handle) (st : store) :
  (n <= m)%nat ->
  eval n x env st <> Diverge ->
  eval m x env st = eval n x env st.
Proof.
  intros Hle H. induction Hle as [|m Hle IH]; [reflexivity|].
  rewrite <- IH. apply eval_refines_succ. rewrite IH. exact H.
Qed.

Lemma eval_outcome_independent_of_budget_witness :
  eval 50 (List [Sym "+"; Int 1; Int 2]) global_env initial_store
  = Ok (VInt 3) initial_store.
Proof.
  rewrite (eval_outcome_independent_of_budget 2 50
             (List [Sym "+"; Int 1; Int 2]) global_env initial_store).
  - reflexivity.
  - repeat constructor.
  - discriminate.
Defined.

(** ** One form per call *)

Lemma scan_result_prefix (l : list string) :
  forall r r' sf o,
    scan l (r ++ r') sf o
    = match scan l r' sf o with
      | Return x => Return (r ++ x)
      | Throw e => Throw e
      end.
Proof.
  induction l as [|t l IH]; intros r r' sf o; [reflexivity|].
  cbn [scan]. destruct o.
  - destruct (Str.last t) as [c|]; [|reflexivity].
    destruct (Ascii.eqb c quote_char); [|apply IH].
    rewrite <- List.app_assoc. apply IH.
  - destruct (Str.first t) as [c|]; [|reflexivity].
    destruct (Ascii.eqb c quote_char); [apply IH|].
    rewrite <- List.app_assoc. apply IH.
Qed.

(** X26. [parse] reads one form and no more: when the text of a readable
    expression is followed by a space and any other text, the expression
    is returned and the tokens of the other text are left unread (the
    prompt and [load] drop them without notice). *)
Theorem parse_reads_first_form (e : expr) (s' : string) (rest : list string) :
  readable e ->
  tokenize s' = Return rest ->
  parse (to_string e ++ " " ++ s') = Ok e rest.
Proof.
  intros He Hs. unfold parse, tokenize in *.
  rewrite !pad_app. change (pad " ") with " ".
  rewrite split_app_space, words_of_rendering by assumption.
  destruct (tokens_plain e He) as [H1 H2].
  rewrite scan_plain by assumption.
  rewrite <- (List.app_nil_r ([] ++ tokens_of e)), scan_result_prefix, Hs.
  cbn [app]. destruct (read_tokens e He rest) as [n E].
  rewrite (read_from_any_fuel n); [exact E|]. rewrite E. discriminate.
Qed.

Lemma parse_reads_first_form_witness :
  parse ("(+ 1 2)" ++ " " ++ "(define x 3) y")
  = Ok (List [Sym "+"; Int 1; Int 2]) ["("; "define"; "x"; "3"; ")"; "y"].
Proof.
  apply (parse_reads_first_form (List [Sym "+"; Int 1; Int 2])
           "(define x 3) y").
  - cbn [readable map fold_right]. repeat split.
  - reflexivity.
Defined.

(** *** Division and comparison of integers *)

Lemma eval_application_ints (m : nat) (x0 : expr) (ks : list Z) (env : handle)
    (st : store) (proc : value) :
  is_special x0 = false ->
  eval (S m) x0 env st = Ok proc st ->
  eval (S (S m)) (List (x0 :: map Int ks)) env st
  = apply (eval (S m)) proc (map VInt ks) st.
Proof.
  intros Hs Hx. rewrite eval_application by assumption.
  change (eval_list (eval (S m)) (x0 :: map Int ks) env)
    with (bind (eval (S m) x0 env) (fun v =>
          bind (eval_list (eval (S m)) (map Int ks) env)
            (fun vs => ret (v :: vs)))).
  unfold bind. rewrite Hx, (eval_list_ints m ks). reflexivity.
Qed.

(** X27. [/] on two integer literals is the division that rounds toward
    minus infinity (the remainder has the sign of the divisor), and a zero
    divisor raises [ZeroDivisionError]; the store is unchanged. *)
Theorem integer_division_floors (m : nat) (x0 : expr) (a b : Z) (env : handle)
    (st : store) :
  is_special x0 = false ->
  eval (S m) x0 env st = Ok (VBuiltin OpDiv) st ->
  (b = 0 ->
   eval (S (S m)) (List [x0; Int a; Int b]) env st = Raise ZeroDivisionError st)
  /\ (b <> 0 ->
      exists q r,
        eval (S (S m)) (List [x0; Int a; Int b]) env st = Ok (VInt q) st
        /\ a = b * q + r /\ (0 <= r < b \/ b < r <= 0)).
Proof.
  intros Hs Hx.
  pose proof (eval_application_ints m x0 [a; b] env st _ Hs Hx) as E.
  cbn [map] in E. rewrite E. cbn [apply reduce call apply_builtin as_num num_div].
  unfold lift. split.
  - intros ->. reflexivity.
  - intros Hb. exists (a / b), (a mod b).
    destruct (Z.eqb_spec b 0) as [->|_]; [contradiction|].
    split; [reflexivity|]. split; [apply Z.div_mod; assumption|].
    destruct (Z_lt_le_dec 0 b) as [Hp|Hn].
    + left. apply Z.mod_pos_bound. assumption.
    + right. apply Z.mod_neg_bound. lia.
Qed.

Lemma integer_division_floors_witness :
  eval 2 (List [Sym "/"; Int (-7); Int 0]) global_env initial_store
  = Raise ZeroDivisionError initial_store
  /\ exists q r,
       eval 2 (List [Sym "/"; Int (-7); Int 2]) global_env initial_store
       = Ok (VInt q) initial_store
       /\ -7 = 2 * q + r /\ (0 <= r < 2 \/ 2 < r <= 0).
Proof.
  split.
  - apply (proj1 (integer_division_floors 0 (Sym "/") (-7) 0 global_env
                    initial_store eq_refl eq_refl)). reflexivity.
  - apply (proj2 (integer_division_floors 0 (Sym "/") (-7) 2 global_env
                    initial_store eq_refl eq_refl)). lia.
Defined.

Lemma compare_integers (ev : expr -> handle -> M value) (op : builtin)
    (f : Z -> Z -> bool) :
  In (op, f) comparison_ops ->
  forall a b st,
    call ev (VBuiltin op) [VInt a; VInt b] st = Ok (VBool (f a b)) st
    /\ forall t,
         call ev (VBuiltin op) [VBool t; VInt b] st
         = Ok (VBool (f (truth_number t) b)) st.
Proof.
  intros Hin a b st. unfold comparison_ops in Hin. simpl in Hin.
  destruct Hin as [[= <- <-]|[[= <- <-]|[[= <- <-]|[[= <- <-]|[[= <- <-]|[]]]]]];
    (split; [|intros [|]]);
    cbn [call apply_builtin lift];
    unfold py_gt, py_lt, py_ge, py_le, py_eq, Z.gtb, Z.ltb, Z.geb, Z.leb;
    cbn [py_compare as_num num_compare truth_number];
    rewrite ?Z.eqb_compare;
    match goal with |- context [?x ?= ?y] => destruct (x ?= y) end;
    reflexivity.
Qed.

(** X28. A comparison of two integer literals returns the boolean of the
    comparison.  With three operands it is not a chain: the boolean of
    the first two operands, counted as 1 or 0, is compared with the
    third. *)
Theorem comparison_of_three_operands (op : builtin) (f : Z -> Z -> bool)
    (m : nat) (x0 : expr) (a b c : Z) (env : handle) (st : store) :
  In (op, f) comparison_ops ->
  is_special x0 = false ->
  eval (S m) x0 env st = Ok (VBuiltin op) st ->
  eval (S (S m)) (List [x0; Int a; Int b]) env st = Ok (VBool (f a b)) st
  /\ eval (S (S m)) (List [x0; Int a; Int b; Int c]) env st
     = Ok (VBool (f (truth_number (f a b)) c)) st.
Proof.
  intros Hin Hs Hx. split.
  - pose proof (eval_application_ints m x0 [a; b] env st _ Hs Hx) as E.
    cbn [map] in E. rewrite E. cbn [apply reduce].
    apply (compare_integers _ op f Hin).
  - pose proof (eval_application_ints m x0 [a; b; c] env st _ Hs Hx) as E.
    cbn [map] in E. rewrite E. cbn [apply reduce]. unfold bind.
    rewrite (proj1 (compare_integers _ op f Hin a b st)).
    apply (compare_integers _ op f Hin 0 c st).
Qed.

Lemma comparison_of_three_operands_witness :
  eval 2 (List [Sym "<"; Int 3; Int 2]) global_env initial_store
  = Ok (VBool false) initial_store
  /\ eval 2 (List [Sym "<"; Int 3; Int 2; Int 1]) global_env initial_store
     = Ok (VBool true) initial_store.
Proof.
  apply (comparison_of_three_operands OpLt Z.ltb 0 (Sym "<") 3 2 1).
  - simpl. tauto.
  - reflexivity.
  - reflexivity.
Defined.
